(** * Page-object command wrapper: selector resolution and dual-mode dispatch

    A shallow embedding of [lib/page-object/command-wrapper.js] (classes
    [Command] and [CommandLoader]).  JavaScript objects live in an explicit
    heap, so that aliasing (the argument array mutated in place, the declared
    elements shared between calls, the [Command] instance shared between the
    calls of one wrapper) is visible in the statements. *)

From Stdlib Require Import ZArith List String Ascii Bool Lia.
From stdpp Require Import base list.
Import ListNotations.
Local Open Scope string_scope.
Local Open Scope list_scope.
Local Infix "^^" := String.append (at level 60, right associativity).

(** ** Values, objects and the heap *)

Abbreviation loc := nat (only parsing).

Inductive value : Type :=
| VUndef
| VNull
| VBool (b : bool)
| VNum (n : Z)
| VStr (s : string)
| VRef (l : loc).

(** A property is a data property or an accessor; [Getter g] stands for the
    getter number [g], evaluated on the receiver by an oracle. *)
Inductive slot : Type :=
| Data (v : value)
| Getter (g : nat).

Record prop : Type := mkProp { p_slot : slot; p_enum : bool }.

(** The classes the wrapper distinguishes ([instanceof], [constructor.name],
    [Array.isArray], [typeof]) and the closures it builds. *)
Inductive cls : Type :=
| CObject
| CArray
| CFunction (async : bool)
| CPromise (resolution : value)
| CElement
| CSection
| CPage
| CCommand
| CWrapper (self : loc) (commandFn : value)
| CElementWrapper (command : loc) (originalFn targetApi : value) (commandName : string).

(** Own properties in insertion order, array items, and the own properties of
    the object's prototype (prototypes are never written by this file, so they
    are kept by value). *)
Record obj : Type := mkObj {
  o_cls : cls;
  o_props : list (string * prop);
  o_items : list value;
  o_proto : list (string * prop)
}.

Abbreviation heap := (list obj) (only parsing).

(** What the wrapped functions were called with: callee, [this], arguments. *)
Record call : Type := mkCall { c_fn : value; c_this : value; c_args : list value }.

Record state : Type := mkState { st_heap : heap; st_calls : list call }.

Inductive exn : Type :=
| Err (ctor : string) (msg : string) (flags : list (string * value))
| Thrown (v : value).

Inductive outcome (A : Type) : Type :=
| Ret (a : A)
| Throw (e : exn)
| Diverge.
Arguments Ret {A} a.
Arguments Throw {A} e.
Arguments Diverge {A}.

(** ** State and exception monad *)

Definition M (A : Type) : Type := state -> outcome A * state.

Definition ret {A} (a : A) : M A := fun s => (Ret a, s).
Definition throw {A} (e : exn) : M A := fun s => (Throw e, s).
Definition diverge {A} : M A := fun s => (Diverge, s).
Definition bind {A B} (m : M A) (k : A -> M B) : M B :=
  fun s => match m s with
           | (Ret a, s') => k a s'
           | (Throw e, s') => (Throw e, s')
           | (Diverge, s') => (Diverge, s')
           end.

Declare Scope js_scope.
Delimit Scope js_scope with js.
Notation "'let*' x ':=' m 'in' k" := (bind m (fun x => k))
  (at level 10, x name, m at level 100, k at level 200) : js_scope.
Notation "'do' m 'then' k" := (bind m (fun _ => k))
  (at level 10, m at level 100, k at level 200) : js_scope.
Local Open Scope js_scope.

Definition get_heap : M heap := fun s => (Ret (st_heap s), s).
Definition put_heap (h : heap) : M unit :=
  fun s => (Ret tt, mkState h (st_calls s)).
Definition log_call (c : call) : M unit :=
  fun s => (Ret tt, mkState (st_heap s) (st_calls s ++ [c])).

Definition type_error (msg : string) : exn := Err "TypeError" msg [].

(** ** Primitive operations of the language *)

Definition value_eqb (a b : value) : bool :=
  match a, b with
  | VUndef, VUndef | VNull, VNull => true
  | VBool x, VBool y => Bool.eqb x y
  | VNum x, VNum y => Z.eqb x y
  | VStr x, VStr y => String.eqb x y
  | VRef x, VRef y => Nat.eqb x y
  | _, _ => false
  end.

Definition truthy (v : value) : bool :=
  match v with
  | VUndef | VNull => false
  | VBool b => b
  | VNum n => negb (Z.eqb n 0)
  | VStr s => negb (String.eqb s "")
  | VRef _ => true
  end.

Definition nullish (v : value) : bool :=
  match v with VUndef | VNull => true | _ => false end.

Fixpoint lookup_prop (k : string) (ps : list (string * prop)) : option prop :=
  match ps with
  | [] => None
  | (k', p) :: r => if String.eqb k k' then Some p else lookup_prop k r
  end.

(** [o[k] = v]: an own property keeps its place and enumerability, a new one
    is appended as an enumerable data property. *)
Fixpoint assign_prop (k : string) (v : value) (ps : list (string * prop))
  : list (string * prop) :=
  match ps with
  | [] => [(k, mkProp (Data v) true)]
  | (k', p) :: r =>
      if String.eqb k k' then (k', mkProp (Data v) (p_enum p)) :: r
      else (k', p) :: assign_prop k v r
  end.

(** [Object.defineProperty(o, k, d)] with a full descriptor [d]. *)
Fixpoint define_prop (k : string) (d : prop) (ps : list (string * prop))
  : list (string * prop) :=
  match ps with
  | [] => [(k, d)]
  | (k', p) :: r =>
      if String.eqb k k' then (k', d) :: r else (k', p) :: define_prop k d r
  end.

Definition own_keys (ps : list (string * prop)) : list string :=
  map fst (List.filter (fun kp => p_enum (snd kp)) ps).

Definition with_props (o : obj) (ps : list (string * prop)) : obj :=
  mkObj (o_cls o) ps (o_items o) (o_proto o).

Definition with_items (o : obj) (xs : list value) : obj :=
  mkObj (o_cls o) (o_props o) xs (o_proto o).

Definition data_props (kvs : list (string * value)) : list (string * prop) :=
  map (fun kv => (fst kv, mkProp (Data (snd kv)) true)) kvs.

Definition new_obj (c : cls) (kvs : list (string * value)) : obj :=
  mkObj c (data_props kvs) [] [].

Definition new_array (xs : list value) : obj := mkObj CArray [] xs [].

Definition starts_with_at (s : string) : bool :=
  match s with
  | String c _ => Ascii.eqb c "@"%char
  | EmptyString => false
  end.

(** [s.substring(1)] *)
Definition substring1 (s : string) : string :=
  match s with
  | String _ r => r
  | EmptyString => EmptyString
  end.

(** [s.split(':')]: never empty, the last piece is what follows the last colon. *)
Fixpoint split_colon (s : string) : list string :=
  match s with
  | EmptyString => [EmptyString]
  | String c r =>
      if Ascii.eqb c ":"%char then EmptyString :: split_colon r
      else match split_colon r with
           | [] => [String c EmptyString]
           | x :: xs => String c x :: xs
           end
  end.

Fixpoint join_comma (l : list string) : string :=
  match l with
  | [] => ""
  | [x] => x
  | x :: r => x ^^ ", " ^^ join_comma r
  end.

Definition digit_char (n : nat) : ascii := ascii_of_nat (48 + n).

Fixpoint pos_digits (fuel : nat) (n : N) (acc : string) : string :=
  match fuel with
  | O => acc
  | S f =>
      let acc' := String (digit_char (N.to_nat (n mod 10))) acc in
      if N.ltb n 10 then acc' else pos_digits f (n / 10)%N acc'
  end.

Definition Z_to_string (z : Z) : string :=
  let body := pos_digits (S (N.to_nat (N.log2 (Z.abs_N z)))) (Z.abs_N z) "" in
  if Z.ltb z 0 then String "-"%char body else body.

(** String conversion inside a template literal. *)
Definition to_str (v : value) : string :=
  match v with
  | VUndef => "undefined"
  | VNull => "null"
  | VBool true => "true"
  | VBool false => "false"
  | VNum n => Z_to_string n
  | VStr s => s
  | VRef _ => "[object Object]"
  end.

(** ** Heap access *)

Section Semantics.

(** The collaborators this file only calls.  [ext f this args h] runs the
    function object [f]; [run_getter g l h] evaluates getter [g] on receiver
    [l]; the four predicates are [Api.isElementCommand],
    [ScopedElementApi.isScopedElementCommand],
    [ApiLoader.getElementsCommandsStrict] and [Utils.LocateStrategy.isValid]. *)
Variable ext : loc -> value -> list value -> heap -> outcome value * heap.
Variable run_getter : nat -> loc -> heap -> value.
Variable isElementCommand : string -> bool.
Variable isScopedElementCommand : string -> bool.
Variable getElementsCommandsStrict : list string.
Variable LocateStrategy_isValid : value -> bool.

Definition read_slot (h : heap) (l : loc) (p : prop) : value :=
  match p_slot p with
  | Data v => v
  | Getter g => run_getter g l h
  end.

(** [o[k]] on the object at [l]: own property, then the prototype's. *)
Definition obj_get (h : heap) (l : loc) (o : obj) (k : string) : value :=
  match lookup_prop k (o_props o) with
  | Some p => read_slot h l p
  | None =>
      match lookup_prop k (o_proto o) with
      | Some p => read_slot h l p
      | None => VUndef
      end
  end.

Definition heap_get (h : heap) (v : value) (k : string) : outcome value :=
  match v with
  | VUndef | VNull => Throw (type_error "Cannot read properties of undefined or null")
  | VRef l =>
      match h !! l with
      | Some o => Ret (obj_get h l o k)
      | None => Ret VUndef
      end
  | _ => Ret VUndef
  end.

(** [v.k] *)
Definition get (v : value) (k : string) : M value :=
  fun s => (heap_get (st_heap s) v k, s).

Definition heap_set (h : heap) (l : loc) (k : string) (x : value) : heap :=
  match h !! l with
  | Some o => <[l := with_props o (assign_prop k x (o_props o))]> h
  | None => h
  end.

(** [v.k = x]; class bodies are strict code, so writing to a primitive throws. *)
Definition set (v : value) (k : string) (x : value) : M unit :=
  match v with
  | VRef l => fun s => (Ret tt, mkState (heap_set (st_heap s) l k x) (st_calls s))
  | _ => throw (type_error "Cannot set properties of a primitive")
  end.

Definition alloc (o : obj) : M loc :=
  fun s => (Ret (length (st_heap s)), mkState (st_heap s ++ [o]) (st_calls s)).

Definition cls_of (h : heap) (v : value) : option cls :=
  match v with
  | VRef l => o_cls <$> h !! l
  | _ => None
  end.

Definition items_of (h : heap) (v : value) : list value :=
  match v with
  | VRef l => match h !! l with Some o => o_items o | None => [] end
  | _ => []
  end.

(** [Array.isArray(v)] *)
Definition isArray (h : heap) (v : value) : bool :=
  match cls_of h v with Some CArray => true | _ => false end.

(** [typeof v === 'function'] *)
Definition isFunction (h : heap) (v : value) : bool :=
  match cls_of h v with
  | Some (CFunction _) | Some (CWrapper _ _) | Some (CElementWrapper _ _ _ _) => true
  | _ => false
  end.

(** Modelled from the spec: [Utils.isObject] (lib/utils is not in this file)
    holds of a value that is not null and whose [typeof] is 'object'; an
    array is one, a function is not. *)
Definition isObject (h : heap) (v : value) : bool :=
  match v with
  | VRef _ => negb (isFunction h v)
  | _ => false
  end.

(** Modelled from the spec: [Utils.isString] holds of the string values. *)
Definition isString (v : value) : bool :=
  match v with VStr _ => true | _ => false end.

(** Modelled from the spec: [Utils.isES6AsyncFn] holds of the functions
    declared with [async]. *)
Definition isES6AsyncFn (h : heap) (v : value) : bool :=
  match cls_of h v with Some (CFunction true) => true | _ => false end.

(** [a[i]] for an array (or any object seen through its items). *)
Definition index (v : value) (i : nat) : M value :=
  fun s =>
    match v with
    | VUndef | VNull => (Throw (type_error "Cannot read properties of undefined or null"), s)
    | _ => (Ret (default VUndef (items_of (st_heap s) v !! i)), s)
    end.

(** [a[0] = x]: JavaScript extends an empty array. *)
Definition set_index0 (a : loc) (x : value) : M unit :=
  fun s =>
    let h := st_heap s in
    match h !! a with
    | Some o =>
        let xs := match o_items o with [] => [x] | _ :: r => x :: r end in
        (Ret tt, mkState (<[a := with_items o xs]> h) (st_calls s))
    | None => (Ret tt, s)
    end.

(** [f.apply(this, args)] for a function this file does not define. *)
Definition call_fn (f : value) (this : value) (args : list value) : M value :=
  fun s =>
    match f with
    | VRef l =>
        if isFunction (st_heap s) f then
          let (r, h') := ext l this args (st_heap s) in
          (r, mkState h' (st_calls s ++ [mkCall f this args]))
        else (Throw (type_error "not a function"), s)
    | _ => (Throw (type_error "not a function"), s)
    end.

Fixpoint iter {A} (f : A -> M unit) (l : list A) : M unit :=
  match l with
  | [] => ret tt
  | x :: r => do f x then iter f r
  end.

Fixpoint mapM {A B} (f : A -> M B) (l : list A) : M (list B) :=
  match l with
  | [] => ret []
  | x :: r => let* y := f x in let* ys := mapM f r in ret (y :: ys)
  end.

(** ** The Element class (lib/element), as far as the wrapper uses it *)

Definition new_element (selector locateStrategy : value) : obj :=
  new_obj CElement [("selector", selector); ("locateStrategy", locateStrategy)].

Definition null_of_undef (v : value) : value :=
  match v with VUndef => VNull | _ => v end.

(** Modelled from the spec: [Element.createFromSelector] is not in this file.
    It builds a provisional Element, created anew for the invocation, from a
    literal or reference string or from a descriptor [{selector,
    locateStrategy}]; the locate strategy is null when none is given. *)
Definition Element_createFromSelector (v : value) : M value :=
  let* h := get_heap in
  if isObject h v && negb (isArray h v) then
    let* sel := get v "selector" in
    let* strat := get v "locateStrategy" in
    let* e := alloc (new_element sel (null_of_undef strat)) in
    ret (VRef e)
  else
    let* e := alloc (new_element v VNull) in
    ret (VRef e).

(** Modelled from the spec: [hasElementSelector] tells the [@name] references
    from the other selectors. *)
Definition hasElementSelector (e : value) : M bool :=
  let* sel := get e "selector" in
  ret (match sel with VStr s => starts_with_at s | _ => false end).

(** Modelled from the spec: the default selector properties that
    [Element.copyDefaults] copies are the fields of an Element that a
    declaration fixes (section 3 of the specification). *)
Definition Element_defaultProps : list string :=
  ["selector"; "locateStrategy"; "parent"; "pseudoSelector"].

(** Modelled from the spec: [Element.copyDefaults(target, source)] copies each
    default property the partially specified target lacks. *)
Definition Element_copyDefaults (target source : value) : M unit :=
  iter (fun k =>
          let* cur := get target k in
          if nullish cur then
            let* v := get source k in set target k v
          else ret tt)
       Element_defaultProps.

(** [v instanceof Section] *)
Definition isSection (h : heap) (v : value) : bool :=
  match cls_of h v with Some CSection => true | _ => false end.

(** The sections from the outermost one down to [s], following the [parent]
    back-references; [None] when the fuel runs out (a cyclic chain). *)
Fixpoint section_chain (fuel : nat) (h : heap) (s : value) : option (list value) :=
  match fuel with
  | O => None
  | S f =>
      match heap_get h s "parent" with
      | Ret p =>
          if isSection h p then (fun c => c ++ [s]) <$> section_chain f h p
          else Some [s]
      | _ => Some [s]
      end
  end.

(** Modelled from the spec: [getRecursiveLookupElement] is null for an element
    that no Section owns; otherwise it is a new Element with the synthetic
    strategy 'recursion' whose selector is the ordered chain of the ancestor
    sections followed by the element itself. *)
Definition getRecursiveLookupElement (e : value) : M value :=
  let* p := get e "parent" in
  let* h := get_heap in
  if isSection h p then
    match section_chain (length h) h p with
    | Some chain =>
        let* arr := alloc (new_array (chain ++ [e])) in
        let* r := alloc (new_element (VRef arr) (VStr "recursion")) in
        ret (VRef r)
    | None => diverge
    end
  else ret VNull.

(** ** class Command *)

Definition ALLOWED_NAMESPACES : list string :=
  ["alerts"; "cookies"; "document"; "assert"; "verify"; "expect"].

Definition isAllowedNamespace (commandName : string) : bool :=
  existsb (String.eqb commandName) ALLOWED_NAMESPACES.

Inductive ltype : Type := TYPE_ELEMENT | TYPE_SECTION.

Definition has_own (h : heap) (v : value) (k : string) : bool :=
  match v with
  | VRef l =>
      match h !! l with
      | Some o => match lookup_prop k (o_props o) with Some _ => true | None => false end
      | None => false
      end
  | _ => false
  end.

Definition isPossibleElementSelector (h : heap) (item : value) (commandName : string)
  : bool :=
  if negb (truthy item) then false
  else if isArray h item then false
  else if isObject h item then
    has_own h item "selector" &&
    match heap_get h item "selector" with Ret v => isString v | _ => false end
  else
    match item with
    | VStr s =>
        starts_with_at s || isElementCommand commandName
        || isScopedElementCommand commandName
    | _ => false
    end.

Definition isUserDefinedElementCommand (commandName : string) : bool :=
  negb (existsb (String.eqb commandName) getElementsCommandsStrict).

(** [new Command(parent, commandName, isChaiAssertion, isES6Async)] *)
Definition new_Command (parent : value) (commandName : string)
    (isChaiAssertion isES6Async : value) : M loc :=
  alloc (new_obj CCommand
           [("parent", parent);
            ("commandName", VStr commandName);
            ("isChaiAssertion", isChaiAssertion);
            ("isES6Async", isES6Async);
            ("isUserDefined", VBool (isUserDefinedElementCommand commandName))]).

Definition dquote : string := String "034"%char EmptyString.

(** [k in v] *)
Definition has_key (v : value) (k : string) : M bool :=
  let* h := get_heap in
  match v with
  | VRef l =>
      match h !! l with
      | Some o =>
          ret (match lookup_prop k (o_props o), lookup_prop k (o_proto o) with
               | None, None => false
               | _, _ => true
               end)
      | None => ret false
      end
  | _ => throw (type_error "Cannot use 'in' operator to search in a primitive")
  end.

(** [Object.keys(v)] *)
Definition keys (h : heap) (v : value) : list string :=
  match v with
  | VRef l => match h !! l with Some o => own_keys (o_props o) | None => [] end
  | _ => []
  end.

Definition validate_message (prefix name showStrategy parentName typeAvailable : string)
    (showAvailable : list string) : string :=
  prefix ^^ " " ^^ dquote ^^ name ^^ showStrategy ^^ dquote
  ^^ " was not found in " ^^ dquote ^^ parentName ^^ dquote
  ^^ ". Available " ^^ typeAvailable ^^ ": " ^^ join_comma showAvailable.

(** The assignments of the [switch] on the lookup type. *)
Definition type_field (type : ltype) : string :=
  match type with TYPE_ELEMENT => "elements" | TYPE_SECTION => "section" end.

Definition type_available (type : ltype) : string :=
  match type with TYPE_ELEMENT => "elements" | TYPE_SECTION => "sections" end.

Definition type_prefix (type : ltype) : string :=
  match type with TYPE_ELEMENT => "Element" | TYPE_SECTION => "Section" end.

Definition strategy_suffix (ls : value) : string :=
  "[locateStrategy='" ^^ to_str ls ^^ "']".

Definition validate (self : value) (elementOrSection : string) (strategy : value)
    (type : ltype) : M unit :=
  let* parent := get self "parent" in
  let* target := get parent (type_field type) in
  let* present := has_key target elementOrSection in
  let* isValid :=
    (if present && truthy strategy then
       let* entry := get target elementOrSection in
       let* ls := get entry "locateStrategy" in
       ret (truthy ls && value_eqb ls strategy)
     else ret present) in
  if isValid then ret tt
  else
    let* h := get_heap in
    let names := keys h target in
    let* showAvailable :=
      (if truthy strategy then
         mapM (fun item =>
                 let* entry := get target item in
                 let* ls := get entry "locateStrategy" in
                 ret (item ^^ strategy_suffix ls))
              names
       else ret names) in
    let showStrategy :=
      if truthy strategy then strategy_suffix strategy else "" in
    let* parentName := get parent "name" in
    throw (Err "Error"
             (validate_message (type_prefix type) elementOrSection showStrategy
                (to_str parentName) (type_available type) showAvailable) []).

Definition getElement (self : value) (elementName : string) (strategy : value)
  : M value :=
  do validate self elementName strategy TYPE_ELEMENT then
  let* parent := get self "parent" in
  let* elements := get parent "elements" in
  get elements elementName.

Definition getSection (self : value) (sectionName : string) (strategy : value)
  : M value :=
  do validate self sectionName strategy TYPE_SECTION then
  let* parent := get self "parent" in
  let* section := get parent "section" in
  get section sectionName.

Definition items (v : value) : M (list value) :=
  fun s => (Ret (items_of (st_heap s) v), s).

Definition getSelectorFromArgs (self : value) (args : value) : M value :=
  let* selectorArg := index args 0 in
  let* commandName := get self "commandName" in
  let* h := get_heap in
  if isPossibleElementSelector h selectorArg (to_str commandName) then
    let* arg1 := index args 1 in
    if LocateStrategy_isValid selectorArg && isString arg1 then
      let* d := alloc (new_obj CObject
                         [("selector", arg1); ("locateStrategy", selectorArg)]) in
      ret (VRef d)
    else ret selectorArg
  else ret VNull.

(** [nameSections[1] || null] *)
Definition pseudo_of (nameSections : list string) : value :=
  match nameSections with
  | _ :: p :: _ => if String.eqb p "" then VNull else VStr p
  | _ => VNull
  end.

Definition args_set0 (args : value) (x : value) : M unit :=
  match args with
  | VRef a => set_index0 a x
  | _ => throw (type_error "Cannot set properties of a primitive")
  end.

Definition parseElementSelector (self : value) (args : value) : M unit :=
  let* selector := getSelectorFromArgs self args in
  if negb (truthy selector) then ret tt
  else
    let* inputElement := Element_createFromSelector selector in
    let* isRef := hasElementSelector inputElement in
    if isRef then
      let* sel := get inputElement "selector" in
      let nameSections := split_colon (substring1 (to_str sel)) in
      let name := hd "" nameSections in
      let pseudoSelector := pseudo_of nameSections in
      let* isChai := get self "isChaiAssertion" in
      let* commandName := get self "commandName" in
      let isSectionSelector :=
        truthy isChai && value_eqb commandName (VStr "section") in
      let* h := get_heap in
      let* strategy :=
        (if isObject h selector then
           let* ls := get selector "locateStrategy" in
           ret (if truthy ls then ls else VNull)
         else ret VNull) in
      let* elementOrSection :=
        (if isSectionSelector then getSection self name strategy
         else getElement self name strategy) in
      do set elementOrSection "pseudoSelector" pseudoSelector then
      do Element_copyDefaults inputElement elementOrSection then
      let* ls := get elementOrSection "locateStrategy" in
      do set inputElement "locateStrategy" ls then
      let* sl := get elementOrSection "selector" in
      do set inputElement "selector" sl then
      let* rec := getRecursiveLookupElement inputElement in
      args_set0 args (if truthy rec then rec else inputElement)
    else
      let* parent := get self "parent" in
      let* h := get_heap in
      if isSection h parent then
        do set inputElement "parent" parent then
        let* rec := getRecursiveLookupElement inputElement in
        let* resolved :=
          (if truthy rec then ret rec
           else
             let* arr := alloc (new_array [parent; inputElement]) in
             let* d := alloc (new_obj CObject
                                [("locateStrategy", VStr "recursion");
                                 ("selector", VRef arr)]) in
             Element_createFromSelector (VRef d)) in
        let* commandName := get self "commandName" in
        do (if isScopedElementCommand (to_str commandName) then
              set self "onlyLocateSectionsRecursively" (VBool true)
            else ret tt) then
        args_set0 args resolved
      else ret tt.

Definition executeCommand (self : value) (commandFn : value) (args : value)
    (context : value) : M value :=
  let* a0 := index args 0 in
  let* h := get_heap in
  let* parseArgs :=
    (if isObject h a0 then
       let* inner := get a0 "args" in
       let* h' := get_heap in
       ret (if isArray h' inner then inner else args)
     else ret args) in
  do parseElementSelector self parseArgs then
  let* argv := items args in
  call_fn commandFn context argv.

(** [createWrapper(commandFn)]: the closure is a function object that
    remembers the Command and the wrapped function. *)
Definition createWrapper (self : loc) (commandFn : value) : M value :=
  let* w := alloc (mkObj (CWrapper self commandFn) [] [] []) in
  ret (VRef w).

(** [result instanceof Promise] *)
Definition isPromise (h : heap) (v : value) : bool :=
  match cls_of h v with Some (CPromise _) => true | _ => false end.

(** [self.parent.constructor.name === 'Page'] *)
Definition isPageCtor (parent : value) : M bool :=
  match parent with
  | VUndef | VNull => throw (type_error "Cannot read properties of undefined or null")
  | _ =>
      let* h := get_heap in
      ret (match cls_of h parent with Some CPage => true | _ => false end)
  end.

Definition own_props (h : heap) (v : value) : list (string * prop) :=
  match v with
  | VRef l => match h !! l with Some o => o_props o | None => [] end
  | _ => []
  end.

Definition proto_props (h : heap) (v : value) : list (string * prop) :=
  match v with
  | VRef l => match h !! l with Some o => o_proto o | None => [] end
  | _ => []
  end.

(** [Object.assign(target, source)] *)
Definition Object_assign (target source : value) : M unit :=
  let* h := get_heap in
  iter (fun k => let* v := get source k in set target k v)
       (own_keys (own_props h source)).

(** [Object.defineProperty(target, k, d)] *)
Definition Object_defineProperty (target : value) (k : string) (d : prop) : M unit :=
  match target with
  | VRef l =>
      fun s =>
        let h := st_heap s in
        match h !! l with
        | Some o =>
            (Ret tt,
             mkState (<[l := with_props o (define_prop k d (o_props o))]> h)
                     (st_calls s))
        | None => (Ret tt, s)
        end
  | _ => throw (type_error "Object.defineProperty called on non-object")
  end.

(** The lines that turn a promise into a command target. *)
Definition augment (result parent : value) : M unit :=
  do Object_assign result parent then
  let* h := get_heap in
  let parentPrototype := proto_props h parent in
  iter (fun propertyName =>
          if String.eqb propertyName "constructor" then ret tt
          else
            match lookup_prop propertyName parentPrototype with
            | Some d => Object_defineProperty result propertyName d
            | None => ret tt
            end)
       (map fst parentPrototype).

(** The part of the closure before the result is classified. *)
Definition wrapper_invoke (self commandFn this : value) (argv : list value)
  : M (value * value) :=
  let* a := alloc (new_array argv) in
  let args := VRef a in
  let* needs :=
    (match argv with
     | [] => ret false
     | _ :: _ => let* n := get this "__needsRecursion" in ret (truthy n)
     end) in
  do (if needs then
        let* a0 := index args 0 in
        let* inputElement := Element_createFromSelector a0 in
        let* isUserDefined := get self "isUserDefined" in
        let* el := get this "__element" in
        if truthy isUserDefined then
          do set inputElement "container" el then
          args_set0 args inputElement
        else
          let* arr := alloc (new_array [el; inputElement]) in
          let* d := alloc (new_obj CObject
                             [("locateStrategy", VStr "recursion");
                              ("selector", VRef arr)]) in
          let* e := Element_createFromSelector (VRef d) in
          args_set0 args e
      else ret tt) then
  let* c1 := get this "client" in
  let* client :=
    (if truthy c1 then ret c1
     else
       let* p := get self "parent" in
       let* c2 := (if truthy p then get p "client" else ret p) in
       if truthy c2 then ret c2
       else let* e := alloc (new_obj CObject []) in ret (VRef e)) in
  let* result := executeCommand self commandFn args client in
  ret (result, client).

(** What the closure returns once the command has produced [result]. *)
Definition wrapper_return (self result client : value) : M value :=
  let* isChai := get self "isChaiAssertion" in
  if truthy isChai then ret result
  else
    let* isES6AsyncTestcase := get client "isES6AsyncTestcase" in
    let* parent := get self "parent" in
    let* h := get_heap in
    if isPromise h result then
      let* page := isPageCtor parent in
      if page || truthy isES6AsyncTestcase then
        do augment result parent then
        ret result
      else ret parent
    else ret parent.

(** A call [w.call(this, ...argv)] of the closure [createWrapper] returned. *)
Definition call_wrapper (self commandFn this : value) (argv : list value) : M value :=
  let* rc := wrapper_invoke self commandFn this argv in
  wrapper_return self (fst rc) (snd rc).

(** ** class CommandLoader *)

Definition duplicate_message (commandName : string) : string :=
  "Error while loading the page object commands: the command " ^^ dquote
  ^^ commandName ^^ dquote ^^ " is already defined.".

Definition duplicate_error (commandName : string) : exn :=
  Err "TypeError" (duplicate_message commandName)
      [("displayed", VBool false); ("showTrace", VBool false)].

(** A default parameter value [= false]. *)
Definition or_false (v : value) : value :=
  match v with VUndef => VBool false | _ => v end.

Definition addCommand (target commandFn : value) (commandName : string)
    (parent isChaiAssertion isES6Async overwrite : value) : M value :=
  let* existing := get target commandName in
  if truthy existing && negb (truthy (or_false overwrite)) then
    throw (duplicate_error commandName)
  else
    let* command := new_Command parent commandName isChaiAssertion
                      (or_false isES6Async) in
    createWrapper command commandFn.

(** The assignment [target[commandName] = CommandLoader.addCommand({...})]. *)
Definition register (target commandFn : value) (commandName : string)
    (parent isChaiAssertion isES6Async overwrite : value) : M value :=
  let* w := addCommand target commandFn commandName parent isChaiAssertion
              isES6Async overwrite in
  do set target commandName w then
  ret w.

(** [Object.keys(v)] as a statement: null and undefined have no keys to list. *)
Definition Object_keys (v : value) : M (list string) :=
  match v with
  | VUndef | VNull => throw (type_error "Cannot convert undefined or null to object")
  | _ => let* h := get_heap in ret (keys h v)
  end.

(** The body of the outer [forEach] of [applyCommandsToTarget]. *)
Definition applyCommand (parent target commands : value) (commandName : string)
  : M unit :=
  if isAllowedNamespace commandName then
    let* cur := get target commandName in
    let* ns0 := (if truthy cur then ret cur
                 else let* e := alloc (new_obj CObject []) in ret (VRef e)) in
    do set target commandName ns0 then
    let isChaiAssertion := VBool (String.eqb commandName "expect") in
    let* namespace := get commands commandName in
    let* nsNames := Object_keys namespace in
    iter (fun nsCommandName =>
            let* slot := get target commandName in
            let* fn := get namespace nsCommandName in
            do register slot fn nsCommandName parent isChaiAssertion
                 VUndef VUndef then
            ret tt)
         nsNames
  else
    let* fn := get commands commandName in
    let* h := get_heap in
    if isObject h fn then ret tt
    else
      do register target fn commandName parent (VBool false)
           (VBool (isES6AsyncFn h fn)) VUndef then
      ret tt.

Definition applyCommandsToTarget (parent target commands : value) : M unit :=
  let* names := Object_keys commands in
  iter (applyCommand parent target commands) names.

(** [wrapElementCommand(parent, originalApi, targetApi, commandName)] *)
Definition wrapElementCommand (parent originalApi targetApi : value)
    (commandName : string) : M value :=
  let* originalFn := get originalApi commandName in
  let* command := new_Command parent commandName (VBool false) (VBool false) in
  let* w := alloc (mkObj (CElementWrapper command originalFn targetApi commandName)
                         [] [] []) in
  ret (VRef w).

(** [a.pop()] *)
Definition array_pop (a : value) : M unit :=
  let* h := get_heap in
  match a with
  | VRef l =>
      match h !! l with
      | Some o =>
          if isArray h a then
            put_heap (<[l := with_items o (removelast (o_items o))]> h)
          else throw (type_error "pop is not a function")
      | None => throw (type_error "pop is not a function")
      end
  | VUndef | VNull => throw (type_error "Cannot read properties of undefined or null")
  | _ => throw (type_error "pop is not a function")
  end.

(** A call of the closure [wrapElementCommand] returned. *)
Definition call_element_wrapper (command : loc) (originalFn targetApi : value)
    (commandName : string) (argv : list value) : M value :=
  let* a := alloc (new_array argv) in
  let args := VRef a in
  let origArgs := argv in
  do parseElementSelector (VRef command) args then
  let* only := get (VRef command) "onlyLocateSectionsRecursively" in
  if truthy only then
    let* a0 := index args 0 in
    let* sel := get a0 "selector" in
    do array_pop sel then
    let* a0' := index args 0 in
    let* parentSectionElement := call_fn targetApi VUndef [a0'] in
    let* method := get parentSectionElement commandName in
    call_fn method parentSectionElement origArgs
  else
    let* argv' := items args in
    call_fn originalFn targetApi argv'.

(** [wrapProtocolCommands(parent, api, commands)], for an array [commands] of
    command names. *)
Definition wrapProtocolCommands (parent api : value) (commands : list string)
  : M unit :=
  iter (fun commandName =>
          let* w := wrapElementCommand parent api api commandName in
          set api commandName w)
       commands.



(** [addWrappedCommandsAsync(parent, commandLoader)] *)
Definition addWrappedCommandsAsync (parent commandLoader : value) : M value :=
  let* commands := alloc (new_obj CObject []) in
  let* wrappedCommands := call_fn commandLoader VUndef [VRef commands] in
  do applyCommandsToTarget parent parent wrappedCommands then
  ret wrappedCommands.

(** ** The assertion [urlMatches] (lib/api/assertions/urlMatches.js)

    The regular expression is taken as a string, the form in which the
    messages quote it. *)



(** [this.value(result = {})] *)
Definition urlMatches_value (result : value) : M value :=
  let* result :=
    (match result with
     | VUndef => let* e := alloc (new_obj CObject []) in ret (VRef e)
     | _ => ret result
     end) in
  let* v := get result "value" in
  ret (if truthy v then v else VStr "").

(** * Vocabulary of the statements *)

(** The locate strategy an entry of a declaration map carries. *)
Definition strategy_of (h : heap) (entry : value) : value :=
  match heap_get h entry "locateStrategy" with
  | Ret v => v
  | _ => VUndef
  end.


Definition lookup_by (type : ltype) : value -> string -> value -> M value :=
  match type with
  | TYPE_ELEMENT => getElement
  | TYPE_SECTION => getSection
  end.


(** A declared name as the error message shows it. *)
Definition annotated (h : heap) (m : loc) (om : obj) (strategy : value)
    (k : string) : string :=
  if truthy strategy
  then k ^^ strategy_suffix (strategy_of h (obj_get h m om k))
  else k.

Definition lookup_message (type : ltype) (h : heap) (m : loc) (om : obj)
    (name : string) (strategy parentName : value) : string :=
  validate_message (type_prefix type) name
    (if truthy strategy then strategy_suffix strategy else "")
    (to_str parentName) (type_available type)
    (map (annotated h m om strategy) (map fst (o_props om))).

(** What selector resolution leaves alone.  Relative to the first [n] objects
    of the heap, the argument array [a] and the Command [c]: no call is made,
    no object disappears or changes class or prototype, only the array [a]
    may change its items, and outside the Command only a [pseudoSelector]
    property may change. *)
Definition frame (n : nat) (a c : value) (s s' : state) : Prop :=
  st_calls s' = st_calls s /\
  length (st_heap s) <= length (st_heap s') /\
  forall l o, l < n -> st_heap s !! l = Some o ->
    exists o',
      st_heap s' !! l = Some o'
      /\ o_cls o' = o_cls o
      /\ o_proto o' = o_proto o
      /\ (VRef l <> a -> o_items o' = o_items o)
      /\ (VRef l <> c ->
          forall k, k <> "pseudoSelector" ->
                    lookup_prop k (o_props o') = lookup_prop k (o_props o)).

(** A computation that respects [frame] from every state with at least [n]
    objects, and whose result satisfies [Q]. *)
Definition framed {A} (n : nat) (a c : value) (m : M A) (Q : A -> Prop) : Prop :=
  forall s, n <= length (st_heap s) ->
    frame n a c s (snd (m s)) /\ (forall x, fst (m s) = Ret x -> Q x).

(** A reference to an object allocated after the first [n] ones. *)
Definition fresh (n : nat) (v : value) : Prop :=
  exists l, v = VRef l /\ n <= l.

(** The array selector resolution works on: [args[0].args] under the
    structured calling convention, the argument list itself otherwise. *)
Definition parse_args (h : heap) (args : value) : value :=
  let a0 := default VUndef (items_of h args !! 0) in
  if isObject h a0 then
    match heap_get h a0 "args" with
    | Ret inner => if isArray h inner then inner else args
    | _ => args
    end
  else args.

(** [v.k] as a value, for reads that cannot throw. *)
Definition read (h : heap) (v : value) (k : string) : value :=
  match heap_get h v k with
  | Ret x => x
  | _ => VUndef
  end.

(** The properties [Object.defineProperty] leaves on an object after the loop
    over the prototype's property names. *)
Fixpoint define_all (proto : list (string * prop)) (names : list string)
    (ps : list (string * prop)) : list (string * prop) :=
  match names with
  | [] => ps
  | k :: r =>
      define_all proto r
        (if String.eqb k "constructor" then ps
         else match lookup_prop k proto with
              | Some d => define_prop k d ps
              | None => ps
              end)
  end.

(** Only the properties of the object at [r] differ between two states. *)
Definition only_props_at (r : loc) (s s' : state) : Prop :=
  st_calls s' = st_calls s
  /\ length (st_heap s') = length (st_heap s)
  /\ (forall l, l <> r -> st_heap s' !! l = st_heap s !! l)
  /\ (forall o, st_heap s !! r = Some o ->
        exists o', st_heap s' !! r = Some o'
                   /\ o_cls o' = o_cls o
                   /\ o_items o' = o_items o
                   /\ o_proto o' = o_proto o).

(** The object at [l] has the own data property [k], with value [v]. *)
Definition has_field (h : heap) (l : loc) (k : string) (v : value) : Prop :=
  exists o e, h !! l = Some o
              /\ lookup_prop k (o_props o) = Some (mkProp (Data v) e).

(** The object at [l] has no property [k], own or inherited. *)
Definition lacks (h : heap) (l : loc) (k : string) : Prop :=
  exists o, h !! l = Some o
            /\ lookup_prop k (o_props o) = None
            /\ lookup_prop k (o_proto o) = None.

(** The state [a[0] = x] leaves. *)
Definition heap_set0 (h : heap) (a : loc) (x : value) : heap :=
  match h !! a with
  | Some o =>
      <[a := with_items o (match o_items o with
                           | [] => [x]
                           | _ :: r => x :: r
                           end)]> h
  | None => h
  end.

(** The sections that enclose the section at [s], outermost first, when each
    holds its parent in a data property and was built after its parent. *)
Inductive ancestry (h : heap) : loc -> list value -> Prop :=
| ancestry_top s p :
    has_field h s "parent" p ->
    isSection h p = false ->
    (forall q, p = VRef q -> q < length h) ->
    ancestry h s [VRef s]
| ancestry_nested s p chain :
    has_field h s "parent" (VRef p) ->
    isSection h (VRef p) = true ->
    p < s ->
    ancestry h p chain ->
    ancestry h s (chain ++ [VRef s]).

(** The two branches of [parseElementSelector], named so that they can be
    stated on their own: what happens to an [@name] reference, and to a
    literal selector. *)
Definition reference_branch (self args selector inputElement : value) : M unit :=
  let* sel := get inputElement "selector" in
  let nameSections := split_colon (substring1 (to_str sel)) in
  let name := hd "" nameSections in
  let pseudoSelector := pseudo_of nameSections in
  let* isChai := get self "isChaiAssertion" in
  let* commandName := get self "commandName" in
  let isSectionSelector :=
    truthy isChai && value_eqb commandName (VStr "section") in
  let* h := get_heap in
  let* strategy :=
    (if isObject h selector then
       let* ls := get selector "locateStrategy" in
       ret (if truthy ls then ls else VNull)
     else ret VNull) in
  let* elementOrSection :=
    (if isSectionSelector then getSection self name strategy
     else getElement self name strategy) in
  do set elementOrSection "pseudoSelector" pseudoSelector then
  do Element_copyDefaults inputElement elementOrSection then
  let* ls := get elementOrSection "locateStrategy" in
  do set inputElement "locateStrategy" ls then
  let* sl := get elementOrSection "selector" in
  do set inputElement "selector" sl then
  let* rec := getRecursiveLookupElement inputElement in
  args_set0 args (if truthy rec then rec else inputElement).

Definition literal_branch (self args inputElement : value) : M unit :=
  let* parent := get self "parent" in
  let* h := get_heap in
  if isSection h parent then
    do set inputElement "parent" parent then
    let* rec := getRecursiveLookupElement inputElement in
    let* resolved :=
      (if truthy rec then ret rec
       else
         let* arr := alloc (new_array [parent; inputElement]) in
         let* d := alloc (new_obj CObject
                            [("locateStrategy", VStr "recursion");
                             ("selector", VRef arr)]) in
         Element_createFromSelector (VRef d)) in
    let* commandName := get self "commandName" in
    do (if isScopedElementCommand (to_str commandName) then
          set self "onlyLocateSectionsRecursively" (VBool true)
        else ret tt) then
    args_set0 args resolved
  else ret tt.

Fixpoint no_colon (s : string) : bool :=
  match s with
  | EmptyString => true
  | String c r => negb (Ascii.eqb c ":"%char) && no_colon r
  end.

(** The reference [@name] or [@name:suffix]. *)
Definition reference (name : string) (suffix : option string) : string :=
  "@" ^^ name ^^ match suffix with
                 | Some sfx => ":" ^^ sfx
                 | None => ""
                 end.

(** The [pseudoSelector] a reference asks for. *)
Definition pseudo_value (suffix : option string) : value :=
  match suffix with
  | Some sfx => VStr sfx
  | None => VNull
  end.

(** The heap [parseElementSelector] leaves after resolving a reference to the
    declared element [d] through the provisional Element [e]: [sl], [ls] and
    [par] are the declaration's selector, locate strategy and parent. *)
Definition resolved_heap (h : heap) (a d e : loc) (sl ls par pseudo : value)
    (chain : list value) : heap :=
  let h1 := heap_set h d "pseudoSelector" pseudo in
  let h2 := heap_set h1 e "locateStrategy" ls in
  let h3 := heap_set h2 e "parent" par in
  let h4 := heap_set h3 e "pseudoSelector" pseudo in
  let h5 := heap_set h4 e "locateStrategy" ls in
  let h6 := heap_set h5 e "selector" sl in
  if isSection h par then
    heap_set0
      ((h6 ++ [new_array (chain ++ [VRef e])])
         ++ [new_element (VRef (length h)) (VStr "recursion")])
      a (VRef (S (length h)))
  else heap_set0 h6 a (VRef e).

(** The Command object [addCommand] builds for a direct command. *)
Definition command_object (parent : value) (name : string) (async : bool) : obj :=
  new_obj CCommand
    [("parent", parent);
     ("commandName", VStr name);
     ("isChaiAssertion", VBool false);
     ("isES6Async", VBool async);
     ("isUserDefined", VBool (isUserDefinedElementCommand name))].

(** The invariants of the loop of [applyCommandsToTarget], for a target [t]
    and a commands object [c] in a heap that started as [h0].  A registration
    under a namespace must not touch the target, the commands object and the
    Commands built since the loop started. *)
Definition reg_protected (h0 : heap) (t c : loc) (s : state) (l : loc) : Prop :=
  l = t \/ l = c
  \/ (length h0 <= l /\ cls_of (st_heap s) (VRef l) = Some CCommand).

Definition reg_keeps (h0 : heap) (t c : loc) (s s' : state) : Prop :=
  length (st_heap s) <= length (st_heap s')
  /\ forall l o, st_heap s !! l = Some o ->
       exists o', st_heap s' !! l = Some o'
                  /\ o_cls o' = o_cls o
                  /\ (reg_protected h0 t c s l -> o' = o).

(** A namespace slot of the target: an object other than the target and the
    commands object, either older than the loop or a plain object. *)
Definition slot_ok (h0 : heap) (t c : loc) (s : state) (v : value) : Prop :=
  forall l, v = VRef l ->
    l <> c /\ l <> t
    /\ (l < length h0 \/ cls_of (st_heap s) (VRef l) = Some CObject).

Definition reg_inv (h0 : heap) (t c : loc) (oc : obj) (s : state) : Prop :=
  length h0 <= length (st_heap s)
  /\ st_heap s !! c = Some oc
  /\ (forall l o, h0 !! l = Some o ->
        cls_of (st_heap s) (VRef l) = Some (o_cls o))
  /\ (forall ns, isAllowedNamespace ns = true ->
        lacks (st_heap s) t ns
        \/ exists v, has_field (st_heap s) t ns v /\ slot_ok h0 t c s v).

(** [name] is registered on the target as a wrapper of [fn] whose Command was
    built since the loop started. *)
Definition registered (h0 : heap) (t : loc) (parent : value) (name : string)
    (fn : value) (s : state) : Prop :=
  exists w cmd,
    has_field (st_heap s) t name (VRef w)
    /\ cls_of (st_heap s) (VRef w) = Some (CWrapper cmd fn)
    /\ length h0 <= cmd
    /\ st_heap s !! cmd = Some (command_object parent name (isES6AsyncFn h0 fn)).

(** * A sample page object

    Page [home] declares the element [submit] and the section [footer], which
    declares the element [link].  The heap also holds the Commands of a few
    registered commands, a command function, a client, a promise, and the
    objects the loader and the scoped element API work on. *)

Definition sample_elements : obj := new_obj CObject [("submit", VRef 2)].

Definition sample_submit : obj :=
  new_obj CElement
    [("name", VStr "submit"); ("selector", VStr "#go");
     ("locateStrategy", VNull); ("parent", VRef 0)].

Definition sample_commands : obj :=
  new_obj CObject [("open", VRef 10); ("helpers", VRef 7)].

Definition sample_heap : heap :=
  [ (* 0 *) mkObj CPage
              (data_props [("name", VStr "home"); ("elements", VRef 1);
                           ("section", VRef 3); ("client", VRef 11)])
              []
              [("constructor", mkProp (Data (VRef 14)) false);
               ("api", mkProp (Getter 0) false);
               ("navigate", mkProp (Data (VRef 10)) false)];
    (* 1 *) sample_elements;
    (* 2 *) sample_submit;
    (* 3 *) new_obj CObject [("footer", VRef 4)];
    (* 4 *) new_obj CSection
              [("name", VStr "footer"); ("selector", VStr "#footer");
               ("locateStrategy", VStr "css selector"); ("parent", VRef 0);
               ("elements", VRef 5); ("section", VRef 7);
               ("client", VRef 11)];
    (* 5 *) new_obj CObject [("link", VRef 6)];
    (* 6 *) new_obj CElement
              [("name", VStr "link"); ("selector", VStr "a.link");
               ("locateStrategy", VNull); ("parent", VRef 4)];
    (* 7 *) new_obj CObject [];
    (* 8 *) new_obj CCommand
              [("parent", VRef 0); ("commandName", VStr "click");
               ("isChaiAssertion", VBool false); ("isES6Async", VBool false);
               ("isUserDefined", VBool false)];
    (* 9 *) new_obj CCommand
              [("parent", VRef 4); ("commandName", VStr "click");
               ("isChaiAssertion", VBool false); ("isES6Async", VBool false);
               ("isUserDefined", VBool false)];
    (* 10 *) mkObj (CFunction false) [] [] [];
    (* 11 *) new_obj CObject [("isES6AsyncTestcase", VBool false)];
    (* 12 *) mkObj (CPromise (VNum 7)) [] [] [];
    (* 13 *) new_obj CCommand
               [("parent", VRef 4); ("commandName", VStr "find");
                ("isChaiAssertion", VBool false); ("isES6Async", VBool false);
                ("isUserDefined", VBool false)];
    (* 14 *) mkObj (CFunction false) [] [] [];
    (* 15 *) new_obj CObject [("find", VRef 10)];
    (* 16 *) new_obj CCommand
               [("parent", VRef 4); ("commandName", VStr "logMessage");
                ("isChaiAssertion", VBool false); ("isES6Async", VBool false);
                ("isUserDefined", VBool true)];
    (* 17 *) sample_commands;
    (* 18 *) new_obj CObject [("name", VStr "target")];
    (* 19 *) new_array [VStr "@submit:text"];
    (* 20 *) new_array [VStr "@link"];
    (* 21 *) new_array [VStr ".title"];
    (* 22 *) new_array [VStr "hello"];
    (* 23 *) new_array [VStr "css selector"; VStr ".title"];
    (* 24 *) new_array [VStr "@submit"];
    (* 25 *) new_obj CObject [("args", VRef 24)];
    (* 26 *) new_array [VRef 25; VNum 3];
    (* 27 *) new_obj CCommand
               [("parent", VRef 0); ("commandName", VStr "section");
                ("isChaiAssertion", VBool true); ("isES6Async", VBool false);
                ("isUserDefined", VBool true)];
    (* 28 *) new_array [VStr EmptyString]
  ].

Definition sample : state := mkState sample_heap [].

(** The command function (object 10) returns the promise (object 12); the
    scoped element accessor (object 14) returns the object 15, which has a
    [find] method. *)
Definition sample_ext (f : loc) (this : value) (args : list value) (h : heap)
  : outcome value * heap :=
  match f with
  | 10 => (Ret (VRef 12), h)
  | 14 => (Ret (VRef 15), h)
  | _ => (Ret VUndef, h)
  end.

Definition sample_getter (g : nat) (l : loc) (h : heap) : value := VUndef.

Definition sample_isElementCommand (s : string) : bool := String.eqb s "click".

Definition sample_isScopedElementCommand (s : string) : bool :=
  String.eqb s "find".

Definition sample_strict : list string := ["click"; "find"].

Definition sample_isValid (v : value) : bool :=
  match v with
  | VStr s => String.eqb s "css selector" || String.eqb s "xpath"
  | _ => false
  end.

(** A computation that keeps the state property [P]. *)
Definition preserves {A} (P : state -> Prop) (m : M A) : Prop :=
  forall s, P s -> P (snd (m s)).

(** The flag of the scoped element API is set on the Command at [c]. *)
Definition flag_set (c : loc) (s : state) : Prop :=
  has_field (st_heap s) c "onlyLocateSectionsRecursively" (VBool true).

(** The array at [a] holds a first item followed by [rest]. *)
Definition rest_is (a : loc) (rest : list value) (s : state) : Prop :=
  exists x, items_of (st_heap s) (VRef a) = x :: rest.

(** The branch of the closure of [wrapElementCommand] taken when the flag is
    set: the chain without its last selector goes to [targetApi], the
    original arguments to the method of what it returns. *)
Definition delegate (targetApi : value) (commandName : string) (args : value)
    (origArgs : list value) : M value :=
  let* a0 := index args 0 in
  let* sel := get a0 "selector" in
  do array_pop sel then
  let* a0' := index args 0 in
  let* parentSectionElement := call_fn targetApi VUndef [a0'] in
  let* method := get parentSectionElement commandName in
  call_fn method parentSectionElement origArgs.

(** Reading [k] on the object at [l] gives [v] and runs no getter. *)
Definition reads (h : heap) (l : loc) (k : string) (v : value) : Prop :=
  exists o, h !! l = Some o /\ forall h', obj_get h' l o k = v.

(** The object at [dest] holds under [name] the closure that
    [wrapElementCommand] builds for the function [f] and the API [target],
    with a Command of its own for [parent] and [name]. *)
Definition wrapped (h : heap) (dest : loc) (parent : value) (name : string)
    (f target : value) : Prop :=
  exists w cmd,
    has_field h dest name (VRef w)
    /\ cls_of h (VRef w) = Some (CElementWrapper cmd f target name)
    /\ dest < cmd
    /\ h !! cmd = Some (command_object parent name false).


(** The two parts of the closure of [createWrapper] that come before
    [executeCommand]: the treatment of a first argument within a command
    ([this.__needsRecursion]), and the choice of the client. *)
Definition wrapper_prelude (self this args : value) (argv : list value)
  : M unit :=
  let* needs :=
    (match argv with
     | [] => ret false
     | _ :: _ => let* n := get this "__needsRecursion" in ret (truthy n)
     end) in
  if needs then
    let* a0 := index args 0 in
    let* inputElement := Element_createFromSelector a0 in
    let* isUserDefined := get self "isUserDefined" in
    let* el := get this "__element" in
    if truthy isUserDefined then
      do set inputElement "container" el then
      args_set0 args inputElement
    else
      let* arr := alloc (new_array [el; inputElement]) in
      let* d := alloc (new_obj CObject
                         [("locateStrategy", VStr "recursion");
                          ("selector", VRef arr)]) in
      let* e := Element_createFromSelector (VRef d) in
      args_set0 args e
  else ret tt.

Definition wrapper_client (self this : value) : M value :=
  let* c1 := get this "client" in
  if truthy c1 then ret c1
  else
    let* p := get self "parent" in
    let* c2 := (if truthy p then get p "client" else ret p) in
    if truthy c2 then ret c2
    else let* e := alloc (new_obj CObject []) in ret (VRef e).

(** The loop of [applyCommandsToTarget], seen from a command [k] of the
    namespace [ns] whose commands object is at [nsl]: the objects that hold
    namespaces on the target are other objects than the target, the commands
    object and [nsl], and are older than the loop or plain objects. *)
Definition ns_slot_ok (h0 : heap) (t c nsl : loc) (s : state) (v : value)
  : Prop :=
  forall l, v = VRef l ->
    l <> c /\ l <> t /\ l <> nsl
    /\ (l < length h0 \/ cls_of (st_heap s) (VRef l) = Some CObject).

Definition ns_inv (h0 : heap) (t c nsl : loc) (oc on : obj) (s : state)
  : Prop :=
  length h0 <= length (st_heap s)
  /\ st_heap s !! c = Some oc
  /\ st_heap s !! nsl = Some on
  /\ (forall ns, isAllowedNamespace ns = true ->
        lacks (st_heap s) t ns
        \/ exists v, has_field (st_heap s) t ns v /\ ns_slot_ok h0 t c nsl s v).

(** The Command [addCommand] builds for a command of a namespace. *)
Definition namespace_command (parent : value) (ns name : string) : obj :=
  new_obj CCommand
    [("parent", parent);
     ("commandName", VStr name);
     ("isChaiAssertion", VBool (String.eqb ns "expect"));
     ("isES6Async", VBool false);
     ("isUserDefined", VBool (isUserDefinedElementCommand name))].

(** The target holds under [ns] an object that holds under [k] a wrapper of
    [fn], whose Command was built since the loop started. *)
Definition ns_registered (h0 : heap) (t : loc) (parent : value)
    (ns k : string) (fn : value) (s : state) : Prop :=
  exists sl w cmd,
    has_field (st_heap s) t ns (VRef sl)
    /\ sl <> t
    /\ has_field (st_heap s) sl k (VRef w)
    /\ cls_of (st_heap s) (VRef w) = Some (CWrapper cmd fn)
    /\ length h0 <= cmd
    /\ st_heap s !! cmd = Some (namespace_command parent ns k).

(** The heap [parseElementSelector] leaves after resolving a reference to the
    declared entry [d] through a provisional Element [e] that came with the
    locate strategy [els]. *)
Definition resolved_with (h : heap) (a d e : loc)
    (els sl ls par pseudo : value) (chain : list value) : heap :=
  let h1 := heap_set h d "pseudoSelector" pseudo in
  let h2 := if nullish els then heap_set h1 e "locateStrategy" ls else h1 in
  let h3 := heap_set h2 e "parent" par in
  let h4 := heap_set h3 e "pseudoSelector" pseudo in
  let h5 := heap_set h4 e "locateStrategy" ls in
  let h6 := heap_set h5 e "selector" sl in
  if isSection h par then
    heap_set0
      ((h6 ++ [new_array (chain ++ [VRef e])])
         ++ [new_element (VRef (length h)) (VStr "recursion")])
      a (VRef (S (length h)))
  else heap_set0 h6 a (VRef e).


(** * More objects for the sample page object

    The sample heap, followed by further argument lists, a Command whose
    flag is set, a page whose [elements] map inherits a name, a scoped
    element API, the context of a call within a command, and a loader result
    with a namespace. *)

Definition sample_more : heap :=
  [ (* 29 *) new_array [VStr "@cancel"];
    (* 30 *) new_array [VStr "xpath"; VStr "@submit"];
    (* 31 *) new_array [VStr "@footer"];
    (* 32 *) new_obj CCommand
               [("parent", VRef 4); ("commandName", VStr "find");
                ("isChaiAssertion", VBool false); ("isES6Async", VBool false);
                ("isUserDefined", VBool false);
                ("onlyLocateSectionsRecursively", VBool true)];
    (* 33 *) mkObj CObject (data_props [("submit", VRef 2)]) []
               [("toString", mkProp (Data (VRef 10)) false)];
    (* 34 *) mkObj CPage
               (data_props [("name", VStr "plain"); ("elements", VRef 33)])
               [] [];
    (* 35 *) new_obj CCommand
               [("parent", VRef 34); ("commandName", VStr "click");
                ("isChaiAssertion", VBool false); ("isES6Async", VBool false);
                ("isUserDefined", VBool false)];
    (* 36 *) new_obj CObject [("element", VRef 37)];
    (* 37 *) mkObj (CFunction false)
               (data_props [("find", VRef 10); ("findAll", VRef 14)]) [] [];
    (* 38 *) new_obj CObject
               [("__needsRecursion", VBool true); ("__element", VRef 6);
                ("client", VRef 11)];
    (* 39 *) new_obj CObject [("assert", VRef 40); ("open", VRef 10)];
    (* 40 *) new_obj CObject [("ok", VRef 10)]
  ].

Definition sample2_heap : heap := sample_heap ++ sample_more.

Definition sample2 : state := mkState sample2_heap [].




(** * Properties *)

#[local] Set Default Proof Using "Type".

(** ** Association lists and single objects *)

Lemma lookup_assign_eq k v ps :
  exists e, lookup_prop k (assign_prop k v ps) = Some (mkProp (Data v) e).
Proof.
  induction ps as [|[k' p] r IH]; simpl.
  - rewrite String.eqb_refl. eauto.
  - destruct (String.eqb k k') eqn:E; simpl; rewrite E; eauto.
Qed.

Lemma lookup_assign_ne k k' v ps :
  k <> k' -> lookup_prop k' (assign_prop k v ps) = lookup_prop k' ps.
Proof.
  intros Hne. induction ps as [|[k0 p] r IH]; simpl.
  - destruct (String.eqb k' k) eqn:E; [|reflexivity].
    apply String.eqb_eq in E. congruence.
  - destruct (String.eqb k k0) eqn:E; simpl.
    + apply String.eqb_eq in E. subst k0.
      destruct (String.eqb k' k) eqn:E'; [|reflexivity].
      apply String.eqb_eq in E'. congruence.
    + rewrite IH. reflexivity.
Qed.

Lemma lookup_define_eq k d ps : lookup_prop k (define_prop k d ps) = Some d.
Proof.
  induction ps as [|[k' p] r IH]; simpl.
  - now rewrite String.eqb_refl.
  - destruct (String.eqb k k') eqn:E; simpl; rewrite E; auto.
Qed.

Lemma lookup_define_ne k k' d ps :
  k <> k' -> lookup_prop k' (define_prop k d ps) = lookup_prop k' ps.
Proof.
  intros Hne. induction ps as [|[k0 p] r IH]; simpl.
  - destruct (String.eqb k' k) eqn:E; [|reflexivity].
    apply String.eqb_eq in E. congruence.
  - destruct (String.eqb k k0) eqn:E; simpl.
    + apply String.eqb_eq in E. subst k0.
      destruct (String.eqb k' k) eqn:E'; [|reflexivity].
      apply String.eqb_eq in E'. congruence.
    + rewrite IH. reflexivity.
Qed.


(** ** Reading back what was written *)

Lemma heap_get_set_eq h l k x :
  l < length h -> heap_get (heap_set h l k x) (VRef l) k = Ret x.
Proof.
  intros Hl. unfold heap_set.
  destruct (lookup_lt_is_Some_2 h l Hl) as [o Ho]. rewrite Ho.
  unfold heap_get. rewrite list_lookup_insert_eq by exact Hl.
  unfold obj_get. simpl.
  destruct (lookup_assign_eq k x (o_props o)) as [e He]. now rewrite He.
Qed.

Lemma heap_set_length h l k x : length (heap_set h l k x) = length h.
Proof.
  unfold heap_set. destruct (h !! l); [apply length_insert | reflexivity].
Qed.

Lemma heap_set_cls h l k x v : cls_of (heap_set h l k x) v = cls_of h v.
Proof.
  destruct v; try reflexivity. unfold heap_set, cls_of.
  destruct (h !! l) as [o|] eqn:Ho; [|reflexivity].
  destruct (decide (l = l0)) as [->|Hne].
  - rewrite list_lookup_insert_eq by (eapply lookup_lt_Some; eauto).
    rewrite Ho. reflexivity.
  - now rewrite list_lookup_insert_ne.
Qed.

Lemma cls_of_app h o v :
  (forall l, v = VRef l -> l < length h) -> cls_of (h ++ [o]) v = cls_of h v.
Proof.
  destruct v; try reflexivity. intros H. simpl.
  now rewrite lookup_app_l by (apply H; reflexivity).
Qed.

(** ** Stepping through monadic code *)

Lemma bind_ret {A B} (a : A) (k : A -> M B) s : bind (ret a) k s = k a s.
Proof. reflexivity. Qed.

Lemma bind_throw {A B} (e : exn) (k : A -> M B) s :
  bind (throw e) k s = (Throw e, s).
Proof. reflexivity. Qed.

Lemma bind_diverge {A B} (k : A -> M B) s :
  bind diverge k s = (Diverge, s).
Proof. reflexivity. Qed.

Lemma bind_bind {A B C} (m : M A) (f : A -> M B) (g : B -> M C) s :
  bind (bind m f) g s = bind m (fun x => bind (f x) g) s.
Proof. unfold bind. destruct (m s) as [[a|e|] s']; reflexivity. Qed.

Lemma bind_get_heap {B} (k : heap -> M B) s :
  bind get_heap k s = k (st_heap s) s.
Proof. reflexivity. Qed.

Lemma bind_put_heap {B} h (k : unit -> M B) s :
  bind (put_heap h) k s = k tt (mkState h (st_calls s)).
Proof. reflexivity. Qed.

Lemma bind_get {B} v key (k : value -> M B) s :
  bind (get v key) k s =
  match heap_get (st_heap s) v key with
  | Ret a => k a s
  | Throw e => (Throw e, s)
  | Diverge => (Diverge, s)
  end.
Proof. unfold bind, get. destruct (heap_get (st_heap s) v key); reflexivity. Qed.

Lemma bind_set {B} l key x (k : unit -> M B) s :
  bind (set (VRef l) key x) k s =
  k tt (mkState (heap_set (st_heap s) l key x) (st_calls s)).
Proof. reflexivity. Qed.

Lemma bind_alloc {B} o (k : loc -> M B) s :
  bind (alloc o) k s =
  k (length (st_heap s)) (mkState (st_heap s ++ [o]) (st_calls s)).
Proof. reflexivity. Qed.

Lemma bind_index {B} l i (k : value -> M B) s :
  bind (index (VRef l) i) k s =
  k (default VUndef (items_of (st_heap s) (VRef l) !! i)) s.
Proof. reflexivity. Qed.

Lemma bind_items {B} v (k : list value -> M B) s :
  bind (items v) k s = k (items_of (st_heap s) v) s.
Proof. reflexivity. Qed.

Lemma truthy_VRef l : truthy (VRef l) = true.
Proof. reflexivity. Qed.

Ltac js_rw :=
  first [ rewrite bind_bind | rewrite bind_ret | rewrite bind_throw
        | rewrite truthy_VRef
        | rewrite bind_diverge | rewrite bind_get_heap | rewrite bind_put_heap
        | rewrite bind_get | rewrite bind_set | rewrite bind_alloc
        | rewrite bind_index | rewrite bind_items ].

Ltac js_step :=
  repeat first [ js_rw | progress cbn [st_heap st_calls fst snd andb orb negb] ].

(** ** C10 *)

(** C10. When the first argument of a selector-bearing call is a string that
    names a valid locate strategy and the second argument is a string as well,
    [getSelectorFromArgs] yields a new descriptor whose [selector] is the
    second argument and whose [locateStrategy] is the first one, not the
    first argument alone. *)
Theorem getSelectorFromArgs_strategy_pair :
  forall (self : value) (a : loc) (s : state) (strat sel : string)
         (rest : list value) (cn : value),
    items_of (st_heap s) (VRef a) = VStr strat :: VStr sel :: rest ->
    heap_get (st_heap s) self "commandName" = Ret cn ->
    isPossibleElementSelector (st_heap s) (VStr strat) (to_str cn) = true ->
    LocateStrategy_isValid (VStr strat) = true ->
    getSelectorFromArgs self (VRef a) s =
      (Ret (VRef (length (st_heap s))),
       mkState (st_heap s ++
                  [new_obj CObject [("selector", VStr sel);
                                    ("locateStrategy", VStr strat)]])
               (st_calls s)).
Proof.
  intros self a s strat sel rest cn Hitems Hcn Hsel Hvalid.
  unfold getSelectorFromArgs. js_step. rewrite Hitems. simpl default.
  js_step. rewrite Hcn. js_step. rewrite Hsel. js_step.
  rewrite Hitems. simpl default. rewrite Hvalid. simpl.
  js_step. reflexivity.
Qed.

(** ** C7 *)

Lemma addCommand_throws target commandFn name parent chai async ov s v :
  heap_get (st_heap s) target name = Ret v ->
  truthy v = true ->
  truthy (or_false ov) = false ->
  addCommand target commandFn name parent chai async ov s
  = (Throw (duplicate_error name), s).
Proof.
  intros Hget Hv Hov. unfold addCommand. js_step.
  rewrite Hget, Hv, Hov. reflexivity.
Qed.

Lemma addCommand_registers target commandFn name parent chai async ov s v :
  heap_get (st_heap s) target name = Ret v ->
  truthy v && negb (truthy (or_false ov)) = false ->
  addCommand target commandFn name parent chai async ov s
  = (Ret (VRef (S (length (st_heap s)))),
     mkState (st_heap s ++
                [new_obj CCommand
                   [("parent", parent);
                    ("commandName", VStr name);
                    ("isChaiAssertion", chai);
                    ("isES6Async", or_false async);
                    ("isUserDefined", VBool (isUserDefinedElementCommand name))];
                 mkObj (CWrapper (length (st_heap s)) commandFn) [] [] []])
             (st_calls s)).
Proof.
  intros Hget Hc.
  unfold addCommand, new_Command, createWrapper. js_step.
  rewrite Hget, Hc. js_step. unfold ret.
  rewrite length_app, <- app_assoc. simpl.
  replace (length (st_heap s) + 1) with (S (length (st_heap s))) by lia.
  reflexivity.
Qed.


(** ** C6 *)


Lemma lookup_prop_In k p ps : lookup_prop k ps = Some p -> In (k, p) ps.
Proof.
  induction ps as [|[k' p'] r IH]; simpl; [discriminate|].
  destruct (String.eqb k k') eqn:E.
  - apply String.eqb_eq in E. intros [= ->]. subst. now left.
  - intros H. right. auto.
Qed.









(** ** What selector resolution leaves alone *)

Lemma frame_refl n a c s : frame n a c s s.
Proof.
  split; [reflexivity|]. split; [lia|].
  intros l o _ Ho. exists o. repeat split; auto.
Qed.

Lemma frame_trans n a c s1 s2 s3 :
  frame n a c s1 s2 -> frame n a c s2 s3 -> frame n a c s1 s3.
Proof.
  intros (Hc1 & Hl1 & H1) (Hc2 & Hl2 & H2).
  split; [congruence|]. split; [lia|].
  intros l o Hl Ho.
  destruct (H1 l o Hl Ho) as (o1 & Ho1 & Hcls1 & Hpr1 & Hit1 & Hps1).
  destruct (H2 l o1 Hl Ho1) as (o2 & Ho2 & Hcls2 & Hpr2 & Hit2 & Hps2).
  exists o2. split; [assumption|].
  split; [congruence|]. split; [congruence|]. split.
  - intros Hne. rewrite Hit2, Hit1 by assumption. reflexivity.
  - intros Hne k Hk. rewrite Hps2, Hps1 by assumption. reflexivity.
Qed.

Lemma framed_ret {A} n a c (x : A) (Q : A -> Prop) :
  Q x -> framed n a c (ret x) Q.
Proof.
  intros HQ s _. simpl. split; [apply frame_refl|]. now intros y [= <-].
Qed.

Lemma framed_throw {A} n a c e (Q : A -> Prop) : framed n a c (throw e) Q.
Proof. intros s _. simpl. split; [apply frame_refl|]. discriminate. Qed.

Lemma framed_diverge {A} n a c (Q : A -> Prop) : framed n a c diverge Q.
Proof. intros s _. simpl. split; [apply frame_refl|]. discriminate. Qed.

Lemma framed_bind {A B} n a c (m : M A) (k : A -> M B) (Q : A -> Prop)
    (R : B -> Prop) :
  framed n a c m Q ->
  (forall x, Q x -> framed n a c (k x) R) ->
  framed n a c (bind m k) R.
Proof.
  intros Hm Hk s Hn. unfold bind.
  destruct (Hm s Hn) as [Hf HQ].
  destruct (m s) as [[x|e|] s1] eqn:E; simpl in *.
  - assert (Hn1 : n <= length (st_heap s1)) by (destruct Hf as (_ & ? & _); lia).
    destruct (Hk x (HQ x eq_refl) s1 Hn1) as [Hf1 HR].
    split; [eapply frame_trans; eauto|exact HR].
  - split; [assumption|discriminate].
  - split; [assumption|discriminate].
Qed.

Lemma framed_weaken {A} n a c (m : M A) (Q R : A -> Prop) :
  framed n a c m Q -> (forall x, Q x -> R x) -> framed n a c m R.
Proof.
  intros Hm HQR s Hn. destruct (Hm s Hn) as [Hf HQ]. split; auto.
Qed.

Lemma framed_pure {A} n a c (m : M A) (Q : A -> Prop) :
  (forall s, snd (m s) = s) ->
  (forall s x, fst (m s) = Ret x -> Q x) ->
  framed n a c m Q.
Proof.
  intros Hs HQ s _. rewrite Hs. split; [apply frame_refl|]. apply HQ.
Qed.

Lemma framed_get n a c v k : framed n a c (get v k) (fun _ => True).
Proof. apply framed_pure; auto. Qed.

Lemma framed_get_heap n a c : framed n a c get_heap (fun _ => True).
Proof. apply framed_pure; auto. Qed.

Lemma framed_index n a c v i : framed n a c (index v i) (fun _ => True).
Proof. apply framed_pure; auto. intros s. unfold index. now destruct v. Qed.

Lemma framed_items n a c v : framed n a c (items v) (fun _ => True).
Proof. apply framed_pure; auto. Qed.

Lemma framed_alloc n a c o : framed n a c (alloc o) (fun l => n <= l).
Proof.
  intros s Hn. unfold alloc. simpl. split.
  - unfold frame. cbn [st_heap st_calls].
    split; [reflexivity|]. split; [rewrite length_app; lia|].
    intros l o0 Hl Ho. exists o0.
    rewrite lookup_app_l by (eapply lookup_lt_Some; eauto).
    repeat split; auto.
  - intros x [= <-]. exact Hn.
Qed.

(** Writing a property of an object: allowed on a fresh object, on the
    Command, and for the property [pseudoSelector]. *)
Lemma framed_set n a c v k x :
  fresh n v \/ v = c \/ k = "pseudoSelector" ->
  framed n a c (set v k x) (fun _ => True).
Proof.
  intros Hv s Hn. destruct v; try (split; [apply frame_refl|auto]).
  simpl. split; [|auto]. unfold frame. cbn [st_heap st_calls].
  split; [reflexivity|].
  split; [rewrite heap_set_length; lia|].
  intros l0 o Hl0 Ho. unfold heap_set.
  destruct (st_heap s !! l) as [ol|] eqn:Hol; [|exists o; repeat split; auto].
  destruct (decide (l = l0)) as [->|Hne].
  - rewrite list_lookup_insert_eq by (eapply lookup_lt_Some; eauto).
    assert (ol = o) by congruence. subst ol.
    eexists. split; [reflexivity|]. simpl. repeat split; auto.
    intros Hc k0 Hk0. destruct Hv as [(l1 & Hv1 & Hl1)|[Hv|Hv]].
    + inversion Hv1; subst. lia.
    + congruence.
    + subst k. now apply lookup_assign_ne.
  - rewrite list_lookup_insert_ne by assumption.
    exists o. repeat split; auto.
Qed.

Lemma framed_args_set0 n a c x : framed n a c (args_set0 a x) (fun _ => True).
Proof.
  intros s Hn. unfold args_set0. destruct a; try (split; [apply frame_refl|auto]).
  unfold set_index0.
  destruct (st_heap s !! l) as [ol|] eqn:Hol; [|split; [apply frame_refl|auto]].
  simpl. split; [|auto]. unfold frame. cbn [st_heap st_calls].
  split; [reflexivity|].
  split; [rewrite length_insert; lia|].
  intros l0 o Hl0 Ho.
  destruct (decide (l = l0)) as [->|Hne].
  - rewrite list_lookup_insert_eq by (eapply lookup_lt_Some; eauto).
    assert (ol = o) by congruence. subst ol.
    eexists. split; [reflexivity|]. simpl. repeat split; auto.
    intros Hc. congruence.
  - rewrite list_lookup_insert_ne by assumption.
    exists o. repeat split; auto.
Qed.

Lemma framed_iter {A} n a c (f : A -> M unit) (l : list A) :
  (forall x, framed n a c (f x) (fun _ => True)) ->
  framed n a c (iter f l) (fun _ => True).
Proof.
  intros Hf. induction l as [|x r IH]; simpl.
  - now apply framed_ret.
  - eapply framed_bind; [apply Hf|]. intros _ _. exact IH.
Qed.

Lemma framed_mapM {A B} n a c (f : A -> M B) (l : list A) :
  (forall x, framed n a c (f x) (fun _ => True)) ->
  framed n a c (mapM f l) (fun _ => True).
Proof.
  intros Hf. induction l as [|x r IH]; simpl.
  - now apply framed_ret.
  - eapply framed_bind; [apply Hf|]. intros y _.
    eapply framed_bind; [apply IH|]. intros ys _. now apply framed_ret.
Qed.

Ltac framed_step :=
  match goal with
  | |- framed _ _ _ (bind (if _ then _ else _) _) _ =>
      eapply framed_bind with (Q := fun _ => True); [|intros ? _]
  | |- framed _ _ _ (bind (match _ with _ => _ end) _) _ =>
      eapply framed_bind with (Q := fun _ => True); [|intros ? _]
  | |- framed _ _ _ (bind _ _) _ => eapply framed_bind; [|intros ? ?]
  | |- framed _ _ _ (ret _) _ => apply framed_ret
  | |- framed _ _ _ (throw _) _ => apply framed_throw
  | |- framed _ _ _ diverge _ => apply framed_diverge
  | |- framed _ _ _ (get _ _) _ => apply framed_get
  | |- framed _ _ _ get_heap _ => apply framed_get_heap
  | |- framed _ _ _ (index _ _) _ => apply framed_index
  | |- framed _ _ _ (items _) _ => apply framed_items
  | |- framed _ _ _ (alloc _) _ => apply framed_alloc
  | |- framed _ _ _ (args_set0 _ _) _ => apply framed_args_set0
  | |- framed _ _ _ (if ?b then _ else _) _ => destruct b eqn:?
  | |- framed _ _ _ (match ?x with _ => _ end) _ => destruct x eqn:?
  end.

Lemma framed_createFromSelector n a c v :
  framed n a c (Element_createFromSelector v) (fresh n).
Proof.
  unfold Element_createFromSelector.
  repeat framed_step; unfold fresh; eauto.
Qed.

Lemma framed_hasElementSelector n a c e :
  framed n a c (hasElementSelector e) (fun _ => True).
Proof. unfold hasElementSelector. repeat framed_step; auto. Qed.

Lemma framed_copyDefaults n a c target source :
  fresh n target ->
  framed n a c (Element_copyDefaults target source) (fun _ => True).
Proof.
  intros Ht. unfold Element_copyDefaults. apply framed_iter. intros k.
  repeat framed_step; auto. apply framed_set. now left.
Qed.

Lemma framed_getRecursiveLookupElement n a c e :
  framed n a c (getRecursiveLookupElement e) (fun _ => True).
Proof. unfold getRecursiveLookupElement. repeat framed_step; auto. Qed.

Lemma framed_has_key n a c v k : framed n a c (has_key v k) (fun _ => True).
Proof. unfold has_key. repeat framed_step; auto. Qed.

Lemma framed_validate n a c self name strategy type :
  framed n a c (validate self name strategy type) (fun _ => True).
Proof.
  unfold validate.
  repeat first [ framed_step | apply framed_has_key | apply framed_mapM; intros ];
    auto.
Qed.

Lemma framed_lookup_by n a c type self name strategy :
  framed n a c (lookup_by type self name strategy) (fun _ => True).
Proof.
  destruct type; simpl; unfold getElement, getSection;
    repeat first [ framed_step | apply framed_validate ]; auto.
Qed.

Lemma framed_getSelectorFromArgs n a c self args :
  framed n a c (getSelectorFromArgs self args) (fun _ => True).
Proof. unfold getSelectorFromArgs. repeat framed_step; auto. Qed.

(** Selector resolution stays within the frame of its argument array and its
    Command. *)
Lemma framed_parseElementSelector n args self :
  framed n args self (parseElementSelector self args) (fun _ => True).
Proof.
  unfold parseElementSelector.
  eapply framed_bind; [apply framed_getSelectorFromArgs|]. intros selector _.
  destruct (negb (truthy selector)); [now apply framed_ret|].
  eapply framed_bind; [apply framed_createFromSelector|].
  intros inputElement Hfresh.
  eapply framed_bind; [apply framed_hasElementSelector|]. intros isRef _.
  destruct isRef.
  - eapply framed_bind; [apply framed_get|]. intros sel _.
    eapply framed_bind; [apply framed_get|]. intros isChai _.
    eapply framed_bind; [apply framed_get|]. intros commandName _.
    eapply framed_bind; [apply framed_get_heap|]. intros h _.
    eapply framed_bind with (Q := fun _ => True).
    { repeat framed_step; auto. }
    intros strategy _.
    eapply framed_bind with (Q := fun _ => True).
    { destruct (truthy isChai && value_eqb commandName (VStr "section")).
      - apply (framed_lookup_by n args self TYPE_SECTION).
      - apply (framed_lookup_by n args self TYPE_ELEMENT). }
    intros elementOrSection _.
    eapply framed_bind; [apply framed_set; now right; right|]. intros _ _.
    eapply framed_bind; [now apply framed_copyDefaults|]. intros _ _.
    eapply framed_bind; [apply framed_get|]. intros ls _.
    eapply framed_bind; [apply framed_set; now left|]. intros _ _.
    eapply framed_bind; [apply framed_get|]. intros sl _.
    eapply framed_bind; [apply framed_set; now left|]. intros _ _.
    eapply framed_bind; [apply framed_getRecursiveLookupElement|]. intros rec _.
    apply framed_args_set0.
  - eapply framed_bind; [apply framed_get|]. intros parent _.
    eapply framed_bind; [apply framed_get_heap|]. intros h _.
    destruct (isSection h parent); [|now apply framed_ret].
    eapply framed_bind; [apply framed_set; now left|]. intros _ _.
    eapply framed_bind; [apply framed_getRecursiveLookupElement|]. intros rec _.
    eapply framed_bind with (Q := fun _ => True).
    { destruct (truthy rec); [now apply framed_ret|].
      eapply framed_bind; [apply framed_alloc|]. intros arr _.
      eapply framed_bind; [apply framed_alloc|]. intros d _.
      eapply framed_weaken; [apply framed_createFromSelector|]. auto. }
    intros resolved _.
    eapply framed_bind; [apply framed_get|]. intros commandName _.
    eapply framed_bind with (Q := fun _ => True).
    { destruct (isScopedElementCommand (to_str commandName));
        [apply framed_set; now right; left|now apply framed_ret]. }
    intros _ _. apply framed_args_set0.
Qed.

(** ** C3 *)

(** C3 (amended). Resolving a selector changes no object that existed
    before, apart from the argument array and the Command, except for a
    property named [pseudoSelector]: class, items, prototype and every other
    property of every declared Element or Section stay as they were. *)
Theorem parseElementSelector_frame :
  forall (self args : value) (s : state) (l : loc) (o : obj),
    st_heap s !! l = Some o ->
    VRef l <> self ->
    VRef l <> args ->
    exists o',
      st_heap (snd (parseElementSelector self args s)) !! l = Some o'
      /\ o_cls o' = o_cls o
      /\ o_items o' = o_items o
      /\ o_proto o' = o_proto o
      /\ forall k, k <> "pseudoSelector" ->
                   lookup_prop k (o_props o') = lookup_prop k (o_props o).
Proof.
  intros self args s l o Ho Hself Hargs.
  destruct (framed_parseElementSelector (length (st_heap s)) args self s
              (le_n _)) as [(_ & _ & Hframe) _].
  destruct (Hframe l o (lookup_lt_Some _ _ _ Ho) Ho)
    as (o' & Ho' & Hcls & Hproto & Hitems & Hprops).
  exists o'. repeat split; auto.
Qed.

(** ** C8 *)

Lemma executeCommand_unfold self fn a context s :
  executeCommand self fn (VRef a) context s
  = bind (parseElementSelector self (parse_args (st_heap s) (VRef a)))
         (fun _ => bind (items (VRef a)) (fun argv => call_fn fn context argv)) s.
Proof.
  unfold executeCommand, parse_args. js_step.
  destruct (isObject (st_heap s) (default VUndef (items_of (st_heap s) (VRef a) !! 0)))
    eqn:Hobj; js_step; [|reflexivity].
  destruct (heap_get (st_heap s) (default VUndef (items_of (st_heap s) (VRef a) !! 0)) "args")
    as [inner|e|] eqn:Hinner.
  - js_step. reflexivity.
  - exfalso. unfold isObject in Hobj.
    destruct (default VUndef (items_of (st_heap s) (VRef a) !! 0));
      simpl in *; try discriminate.
    destruct (st_heap s !! l); discriminate.
  - exfalso. unfold isObject in Hobj.
    destruct (default VUndef (items_of (st_heap s) (VRef a) !! 0));
      simpl in *; try discriminate.
    destruct (st_heap s !! l); discriminate.
Qed.

(** C8. [executeCommand] first resolves the selector, on [args[0].args] when
    that is an array and on the argument list otherwise.  If resolution
    throws (or does not return), so does [executeCommand], and no function
    has been called.  If it returns, the wrapped function is called exactly
    once, with the given context and the items of the outer argument list;
    under the structured convention those items are the original ones. *)
Theorem executeCommand_dispatch :
  forall (self fn context : value) (a : loc) (s : state),
    let parseArgs := parse_args (st_heap s) (VRef a) in
    let resolved := parseElementSelector self parseArgs s in
    st_calls (snd resolved) = st_calls s
    /\ (forall e, fst resolved = Throw e ->
          executeCommand self fn (VRef a) context s = (Throw e, snd resolved))
    /\ (fst resolved = Diverge ->
          executeCommand self fn (VRef a) context s = (Diverge, snd resolved))
    /\ (fst resolved = Ret tt ->
          executeCommand self fn (VRef a) context s
          = call_fn fn context (items_of (st_heap (snd resolved)) (VRef a))
              (snd resolved)
          /\ (isFunction (st_heap (snd resolved)) fn = true ->
              st_calls (snd (executeCommand self fn (VRef a) context s))
              = st_calls s
                ++ [mkCall fn context
                      (items_of (st_heap (snd resolved)) (VRef a))]))
    /\ (parseArgs <> VRef a -> a < length (st_heap s) ->
          items_of (st_heap (snd resolved)) (VRef a)
          = items_of (st_heap s) (VRef a)).
Proof.
  intros self fn context a s parseArgs resolved.
  destruct (framed_parseElementSelector (length (st_heap s)) parseArgs self s
              (le_n _)) as [(Hcalls & _ & Hframe) _].
  fold resolved in Hcalls, Hframe.
  split; [exact Hcalls|].
  pose proof (executeCommand_unfold self fn a context s) as Hex.
  fold parseArgs in Hex. unfold bind at 1 in Hex. fold resolved in Hex.
  destruct resolved as [[[]|e|] s1] eqn:Hres; simpl fst in *; simpl snd in *.
  - split; [discriminate|]. split; [discriminate|]. split.
    + intros _. rewrite Hex. js_step. split; [reflexivity|].
      intros Hfn. unfold call_fn. destruct fn; try discriminate.
      rewrite Hfn. destruct (ext l context _ (st_heap s1)) as [r h'].
      simpl. now rewrite Hcalls.
    + intros Hne Ha.
      destruct (lookup_lt_is_Some_2 _ _ Ha) as [o Ho].
      destruct (Hframe a o Ha Ho) as (o' & Ho' & _ & _ & Hitems & _).
      unfold items_of. rewrite Ho, Ho'. apply Hitems. congruence.
  - split; [intros e' [= <-]; exact Hex|].
    split; [discriminate|]. split; [discriminate|].
    intros Hne Ha.
    destruct (lookup_lt_is_Some_2 _ _ Ha) as [o Ho].
    destruct (Hframe a o Ha Ho) as (o' & Ho' & _ & _ & Hitems & _).
    unfold items_of. rewrite Ho, Ho'. apply Hitems. congruence.
  - split; [discriminate|]. split; [intros _; exact Hex|].
    split; [discriminate|].
    intros Hne Ha.
    destruct (lookup_lt_is_Some_2 _ _ Ha) as [o Ho].
    destruct (Hframe a o Ha Ho) as (o' & Ho' & _ & _ & Hitems & _).
    unfold items_of. rewrite Ho, Ho'. apply Hitems. congruence.
Qed.

(** ** C1 *)

Lemma bind_inv {A B} (m : M A) (k : A -> M B) s y s' :
  bind m k s = (Ret y, s') ->
  exists x s1, m s = (Ret x, s1) /\ k x s1 = (Ret y, s').
Proof.
  unfold bind. destruct (m s) as [[x|e|] s1]; try discriminate. eauto.
Qed.

Lemma only_props_at_refl r s : only_props_at r s s.
Proof. repeat split; auto. intros o Ho. exists o. auto. Qed.

Lemma only_props_at_trans r s1 s2 s3 :
  only_props_at r s1 s2 -> only_props_at r s2 s3 -> only_props_at r s1 s3.
Proof.
  intros (Hc1 & Hl1 & Ho1 & Hr1) (Hc2 & Hl2 & Ho2 & Hr2).
  split; [congruence|]. split; [congruence|]. split.
  - intros l Hl. rewrite Ho2, Ho1 by assumption. reflexivity.
  - intros o Ho. destruct (Hr1 o Ho) as (o1 & Ho1' & ? & ? & ?).
    destruct (Hr2 o1 Ho1') as (o2 & Ho2' & ? & ? & ?).
    exists o2. repeat split; congruence.
Qed.

Lemma only_props_at_set r k x s :
  only_props_at r s (mkState (heap_set (st_heap s) r k x) (st_calls s)).
Proof.
  unfold only_props_at, heap_set. cbn [st_heap st_calls].
  destruct (st_heap s !! r) as [o|] eqn:Ho.
  - split; [reflexivity|]. split; [apply length_insert|]. split.
    + intros l Hl. now rewrite list_lookup_insert_ne by congruence.
    + intros o0 [= <-].
      rewrite list_lookup_insert_eq by (eapply lookup_lt_Some; eauto).
      eexists. split; [reflexivity|]. auto.
  - repeat split; auto. intros o0 Ho0. discriminate.
Qed.

Lemma heap_get_total h v k :
  nullish v = false -> heap_get h v k = Ret (read h v k).
Proof.
  intros Hv. unfold read. destruct v; try discriminate; simpl; try reflexivity.
  destruct (h !! l); reflexivity.
Qed.

Lemma Object_assign_loop r source ks s :
  nullish source = false ->
  exists s',
    iter (fun k => let* v := get source k in set (VRef r) k v) ks s = (Ret tt, s')
    /\ only_props_at r s s'.
Proof.
  intros Hsrc. revert s. induction ks as [|k ks IH]; intros s; simpl.
  - exists s. split; [reflexivity|apply only_props_at_refl].
  - js_step. rewrite (heap_get_total _ _ _ Hsrc). js_step.
    destruct (IH (mkState (heap_set (st_heap s) r k
                             (read (st_heap s) source k)) (st_calls s)))
      as (s' & Hrun & Honly).
    exists s'. split; [exact Hrun|].
    eapply only_props_at_trans; [apply only_props_at_set|exact Honly].
Qed.

Lemma with_props_id o : with_props o (o_props o) = o.
Proof. now destruct o. Qed.

Lemma define_loop r proto names s o :
  st_heap s !! r = Some o ->
  iter (fun propertyName =>
          if String.eqb propertyName "constructor" then ret tt
          else
            match lookup_prop propertyName proto with
            | Some d => Object_defineProperty (VRef r) propertyName d
            | None => ret tt
            end)
       names s
  = (Ret tt,
     mkState (<[r := with_props o (define_all proto names (o_props o))]> (st_heap s))
             (st_calls s)).
Proof.
  revert s o. induction names as [|k names IH]; intros s o Ho; simpl.
  - rewrite with_props_id, list_insert_id by assumption. now destruct s.
  - assert (Hr : r < length (st_heap s)) by (eapply lookup_lt_Some; eauto).
    destruct (String.eqb k "constructor").
    + js_step. now apply IH.
    + destruct (lookup_prop k proto) as [d|].
      * unfold bind at 1. simpl. rewrite Ho.
        erewrite IH; cbn [st_heap st_calls].
        2:{ now apply list_lookup_insert_eq. }
        rewrite list_insert_insert_eq. reflexivity.
      * js_step. now apply IH.
Qed.

Lemma define_all_lookup proto names ps k d :
  lookup_prop k proto = Some d ->
  k <> "constructor" ->
  In k names \/ lookup_prop k ps = Some d ->
  lookup_prop k (define_all proto names ps) = Some d.
Proof.
  intros Hk Hc. revert ps. induction names as [|k' names IH]; intros ps H; simpl.
  - destruct H as [[]|H]. exact H.
  - apply IH.
    destruct (string_dec k' k) as [->|Hne].
    + right. destruct (String.eqb k "constructor") eqn:E.
      * apply String.eqb_eq in E. contradiction.
      * rewrite Hk. apply lookup_define_eq.
    + destruct H as [[H|H]|H]; [contradiction|now left|].
      right. destruct (String.eqb k' "constructor"); [exact H|].
      destruct (lookup_prop k' proto); [|exact H].
      now rewrite lookup_define_ne.
Qed.

(** What [augment] does to a promise [r]: the result holds every property of
    the parent's prototype but [constructor]; nothing else in the heap
    changes, and no function is called. *)
Lemma augment_spec r parent s o :
  nullish parent = false ->
  st_heap s !! r = Some o ->
  exists s' o',
    augment (VRef r) parent s = (Ret tt, s')
    /\ st_calls s' = st_calls s
    /\ length (st_heap s') = length (st_heap s)
    /\ (forall l, l <> r -> st_heap s' !! l = st_heap s !! l)
    /\ st_heap s' !! r = Some o'
    /\ o_cls o' = o_cls o /\ o_items o' = o_items o /\ o_proto o' = o_proto o
    /\ (forall k d, k <> "constructor" ->
          lookup_prop k (proto_props (st_heap s) parent) = Some d ->
          lookup_prop k (o_props o') = Some d).
Proof.
  intros Hp Ho. unfold augment, Object_assign. js_step.
  destruct (Object_assign_loop r parent
              (own_keys (own_props (st_heap s) parent)) s Hp)
    as (s1 & Hrun & Hc1 & Hl1 & Ho1 & Hr1).
  unfold bind at 1. rewrite Hrun. js_step.
  destruct (Hr1 o Ho) as (o1 & Hor1 & Hcls1 & Hit1 & Hpr1).
  assert (Hproto : proto_props (st_heap s1) parent
                   = proto_props (st_heap s) parent).
  { destruct parent; try reflexivity. simpl.
    destruct (decide (l = r)) as [->|Hne].
    - now rewrite Hor1, Ho.
    - now rewrite Ho1. }
  rewrite (define_loop r _ _ s1 o1 Hor1).
  assert (Hr : r < length (st_heap s1)) by (eapply lookup_lt_Some; eauto).
  eexists. eexists. split; [reflexivity|]. cbn [st_heap st_calls].
  split; [exact Hc1|]. split; [now rewrite length_insert|]. split.
  { intros l Hl. rewrite list_lookup_insert_ne by congruence. now apply Ho1. }
  split; [now apply list_lookup_insert_eq|]. simpl.
  split; [exact Hcls1|]. split; [exact Hit1|]. split; [exact Hpr1|].
  intros k d Hk Hd. rewrite Hproto. apply define_all_lookup; auto.
  left. apply lookup_prop_In in Hd. now apply (in_map fst) in Hd.
Qed.

Lemma wrapper_invoke_client self commandFn this argv s result client s1 :
  wrapper_invoke self commandFn this argv s = (Ret (result, client), s1) ->
  nullish client = false.
Proof.
  unfold wrapper_invoke. intros H.
  apply bind_inv in H as (a & sa & _ & H).
  apply bind_inv in H as (needs & sn & _ & H).
  apply bind_inv in H as (u & su & _ & H).
  apply bind_inv in H as (c1 & sc1 & _ & H).
  apply bind_inv in H as (cl & scl & Hcl & H).
  apply bind_inv in H as (res & sres & _ & H).
  inversion H; subst. clear H.
  assert (Ht : forall v, truthy v = true -> nullish v = false)
    by (intros []; simpl; congruence).
  destruct (truthy c1) eqn:Hc1.
  - inversion Hcl; subst. auto.
  - apply bind_inv in Hcl as (p & sp & _ & Hcl).
    apply bind_inv in Hcl as (c2 & sc2 & _ & Hcl).
    destruct (truthy c2) eqn:Hc2.
    + inversion Hcl; subst. auto.
    + apply bind_inv in Hcl as (e & se & _ & Hcl). inversion Hcl. reflexivity.
Qed.

Lemma wrapper_return_unfold self result client s1 :
  nullish client = false ->
  wrapper_return (VRef self) result client s1
  = if truthy (read (st_heap s1) (VRef self) "isChaiAssertion")
    then (Ret result, s1)
    else if isPromise (st_heap s1) result then
      bind (isPageCtor (read (st_heap s1) (VRef self) "parent"))
           (fun page =>
              if page || truthy (read (st_heap s1) client "isES6AsyncTestcase")
              then bind (augment result (read (st_heap s1) (VRef self) "parent"))
                        (fun _ => ret result)
              else ret (read (st_heap s1) (VRef self) "parent")) s1
    else (Ret (read (st_heap s1) (VRef self) "parent"), s1).
Proof.
  intros Hclient. unfold wrapper_return. js_step.
  rewrite (heap_get_total _ (VRef self) "isChaiAssertion" eq_refl).
  destruct (truthy (read (st_heap s1) (VRef self) "isChaiAssertion"));
    [reflexivity|].
  js_step.
  rewrite (heap_get_total _ client "isES6AsyncTestcase" Hclient). js_step.
  rewrite (heap_get_total _ (VRef self) "parent" eq_refl). js_step.
  destruct (isPromise (st_heap s1) result); reflexivity.
Qed.

(** C1. Once the wrapped command has produced a result: a chai assertion's
    wrapper returns that result as it is; otherwise, when the result is a
    promise and the parent is a Page or the client runs an ES6 async testcase,
    the wrapper returns the same promise, which still has its class and
    resolution, now holds every own property of the parent's prototype except
    [constructor], while no other object has changed; in every other case
    the wrapper returns the parent. *)
Theorem createWrapper_return :
  forall (self : loc) (commandFn this : value) (argv : list value)
         (s s1 : state) (result client : value),
    wrapper_invoke (VRef self) commandFn this argv s = (Ret (result, client), s1) ->
    let h1 := st_heap s1 in
    let chai := read h1 (VRef self) "isChaiAssertion" in
    let parent := read h1 (VRef self) "parent" in
    let es6 := read h1 client "isES6AsyncTestcase" in
    nullish parent = false ->
    (truthy chai = true ->
       call_wrapper (VRef self) commandFn this argv s = (Ret result, s1))
    /\ (truthy chai = false ->
        isPromise h1 result = true ->
        cls_of h1 parent = Some CPage \/ truthy es6 = true ->
        exists s2,
          call_wrapper (VRef self) commandFn this argv s = (Ret result, s2)
          /\ st_calls s2 = st_calls s1
          /\ (forall l, VRef l <> result -> st_heap s2 !! l = h1 !! l)
          /\ cls_of (st_heap s2) result = cls_of h1 result
          /\ (forall k d,
                k <> "constructor" ->
                lookup_prop k (proto_props h1 parent) = Some d ->
                lookup_prop k (own_props (st_heap s2) result) = Some d))
    /\ (truthy chai = false ->
        isPromise h1 result = false
        \/ (cls_of h1 parent <> Some CPage /\ truthy es6 = false) ->
        call_wrapper (VRef self) commandFn this argv s = (Ret parent, s1)).
Proof.
  intros self commandFn this argv s s1 result client Hinv h1 chai parent es6 Hp.
  pose proof (wrapper_invoke_client _ _ _ _ _ _ _ _ Hinv) as Hclient.
  assert (Hcall : call_wrapper (VRef self) commandFn this argv s
                  = wrapper_return (VRef self) result client s1).
  { unfold call_wrapper, bind. now rewrite Hinv. }
  rewrite Hcall, (wrapper_return_unfold _ _ _ _ Hclient).
  fold h1. fold chai. fold parent. fold es6.
  split; [intros Hchai; now rewrite Hchai|].
  split.
  - intros Hchai Hprom Hpage. rewrite Hchai, Hprom.
    assert (Hcond : isPageCtor parent s1
                    = (Ret (match cls_of h1 parent with
                            | Some CPage => true
                            | _ => false
                            end), s1)).
    { unfold isPageCtor. destruct parent; try discriminate; reflexivity. }
    unfold bind at 1. rewrite Hcond.
    assert (Hor : (match cls_of h1 parent with
                   | Some CPage => true
                   | _ => false
                   end) || truthy es6 = true).
    { destruct Hpage as [-> | ->]; [reflexivity|apply orb_true_r]. }
    rewrite Hor.
    destruct result as [| | | | |r]; try discriminate.
    destruct (h1 !! r) as [o|] eqn:Ho.
    2:{ unfold isPromise, cls_of in Hprom. fold h1 in Hprom.
        rewrite Ho in Hprom. discriminate. }
    destruct (augment_spec r parent s1 o Hp Ho)
      as (s2 & o' & Hrun & Hcalls & Hlen & Hother & Hr & Hcls & Hit & Hpr & Hprops).
    exists s2. unfold bind. rewrite Hrun. split; [reflexivity|].
    split; [exact Hcalls|]. split.
    { intros l Hl. apply Hother. congruence. }
    split.
    { unfold cls_of. fold h1. rewrite Hr, Ho. simpl. congruence. }
    intros k d Hk Hd. unfold own_props. rewrite Hr. eapply Hprops; eauto.
  - intros Hchai Hcase. rewrite Hchai.
    destruct Hcase as [Hprom|[Hpage Hes6]].
    + rewrite Hprom. reflexivity.
    + destruct (isPromise h1 result); [|reflexivity].
      assert (Hcond : isPageCtor parent s1 = (Ret false, s1)).
      { unfold isPageCtor. destruct parent; try discriminate; try reflexivity.
        js_step. fold h1. unfold ret.
        destruct (cls_of h1 (VRef l)) as [[]|]; try reflexivity.
        contradiction. }
      unfold bind at 1. rewrite Hcond, Hes6. reflexivity.
Qed.

(** ** Tracking data properties through heap updates *)

Lemma has_field_get h l k v : has_field h l k v -> heap_get h (VRef l) k = Ret v.
Proof.
  intros (o & e & Ho & Hk). unfold heap_get, obj_get. now rewrite Ho, Hk.
Qed.

Lemma has_field_lt h l k v : has_field h l k v -> l < length h.
Proof. intros (o & e & Ho & _). eapply lookup_lt_Some; eauto. Qed.

Lemma has_field_app h o l k v : has_field h l k v -> has_field (h ++ [o]) l k v.
Proof.
  intros (o0 & e & Ho & Hk). exists o0, e. split; [|exact Hk].
  rewrite lookup_app_l by (eapply lookup_lt_Some; eauto). exact Ho.
Qed.

Lemma has_field_new h o k v e :
  lookup_prop k (o_props o) = Some (mkProp (Data v) e) ->
  has_field (h ++ [o]) (length h) k v.
Proof.
  intros Hk. exists o, e. split; [|exact Hk].
  rewrite lookup_app_r by lia. now rewrite Nat.sub_diag.
Qed.

Lemma has_field_set_same h l k x : l < length h -> has_field (heap_set h l k x) l k x.
Proof.
  intros Hl. unfold heap_set.
  destruct (lookup_lt_is_Some_2 h l Hl) as [o Ho]. rewrite Ho.
  destruct (lookup_assign_eq k x (o_props o)) as [e He].
  eexists. exists e. split; [now apply list_lookup_insert_eq|]. exact He.
Qed.

Lemma has_field_set_other h l k x l' k' v :
  has_field h l' k' v -> l' <> l \/ k' <> k ->
  has_field (heap_set h l k x) l' k' v.
Proof.
  intros (o & e & Ho & Hk) Hne. unfold heap_set.
  destruct (h !! l) as [ol|] eqn:Hol; [|exists o, e; auto].
  destruct (decide (l = l')) as [->|Hl].
  - assert (ol = o) by congruence. subst ol.
    eexists. exists e.
    split; [apply list_lookup_insert_eq; eapply lookup_lt_Some; eauto|].
    simpl. rewrite lookup_assign_ne; [exact Hk|].
    destruct Hne as [Hne|Hne]; congruence.
  - exists o, e. split; [|exact Hk]. now rewrite list_lookup_insert_ne.
Qed.

Lemma has_field_set0 h a x l k v :
  has_field h l k v -> has_field (heap_set0 h a x) l k v.
Proof.
  intros (o & e & Ho & Hk). unfold heap_set0.
  destruct (h !! a) as [oa|] eqn:Hoa; [|exists o, e; auto].
  destruct (decide (a = l)) as [->|Hl].
  - assert (oa = o) by congruence. subst oa.
    eexists. exists e.
    split; [apply list_lookup_insert_eq; eapply lookup_lt_Some; eauto|].
    exact Hk.
  - exists o, e. split; [|exact Hk]. now rewrite list_lookup_insert_ne.
Qed.

Lemma lacks_get h l k : lacks h l k -> heap_get h (VRef l) k = Ret VUndef.
Proof.
  intros (o & Ho & Hk & Hp). unfold heap_get, obj_get. now rewrite Ho, Hk, Hp.
Qed.

Lemma lacks_new h o k :
  lookup_prop k (o_props o) = None -> lookup_prop k (o_proto o) = None ->
  lacks (h ++ [o]) (length h) k.
Proof.
  intros Hk Hp. exists o. split; [|auto].
  rewrite lookup_app_r by lia. now rewrite Nat.sub_diag.
Qed.

Lemma lacks_set_other h l k x l' k' :
  lacks h l' k' -> l' <> l \/ k' <> k -> lacks (heap_set h l k x) l' k'.
Proof.
  intros (o & Ho & Hk & Hp) Hne. unfold heap_set.
  destruct (h !! l) as [ol|] eqn:Hol; [|exists o; auto].
  destruct (decide (l = l')) as [->|Hl].
  - assert (ol = o) by congruence. subst ol.
    eexists.
    split; [apply list_lookup_insert_eq; eapply lookup_lt_Some; eauto|].
    simpl. split; [|exact Hp]. rewrite lookup_assign_ne; [exact Hk|].
    destruct Hne as [Hne|Hne]; congruence.
  - exists o. split; [|auto]. now rewrite list_lookup_insert_ne.
Qed.

Lemma items_of_heap_set h l k x v : items_of (heap_set h l k x) v = items_of h v.
Proof.
  destruct v; try reflexivity. unfold heap_set, items_of.
  destruct (h !! l) as [o|] eqn:Ho; [|reflexivity].
  destruct (decide (l = l0)) as [->|Hne].
  - rewrite list_lookup_insert_eq by (eapply lookup_lt_Some; eauto).
    now rewrite Ho.
  - now rewrite list_lookup_insert_ne.
Qed.

Lemma items_of_app h o l : l < length h -> items_of (h ++ [o]) (VRef l) = items_of h (VRef l).
Proof. intros Hl. unfold items_of. now rewrite lookup_app_l. Qed.

Lemma items_of_new h o : items_of (h ++ [o]) (VRef (length h)) = o_items o.
Proof.
  unfold items_of. rewrite lookup_app_r by lia. now rewrite Nat.sub_diag.
Qed.

Lemma items_of_set0_same h a x :
  a < length h ->
  items_of (heap_set0 h a x) (VRef a) = x :: tl (items_of h (VRef a)).
Proof.
  intros Ha. unfold heap_set0, items_of.
  destruct (lookup_lt_is_Some_2 h a Ha) as [o Ho]. rewrite Ho.
  rewrite list_lookup_insert_eq by exact Ha. simpl.
  now destruct (o_items o).
Qed.

Lemma items_of_set0_other h a x l :
  l <> a -> items_of (heap_set0 h a x) (VRef l) = items_of h (VRef l).
Proof.
  intros Hl. unfold heap_set0, items_of.
  destruct (h !! a) as [o|]; [|reflexivity].
  now rewrite list_lookup_insert_ne by congruence.
Qed.

Lemma heap_set0_length h a x : length (heap_set0 h a x) = length h.
Proof.
  unfold heap_set0. destruct (h !! a); [apply length_insert|reflexivity].
Qed.

Lemma heap_set0_cls h a x v : cls_of (heap_set0 h a x) v = cls_of h v.
Proof.
  destruct v; try reflexivity. unfold heap_set0, cls_of.
  destruct (h !! a) as [o|] eqn:Ho; [|reflexivity].
  destruct (decide (a = l)) as [->|Hne].
  - rewrite list_lookup_insert_eq by (eapply lookup_lt_Some; eauto).
    rewrite Ho. reflexivity.
  - now rewrite list_lookup_insert_ne.
Qed.

Lemma bind_args_set0 {B} a x (k : unit -> M B) s :
  bind (args_set0 (VRef a) x) k s
  = k tt (mkState (heap_set0 (st_heap s) a x) (st_calls s)).
Proof.
  unfold bind, args_set0, set_index0, heap_set0.
  destruct (st_heap s !! a); [reflexivity|]. now destruct s.
Qed.

Lemma args_set0_run a x s :
  args_set0 (VRef a) x s
  = (Ret tt, mkState (heap_set0 (st_heap s) a x) (st_calls s)).
Proof.
  unfold args_set0, set_index0, heap_set0.
  destruct (st_heap s !! a); [reflexivity|]. now destruct s.
Qed.

Lemma cls_of_new h o : cls_of (h ++ [o]) (VRef (length h)) = Some (o_cls o).
Proof.
  unfold cls_of. rewrite lookup_app_r by lia. now rewrite Nat.sub_diag.
Qed.

Lemma cls_of_app_lt h o l : l < length h -> cls_of (h ++ [o]) (VRef l) = cls_of h (VRef l).
Proof. intros Hl. unfold cls_of. now rewrite lookup_app_l. Qed.

Lemma isSection_heap_set h l k x v : isSection (heap_set h l k x) v = isSection h v.
Proof. unfold isSection. now rewrite heap_set_cls. Qed.

Lemma isSection_app h o v :
  (forall q, v = VRef q -> q < length h) -> isSection (h ++ [o]) v = isSection h v.
Proof. intros H. unfold isSection. now rewrite cls_of_app. Qed.

(** ** Ancestor chains *)

Lemma ancestry_lt h s chain : ancestry h s chain -> s < length h.
Proof. intros H. destruct H as [s p Hf|s p chain Hf]; eapply has_field_lt; eauto. Qed.

Lemma ancestry_last h s chain :
  ancestry h s chain -> exists pre, chain = pre ++ [VRef s].
Proof. intros [s0 p|s0 p c]; [exists []|exists c]; reflexivity. Qed.

Lemma ancestry_app h o s chain : ancestry h s chain -> ancestry (h ++ [o]) s chain.
Proof.
  induction 1 as [s p Hf Hsec Hp|s p chain Hf Hsec Hlt Hanc IH].
  - apply (ancestry_top _ s p).
    + now apply has_field_app.
    + now rewrite isSection_app.
    + intros q Hq. rewrite length_app. specialize (Hp q Hq). lia.
  - eapply ancestry_nested; eauto.
    + now apply has_field_app.
    + rewrite isSection_app; [exact Hsec|].
      intros q [= <-]. eapply ancestry_lt; eauto.
Qed.

Lemma ancestry_heap_set h l k x s chain :
  ancestry h s chain -> k <> "parent" \/ s < l ->
  ancestry (heap_set h l k x) s chain.
Proof.
  induction 1 as [s p Hf Hsec Hp|s p chain Hf Hsec Hlt Hanc IH]; intros Hne.
  - apply (ancestry_top _ s p).
    + apply has_field_set_other; [exact Hf|].
      destruct Hne; [right; congruence|left; lia].
    + now rewrite isSection_heap_set.
    + intros q Hq. rewrite heap_set_length. auto.
  - eapply ancestry_nested; eauto.
    + apply has_field_set_other; [exact Hf|].
      destruct Hne; [right; congruence|left; lia].
    + now rewrite isSection_heap_set.
    + apply IH. destruct Hne; [now left|right; lia].
Qed.

Lemma section_chain_S f h s :
  section_chain (S f) h s
  = match heap_get h s "parent" with
    | Ret p =>
        if isSection h p then (fun c => c ++ [s]) <$> section_chain f h p
        else Some [s]
    | _ => Some [s]
    end.
Proof. reflexivity. Qed.

Lemma ancestry_chain h s chain fuel :
  ancestry h s chain -> s < fuel -> section_chain fuel h (VRef s) = Some chain.
Proof.
  intros H. revert fuel.
  induction H as [s p Hf Hsec Hp|s p chain Hf Hsec Hlt Hanc IH]; intros fuel Hfuel.
  - destruct fuel; [lia|]. rewrite section_chain_S.
    rewrite (has_field_get _ _ _ _ Hf), Hsec. reflexivity.
  - destruct fuel; [lia|]. rewrite section_chain_S.
    rewrite (has_field_get _ _ _ _ Hf), Hsec.
    rewrite IH by lia. reflexivity.
Qed.

(** ** Selector resolution, branch by branch *)

Lemma parseElementSelector_unfold self args :
  parseElementSelector self args
  = (let* selector := getSelectorFromArgs self args in
     if negb (truthy selector) then ret tt
     else
       let* inputElement := Element_createFromSelector selector in
       let* isRef := hasElementSelector inputElement in
       if isRef then reference_branch self args selector inputElement
       else literal_branch self args inputElement).
Proof. reflexivity. Qed.

Lemma getSelectorFromArgs_plain c a s cn v rest :
  has_field (st_heap s) c "commandName" (VStr cn) ->
  items_of (st_heap s) (VRef a) = v :: rest ->
  isPossibleElementSelector (st_heap s) v cn = true ->
  LocateStrategy_isValid v && isString (default VUndef (rest !! 0)) = false ->
  getSelectorFromArgs (VRef c) (VRef a) s = (Ret v, s).
Proof.
  intros Hcn Hitems Hsel Hpair. unfold getSelectorFromArgs. js_step.
  rewrite Hitems. simpl default.
  rewrite (has_field_get _ _ _ _ Hcn). js_step.
  change (to_str (VStr cn)) with cn. rewrite Hsel. js_step. rewrite Hitems.
  change ((v :: rest) !! 1) with (rest !! 0). rewrite Hpair. reflexivity.
Qed.

Lemma createFromSelector_string str s :
  Element_createFromSelector (VStr str) s
  = (Ret (VRef (length (st_heap s))),
     mkState (st_heap s ++ [new_element (VStr str) VNull]) (st_calls s)).
Proof. reflexivity. Qed.

Lemma literal_branch_run c a sp e s cn chain :
  has_field (st_heap s) c "commandName" (VStr cn) ->
  has_field (st_heap s) c "parent" (VRef sp) ->
  isSection (st_heap s) (VRef sp) = true ->
  ancestry (st_heap s) sp chain ->
  sp < e -> e < length (st_heap s) ->
  literal_branch (VRef c) (VRef a) (VRef e) s
  = (Ret tt,
     mkState
       (heap_set0
          (let h3 :=
             (heap_set (st_heap s) e "parent" (VRef sp)
                ++ [new_array (chain ++ [VRef e])])
             ++ [new_element (VRef (length (st_heap s))) (VStr "recursion")] in
           if isScopedElementCommand cn
           then heap_set h3 c "onlyLocateSectionsRecursively" (VBool true)
           else h3)
          a (VRef (S (length (st_heap s)))))
       (st_calls s)).
Proof.
  intros Hcn Hpar Hsec Hanc Hlt He.
  unfold literal_branch. js_step.
  rewrite (has_field_get _ _ _ _ Hpar). js_step. rewrite Hsec. js_step.
  unfold getRecursiveLookupElement. js_step.
  rewrite (has_field_get _ e "parent" (VRef sp))
    by (now apply has_field_set_same).
  js_step. rewrite isSection_heap_set, Hsec.
  rewrite (ancestry_chain _ sp chain).
  2:{ apply ancestry_heap_set; [exact Hanc|now right]. }
  2:{ rewrite heap_set_length. lia. }
  js_step.
  rewrite (has_field_get _ c "commandName" (VStr cn)).
  2:{ do 2 apply has_field_app. apply has_field_set_other; [exact Hcn|].
      right. discriminate. }
  js_step. change (to_str (VStr cn)) with cn.
  rewrite length_app, heap_set_length. simpl length.
  replace (length (st_heap s) + 1) with (S (length (st_heap s))) by lia.
  destruct (isScopedElementCommand cn); js_step;
    rewrite args_set0_run; reflexivity.
Qed.

Lemma has_field_new_at h o l k v e :
  l = length h ->
  lookup_prop k (o_props o) = Some (mkProp (Data v) e) ->
  has_field (h ++ [o]) l k v.
Proof. intros ->. apply has_field_new. Qed.

Lemma cls_of_new_at h o l : l = length h -> cls_of (h ++ [o]) (VRef l) = Some (o_cls o).
Proof. intros ->. apply cls_of_new. Qed.

Lemma items_of_new_at h o l : l = length h -> items_of (h ++ [o]) (VRef l) = o_items o.
Proof. intros ->. apply items_of_new. Qed.

Lemma items_of_lt h l x r : items_of h (VRef l) = x :: r -> l < length h.
Proof.
  unfold items_of. destruct (h !! l) eqn:Ho; [|discriminate].
  intros _. eapply lookup_lt_Some; eauto.
Qed.

Ltac len_solve :=
  repeat rewrite ?length_app, ?heap_set_length, ?heap_set0_length in *;
  simpl length in *; lia.

Ltac ne_solve :=
  first [ left; len_solve | right; discriminate | right; congruence ].

Ltac field_solve :=
  lazymatch goal with
  | |- has_field (heap_set0 _ _ _) _ _ _ => apply has_field_set0; field_solve
  | |- has_field (heap_set _ ?l ?k _) ?l ?k _ =>
      apply has_field_set_same; len_solve
  | |- has_field (heap_set _ _ _ _) _ _ _ =>
      apply has_field_set_other; [field_solve | ne_solve]
  | |- has_field (_ ++ [_]) _ _ _ =>
      first [ eapply has_field_new_at; [len_solve | reflexivity]
            | apply has_field_app; field_solve ]
  | |- has_field _ _ _ _ => eassumption
  end.

Ltac cls_solve :=
  repeat first [ rewrite heap_set0_cls | rewrite heap_set_cls ];
  first [ rewrite cls_of_new_at by len_solve; reflexivity
        | rewrite cls_of_app_lt by len_solve; cls_solve
        | eassumption | reflexivity ].

Ltac items_solve :=
  repeat first [ rewrite items_of_heap_set
               | rewrite items_of_set0_other by len_solve ];
  first [ rewrite items_of_new_at by len_solve; reflexivity
        | rewrite items_of_app by len_solve; items_solve
        | eassumption | reflexivity ].

(** ** C5 *)

(** C5 (amended). For a command of the element family (built-in or scoped)
    owned by a Section and called with a non-empty literal selector that is
    not an [@] reference (and not the strategy of a strategy and selector
    pair), resolution puts in [args[0]] a new Element with strategy
    'recursion' whose selector is the array of the section's ancestor chain,
    ending in the section, followed by a new Element for the literal. *)
Theorem literal_selector_on_section :
  forall (c a sp : loc) (s : state) (cn lit : string)
         (rest chain : list value),
    has_field (st_heap s) c "commandName" (VStr cn) ->
    has_field (st_heap s) c "parent" (VRef sp) ->
    isSection (st_heap s) (VRef sp) = true ->
    ancestry (st_heap s) sp chain ->
    items_of (st_heap s) (VRef a) = VStr lit :: rest ->
    lit <> "" ->
    starts_with_at lit = false ->
    isElementCommand cn || isScopedElementCommand cn = true ->
    LocateStrategy_isValid (VStr lit)
      && isString (default VUndef (rest !! 0)) = false ->
    exists (s' : state) (e arr r : loc) (pre : list value),
      parseElementSelector (VRef c) (VRef a) s = (Ret tt, s')
      /\ items_of (st_heap s') (VRef a) = VRef r :: rest
      /\ cls_of (st_heap s') (VRef r) = Some CElement
      /\ has_field (st_heap s') r "locateStrategy" (VStr "recursion")
      /\ has_field (st_heap s') r "selector" (VRef arr)
      /\ items_of (st_heap s') (VRef arr) = chain ++ [VRef e]
      /\ chain = pre ++ [VRef sp]
      /\ cls_of (st_heap s') (VRef e) = Some CElement
      /\ has_field (st_heap s') e "selector" (VStr lit)
      /\ has_field (st_heap s') e "parent" (VRef sp)
      /\ length (st_heap s) <= e.
Proof.
  intros c a sp s cn lit rest chain Hcn Hpar Hsec Hanc Hitems Hlit Hat Hcmd Hpair.
  pose proof (items_of_lt _ _ _ _ Hitems) as Ha.
  pose proof (ancestry_lt _ _ _ Hanc) as Hsp.
  pose proof (has_field_lt _ _ _ _ Hcn) as Hc.
  destruct (ancestry_last _ _ _ Hanc) as [pre Hpre].
  assert (Hposs : isPossibleElementSelector (st_heap s) (VStr lit) cn = true).
  { unfold isPossibleElementSelector. simpl.
    destruct (String.eqb lit "") eqn:E.
    - apply String.eqb_eq in E. contradiction.
    - simpl. rewrite Hat. exact Hcmd. }
  set (n := length (st_heap s)).
  exists (mkState
            (heap_set0
               (let h3 :=
                  (heap_set (st_heap s ++ [new_element (VStr lit) VNull]) n
                     "parent" (VRef sp)
                     ++ [new_array (chain ++ [VRef n])])
                  ++ [new_element (VRef (S n)) (VStr "recursion")] in
                if isScopedElementCommand cn
                then heap_set h3 c "onlyLocateSectionsRecursively" (VBool true)
                else h3)
               a (VRef (S (S n))))
            (st_calls s)).
  exists n, (S n), (S (S n)), pre.
  split.
  { rewrite parseElementSelector_unfold. unfold bind at 1.
    rewrite (getSelectorFromArgs_plain c a s cn (VStr lit) rest Hcn Hitems Hposs Hpair).
    assert (Ht : truthy (VStr lit) = true).
    { simpl. destruct (String.eqb lit "") eqn:E; [|reflexivity].
      apply String.eqb_eq in E. contradiction. }
    rewrite Ht. cbn [negb].
    unfold bind at 1. rewrite createFromSelector_string. fold n.
    unfold hasElementSelector. js_step.
    rewrite (has_field_get _ n "selector" (VStr lit)) by field_solve.
    js_step. rewrite Hat.
    rewrite (literal_branch_run c a sp n _ cn chain); cbn [st_heap st_calls].
    - rewrite length_app. simpl length. fold n.
      replace (n + 1) with (S n) by lia. reflexivity.
    - field_solve.
    - field_solve.
    - rewrite isSection_app; [exact Hsec|]. intros q [= <-]. exact Hsp.
    - now apply ancestry_app.
    - exact Hsp.
    - len_solve. }
  cbn [st_heap st_calls]. cbv zeta.
  destruct (isScopedElementCommand cn);
    (split; [rewrite items_of_set0_same by len_solve; f_equal;
             rewrite ?items_of_heap_set;
             rewrite !items_of_app by len_solve;
             rewrite items_of_heap_set, items_of_app by len_solve;
             now rewrite Hitems|]);
    (split; [cls_solve|]);
    (split; [field_solve|]);
    (split; [field_solve|]);
    (split; [items_solve|]);
    (split; [exact Hpre|]);
    (split; [cls_solve|]);
    (split; [field_solve|]);
    (split; [field_solve|]); unfold n; lia.
Qed.

(** ** C2 *)

Lemma split_colon_plain s : no_colon s = true -> split_colon s = [s].
Proof.
  induction s as [|ch r IH]; simpl; [reflexivity|].
  destruct (Ascii.eqb ch ":") eqn:E; simpl; [discriminate|].
  intros H. now rewrite IH.
Qed.

Lemma split_colon_app name tail :
  no_colon name = true ->
  split_colon (name ^^ String ":"%char tail) = name :: split_colon tail.
Proof.
  induction name as [|ch r IH]; simpl; [reflexivity|].
  destruct (Ascii.eqb ch ":") eqn:E; simpl; [discriminate|].
  intros H. now rewrite IH.
Qed.

Lemma append_empty s : s ^^ "" = s.
Proof. induction s; simpl; congruence. Qed.

Lemma reference_sections name suffix :
  no_colon name = true ->
  (forall sfx, suffix = Some sfx -> no_colon sfx = true /\ sfx <> "") ->
  let sections := split_colon (substring1 (reference name suffix)) in
  hd "" sections = name /\ pseudo_of sections = pseudo_value suffix.
Proof.
  intros Hname Hsfx. unfold reference. simpl substring1.
  destruct suffix as [sfx|]; simpl.
  - destruct (Hsfx sfx eq_refl) as [Hnc Hne].
    rewrite split_colon_app by assumption.
    rewrite (split_colon_plain sfx Hnc). simpl. split; [reflexivity|].
    destruct (String.eqb sfx "") eqn:E; [|reflexivity].
    apply String.eqb_eq in E. contradiction.
  - rewrite append_empty, split_colon_plain by assumption. now simpl.
Qed.

Lemma has_key_field l k v s :
  has_field (st_heap s) l k v -> has_key (VRef l) k s = (Ret true, s).
Proof.
  intros (o & e & Ho & Hk). unfold has_key. js_step. now rewrite Ho, Hk.
Qed.

Lemma getElement_declared c pl m d name strategy s :
  has_field (st_heap s) c "parent" (VRef pl) ->
  has_field (st_heap s) pl "elements" (VRef m) ->
  has_field (st_heap s) m name (VRef d) ->
  truthy strategy = false ->
  getElement (VRef c) name strategy s = (Ret (VRef d), s).
Proof.
  intros Hc Hpl Hm Hs. unfold getElement, validate. js_step.
  rewrite (has_field_get _ _ _ _ Hc). js_step.
  change (type_field TYPE_ELEMENT) with "elements".
  rewrite (has_field_get _ _ _ _ Hpl). js_step.
  unfold bind at 1. rewrite (has_key_field _ _ _ _ Hm). rewrite Hs.
  js_step.
  rewrite (has_field_get _ _ _ _ Hc). js_step.
  rewrite (has_field_get _ _ _ _ Hpl). js_step.
  unfold get. now rewrite (has_field_get _ _ _ _ Hm).
Qed.

Ltac lacks_solve :=
  lazymatch goal with
  | |- lacks (heap_set _ _ _ _) _ _ =>
      apply lacks_set_other; [lacks_solve | ne_solve]
  | |- lacks _ _ _ => eassumption
  end.

Lemma reference_branch_run c a pl m d e s ref name pseudo chai cn sl ls par chain :
  has_field (st_heap s) e "selector" (VStr ref) ->
  has_field (st_heap s) e "locateStrategy" VNull ->
  lacks (st_heap s) e "parent" ->
  lacks (st_heap s) e "pseudoSelector" ->
  has_field (st_heap s) c "isChaiAssertion" chai ->
  has_field (st_heap s) c "commandName" cn ->
  has_field (st_heap s) c "parent" (VRef pl) ->
  truthy chai && value_eqb cn (VStr "section") = false ->
  has_field (st_heap s) pl "elements" (VRef m) ->
  has_field (st_heap s) m name (VRef d) ->
  has_field (st_heap s) d "selector" sl ->
  has_field (st_heap s) d "locateStrategy" ls ->
  has_field (st_heap s) d "parent" par ->
  hd "" (split_colon (substring1 ref)) = name ->
  pseudo_of (split_colon (substring1 ref)) = pseudo ->
  d <> e ->
  (isSection (st_heap s) par = true ->
   exists sp, par = VRef sp /\ sp < e /\ ancestry (st_heap s) sp chain) ->
  reference_branch (VRef c) (VRef a) (VStr ref) (VRef e) s
  = (Ret tt,
     mkState (resolved_heap (st_heap s) a d e sl ls par pseudo chain)
             (st_calls s)).
Proof.
  intros Hesel Hels Hepar Heps Hchai Hcn Hcpar Hsect Hpl Hm Hdsel Hdls Hdpar
         Hname Hpseudo Hde Hchain.
  pose proof (has_field_lt _ _ _ _ Hesel) as He.
  pose proof (has_field_lt _ _ _ _ Hdsel) as Hd.
  unfold reference_branch. js_step.
  rewrite (has_field_get _ _ _ _ Hesel). js_step.
  change (to_str (VStr ref)) with ref. rewrite Hname, Hpseudo.
  rewrite (has_field_get _ _ _ _ Hchai). js_step.
  rewrite (has_field_get _ _ _ _ Hcn). js_step.
  change (isObject (st_heap s) (VStr ref)) with false. js_step.
  rewrite Hsect.
  unfold bind at 1.
  rewrite (getElement_declared c pl m d name VNull s Hcpar Hpl Hm eq_refl).
  js_step.
  (* Element.copyDefaults *)
  unfold Element_copyDefaults, Element_defaultProps. cbn [iter]. js_step.
  rewrite (has_field_get _ e "selector" (VStr ref)) by field_solve.
  cbn [nullish]. js_step.
  rewrite (has_field_get _ e "locateStrategy" VNull) by field_solve.
  cbn [nullish]. js_step.
  rewrite (has_field_get _ d "locateStrategy" ls) by field_solve. js_step.
  rewrite (lacks_get _ e "parent") by lacks_solve.
  cbn [nullish]. js_step.
  rewrite (has_field_get _ d "parent" par) by field_solve. js_step.
  rewrite (lacks_get _ e "pseudoSelector") by lacks_solve.
  cbn [nullish]. js_step.
  rewrite (has_field_get _ d "pseudoSelector" pseudo) by field_solve. js_step.
  (* the forced replacement *)
  rewrite (has_field_get _ d "locateStrategy" ls) by field_solve. js_step.
  rewrite (has_field_get _ d "selector" sl) by field_solve. js_step.
  (* the recursive chain *)
  unfold getRecursiveLookupElement. js_step.
  rewrite (has_field_get _ e "parent" par) by field_solve. js_step.
  rewrite !isSection_heap_set. unfold resolved_heap.
  destruct (isSection (st_heap s) par) eqn:Hsec.
  - destruct (Hchain eq_refl) as (sp & -> & Hsp & Hanc).
    rewrite (ancestry_chain _ sp chain).
    2:{ repeat (apply ancestry_heap_set; [|first [left; discriminate|right; lia]]).
        exact Hanc. }
    2:{ rewrite !heap_set_length. lia. }
    js_step. rewrite !length_app, !heap_set_length. simpl length.
    rewrite args_set0_run. cbn [st_heap st_calls].
    replace (length (st_heap s) + 1) with (S (length (st_heap s))) by lia.
    reflexivity.
  - js_step. cbn [truthy]. rewrite args_set0_run. reflexivity.
Qed.

Lemma isSection_app_other h o v :
  o_cls o <> CSection -> isSection (h ++ [o]) v = isSection h v.
Proof.
  intros Ho. destruct v; try reflexivity. unfold isSection, cls_of.
  destruct (lt_eq_lt_dec l (length h)) as [[Hl|Hl]|Hl].
  - now rewrite lookup_app_l.
  - subst l. rewrite lookup_app_r by lia. rewrite Nat.sub_diag. simpl.
    rewrite (lookup_ge_None_2 h (length h)) by lia. simpl.
    destruct (o_cls o); congruence.
  - rewrite lookup_app_r by lia.
    rewrite (lookup_ge_None_2 h l) by lia.
    destruct (l - length h) as [|k] eqn:E; [lia|]. reflexivity.
Qed.

(** C2 (amended). For an element declared in the [elements] map of the
    command's parent, resolving [@name] or [@name:suffix] (a reference string,
    with a non-empty suffix free of colons) on any command but the chai
    [section] assertion builds a new Element whose selector and locate
    strategy are the declaration's and whose [pseudoSelector] is the suffix,
    or null without one; the declaration's own [pseudoSelector] is
    overwritten with the same value.  When the declaration's parent is not a
    Section that Element replaces [args[0]]; when it is, [args[0]] becomes a
    'recursion' Element whose chain is the ancestor sections followed by it. *)
Theorem reference_resolves_to_declaration :
  forall (c a pl m d : loc) (s : state) (name cn : string)
         (suffix : option string) (rest chain : list value)
         (chai sl ls par : value),
    items_of (st_heap s) (VRef a) = VStr (reference name suffix) :: rest ->
    no_colon name = true ->
    (forall sfx, suffix = Some sfx -> no_colon sfx = true /\ sfx <> "") ->
    LocateStrategy_isValid (VStr (reference name suffix))
      && isString (default VUndef (rest !! 0)) = false ->
    has_field (st_heap s) c "isChaiAssertion" chai ->
    has_field (st_heap s) c "commandName" (VStr cn) ->
    has_field (st_heap s) c "parent" (VRef pl) ->
    truthy chai && String.eqb cn "section" = false ->
    has_field (st_heap s) pl "elements" (VRef m) ->
    has_field (st_heap s) m name (VRef d) ->
    has_field (st_heap s) d "selector" sl ->
    has_field (st_heap s) d "locateStrategy" ls ->
    has_field (st_heap s) d "parent" par ->
    (isSection (st_heap s) par = true ->
     exists sp, par = VRef sp /\ ancestry (st_heap s) sp chain) ->
    exists (s' : state) (e : loc),
      parseElementSelector (VRef c) (VRef a) s = (Ret tt, s')
      /\ length (st_heap s) <= e
      /\ cls_of (st_heap s') (VRef e) = Some CElement
      /\ has_field (st_heap s') e "selector" sl
      /\ has_field (st_heap s') e "locateStrategy" ls
      /\ has_field (st_heap s') e "pseudoSelector" (pseudo_value suffix)
      /\ has_field (st_heap s') d "pseudoSelector" (pseudo_value suffix)
      /\ (isSection (st_heap s) par = false ->
          items_of (st_heap s') (VRef a) = VRef e :: rest)
      /\ (isSection (st_heap s) par = true ->
          exists r arr,
            items_of (st_heap s') (VRef a) = VRef r :: rest
            /\ has_field (st_heap s') r "locateStrategy" (VStr "recursion")
            /\ has_field (st_heap s') r "selector" (VRef arr)
            /\ items_of (st_heap s') (VRef arr) = chain ++ [VRef e]).
Proof.
  intros c a pl m d s name cn suffix rest chain chai sl ls par
         Hitems Hname Hsfx Hpair Hchai Hcn Hcpar Hsect Hpl Hm Hdsel Hdls Hdpar
         Hchain.
  pose proof (items_of_lt _ _ _ _ Hitems) as Ha.
  pose proof (has_field_lt _ _ _ _ Hdsel) as Hd.
  destruct (reference_sections name suffix Hname Hsfx) as [Hhd Hps].
  set (ref := reference name suffix) in *.
  set (e0 := new_element (VStr ref) VNull).
  assert (Hsec1 : isSection (st_heap s ++ [e0]) par = isSection (st_heap s) par)
    by (apply isSection_app_other; discriminate).
  assert (Hrun :
    parseElementSelector (VRef c) (VRef a) s
    = (Ret tt,
       mkState (resolved_heap (st_heap s ++ [e0]) a d (length (st_heap s))
                  sl ls par (pseudo_value suffix) chain)
               (st_calls s))).
  { rewrite parseElementSelector_unfold. unfold bind at 1.
    rewrite (getSelectorFromArgs_plain c a s cn (VStr ref) rest Hcn Hitems);
      [|reflexivity|exact Hpair].
    change (truthy (VStr ref)) with true. cbn [negb].
    unfold bind at 1. rewrite createFromSelector_string. fold e0.
    unfold hasElementSelector. js_step.
    rewrite (has_field_get _ (length (st_heap s)) "selector" (VStr ref))
      by field_solve.
    js_step. change (starts_with_at ref) with true. cbv iota.
    rewrite (reference_branch_run c a pl m d (length (st_heap s)) _ ref name
               (pseudo_value suffix) chai (VStr cn) sl ls par chain);
      cbn [st_heap st_calls]; try field_solve; try reflexivity; try assumption.
    - now apply lacks_new.
    - now apply lacks_new.
    - lia.
    - rewrite Hsec1. intros Hs. destruct (Hchain Hs) as (sp & -> & Hanc).
      exists sp. split; [reflexivity|]. split.
      + eapply ancestry_lt; eauto.
      + now apply ancestry_app. }
  eexists. exists (length (st_heap s)). split; [exact Hrun|].
  cbn [st_heap st_calls]. unfold resolved_heap. rewrite Hsec1.
  split; [lia|].
  destruct (isSection (st_heap s) par) eqn:Hsec;
    (split; [cls_solve|]);
    (split; [field_solve|]);
    (split; [field_solve|]);
    (split; [field_solve|]);
    (split; [field_solve|]).
  - split; [discriminate|]. intros _.
    exists (S (length (st_heap s ++ [e0]))), (length (st_heap s ++ [e0])).
    split.
    { rewrite items_of_set0_same by len_solve. f_equal.
      rewrite !items_of_app by len_solve. rewrite !items_of_heap_set.
      rewrite items_of_app by len_solve. now rewrite Hitems. }
    split; [field_solve|]. split; [field_solve|]. items_solve.
  - split; [|discriminate]. intros _.
    rewrite items_of_set0_same by len_solve. f_equal.
    rewrite !items_of_heap_set.
    rewrite items_of_app by len_solve. now rewrite Hitems.
Qed.

(** ** C9 *)

Lemma get_inv v k s x s' :
  get v k s = (Ret x, s') -> s' = s /\ heap_get (st_heap s) v k = Ret x.
Proof.
  unfold get. destruct (heap_get (st_heap s) v k); intros [= <- <-]; auto.
Qed.

Lemma set_inv v k x s u s' :
  set v k x s = (Ret u, s') ->
  exists l, v = VRef l
            /\ s' = mkState (heap_set (st_heap s) l k x) (st_calls s).
Proof.
  destruct v; try discriminate. simpl. intros [= <- <-]. eauto.
Qed.

Lemma register_inv target fn key parent chai async s w s' :
  register target fn key parent chai async VUndef s = (Ret w, s') ->
  exists l cur,
    target = VRef l
    /\ heap_get (st_heap s) target key = Ret cur
    /\ truthy cur = false
    /\ w = VRef (S (length (st_heap s)))
    /\ s' = mkState
              (heap_set
                 (st_heap s ++
                    [new_obj CCommand
                       [("parent", parent);
                        ("commandName", VStr key);
                        ("isChaiAssertion", chai);
                        ("isES6Async", or_false async);
                        ("isUserDefined",
                         VBool (isUserDefinedElementCommand key))];
                     mkObj (CWrapper (length (st_heap s)) fn) [] [] []])
                 l key (VRef (S (length (st_heap s)))))
              (st_calls s).
Proof.
  unfold register. intros H.
  apply bind_inv in H as (w0 & s1 & Hadd & H).
  apply bind_inv in H as (u & s2 & Hset & H).
  inversion H; subst; clear H.
  destruct (heap_get (st_heap s) target key) as [cur|e|] eqn:Hget.
  2,3: unfold addCommand in Hadd; rewrite bind_get, Hget in Hadd; discriminate.
  destruct (truthy cur) eqn:Hcur.
  - rewrite (addCommand_throws _ _ _ _ _ _ VUndef _ _ Hget Hcur eq_refl) in Hadd.
    discriminate.
  - rewrite (addCommand_registers _ _ _ _ _ _ VUndef _ _ Hget) in Hadd
      by (now rewrite Hcur).
    inversion Hadd; subst; clear Hadd.
    apply set_inv in Hset as (l & -> & ->).
    exists l, cur. repeat split; auto.
Qed.


Section Registration.

Variables (h0 : heap) (t c : loc) (oc : obj) (parent : value)
          (name : string) (fn : value).
Hypothesis Ht : t < length h0.
Hypothesis Hc : h0 !! c = Some oc.
Hypothesis Htc : t <> c.
Hypothesis Hfn : lookup_prop name (o_props oc) = Some (mkProp (Data fn) true).
Hypothesis Hname : isAllowedNamespace name = false.
Hypothesis Hobj : isObject h0 fn = false.

#[local] Set Default Proof Using "Ht Hc Htc Hfn Hname Hobj".

Local Abbreviation protected := (reg_protected h0 t c).
Local Abbreviation keeps := (reg_keeps h0 t c).
Local Abbreviation slot_ok := (slot_ok h0 t c).
Local Abbreviation Inv := (reg_inv h0 t c oc).
Local Abbreviation Done := (registered h0 t parent name fn).

Lemma keeps_refl s : keeps s s.
Proof. split; [lia|]. intros l o Ho. exists o. auto. Qed.

Lemma keeps_cls s s' l :
  keeps s s' -> l < length (st_heap s) ->
  cls_of (st_heap s') (VRef l) = cls_of (st_heap s) (VRef l).
Proof.
  intros [_ H] Hl. destruct (lookup_lt_is_Some_2 _ _ Hl) as [o Ho].
  destruct (H l o Ho) as (o' & Ho' & Hcls & _).
  unfold cls_of. rewrite Ho, Ho'. simpl. congruence.
Qed.

Lemma keeps_trans s1 s2 s3 : keeps s1 s2 -> keeps s2 s3 -> keeps s1 s3.
Proof.
  intros H12 H23. pose proof H12 as [Hl1 H1]. pose proof H23 as [Hl2 H2].
  split; [lia|]. intros l o Ho.
  destruct (H1 l o Ho) as (o1 & Ho1 & Hcls1 & Hp1).
  destruct (H2 l o1 Ho1) as (o2 & Ho2 & Hcls2 & Hp2).
  exists o2. split; [exact Ho2|]. split; [congruence|].
  intros Hp. rewrite Hp2, Hp1; auto.
  destruct Hp as [Hp|[Hp|[Hp Hcmd]]]; [now left|now right; left|].
  right; right. split; [exact Hp|].
  rewrite (keeps_cls s1 s2 l H12); [exact Hcmd|eapply lookup_lt_Some; eauto].
Qed.

Lemma keeps_same s s' l o :
  keeps s s' -> st_heap s !! l = Some o -> protected s l ->
  st_heap s' !! l = Some o.
Proof.
  intros [_ H] Ho Hp. destruct (H l o Ho) as (o' & Ho' & _ & Heq).
  now rewrite Ho', (Heq Hp).
Qed.

Lemma keeps_has_field s s' k v :
  keeps s s' -> has_field (st_heap s) t k v -> has_field (st_heap s') t k v.
Proof.
  intros Hk (o & e & Ho & Hv). exists o, e. split; [|exact Hv].
  eapply keeps_same; eauto. now left.
Qed.

Lemma keeps_lacks s s' k :
  keeps s s' -> lacks (st_heap s) t k -> lacks (st_heap s') t k.
Proof.
  intros Hk (o & Ho & Hv). exists o. split; [|exact Hv].
  eapply keeps_same; eauto. now left.
Qed.

Lemma keeps_slot_ok s s' v :
  keeps s s' -> slot_ok s v -> slot_ok s' v.
Proof.
  intros Hk Hv l Hl. destruct (Hv l Hl) as (H1 & H2 & H3).
  split; [exact H1|]. split; [exact H2|].
  destruct H3 as [H3|H3]; [now left|right].
  rewrite (keeps_cls s s'); [exact H3|exact Hk|].
  unfold cls_of in H3. destruct (st_heap s !! l) eqn:E; [|discriminate].
  eapply lookup_lt_Some; eauto.
Qed.

Lemma keeps_Inv s s' : keeps s s' -> Inv s -> Inv s'.
Proof.
  intros Hk (Hlen & Hcs & Hcls & Hns). pose proof Hk as [Hl _].
  split; [lia|]. split.
  { eapply keeps_same; eauto. right. now left. }
  split.
  { intros l o Ho. rewrite (keeps_cls s s'); [now apply Hcls|exact Hk|].
    apply lookup_lt_Some in Ho. lia. }
  intros ns Hallowed. destruct (Hns ns Hallowed) as [Hlk|(v & Hv & Hok)].
  - left. eapply keeps_lacks; eauto.
  - right. exists v. split; [eapply keeps_has_field; eauto|].
    eapply keeps_slot_ok; eauto.
Qed.

Lemma keeps_Done s s' : keeps s s' -> Done s -> Done s'.
Proof.
  intros Hk (w & cmd & Hw & Hcls & Hcmd & Hobjc).
  exists w, cmd. split; [eapply keeps_has_field; eauto|]. split.
  { rewrite (keeps_cls s s'); [exact Hcls|exact Hk|].
    unfold cls_of in Hcls. destruct (st_heap s !! w) eqn:E; [|discriminate].
    eapply lookup_lt_Some; eauto. }
  split; [exact Hcmd|].
  eapply keeps_same; eauto. right; right. split; [exact Hcmd|].
  unfold cls_of. now rewrite Hobjc.
Qed.

Lemma register_keeps l f key p chai async s w s' :
  register (VRef l) f key p chai async VUndef s = (Ret w, s') ->
  l <> t -> l <> c ->
  l < length h0 \/ cls_of (st_heap s) (VRef l) <> Some CCommand ->
  keeps s s'.
Proof.
  intros Hreg Hlt Hlc Hcmd.
  apply register_inv in Hreg as (l' & cur & [= <-] & _ & _ & _ & ->).
  split; cbn [st_heap].
  { rewrite heap_set_length, length_app. lia. }
  intros l1 o Ho. pose proof (lookup_lt_Some _ _ _ Ho) as Hl1.
  unfold heap_set.
  match goal with
  | |- context [match ?x !! l with _ => _ end] => destruct (x !! l) as [ol|] eqn:Hol
  end.
  - destruct (decide (l = l1)) as [->|Hne].
    + rewrite list_lookup_insert_eq by (eapply lookup_lt_Some; eauto).
      rewrite lookup_app_l in Hol by exact Hl1.
      assert (ol = o) by congruence. subst ol.
      eexists. split; [reflexivity|]. split; [reflexivity|].
      intros [Hp|[Hp|[Hp Hcls]]]; try contradiction.
      exfalso. destruct Hcmd as [Hcmd|Hcmd]; [lia|]. contradiction.
    + rewrite list_lookup_insert_ne by assumption.
      rewrite lookup_app_l by exact Hl1. exists o. auto.
  - rewrite lookup_app_l by exact Hl1. exists o. auto.
Qed.

Lemma namespace_keeps k nsv chai nsNames s s' v :
  has_field (st_heap s) t k v ->
  slot_ok s v ->
  iter (fun nsCommandName =>
          let* slot := get (VRef t) k in
          let* f := get nsv nsCommandName in
          do register slot f nsCommandName parent chai VUndef VUndef then
          ret tt)
       nsNames s = (Ret tt, s') ->
  keeps s s'.
Proof.
  revert s. induction nsNames as [|nsName r IH]; intros s Hv Hok Hrun.
  - inversion Hrun; subst. apply keeps_refl.
  - simpl in Hrun.
    apply bind_inv in Hrun as ([] & s1 & Hstep & Hrest).
    apply bind_inv in Hstep as (slot & sa & Hslot & Hstep).
    apply get_inv in Hslot as [-> Hslot].
    rewrite (has_field_get _ _ _ _ Hv) in Hslot. inversion Hslot; subst slot.
    apply bind_inv in Hstep as (f & sb & Hf & Hstep).
    apply get_inv in Hf as [-> _].
    apply bind_inv in Hstep as (w & sc & Hreg & Hstep).
    inversion Hstep; subst sc.
    pose proof Hreg as Hreg'.
    apply register_inv in Hreg' as (l & cur & -> & _).
    destruct (Hok l eq_refl) as (Hlc & Hlt & Hcls).
    assert (Hk : keeps s s1).
    { eapply register_keeps; eauto.
      destruct Hcls as [Hcls|Hcls]; [now left|right]. rewrite Hcls. discriminate. }
    eapply keeps_trans; [exact Hk|].
    apply IH; [eapply keeps_has_field; eauto|eapply keeps_slot_ok; eauto|exact Hrest].
Qed.

Lemma heap_set_lookup_other (h : heap) l k x l' :
  l <> l' -> heap_set h l k x !! l' = h !! l'.
Proof.
  intros Hne. unfold heap_set. destruct (h !! l); [|reflexivity].
  now rewrite list_lookup_insert_ne.
Qed.

Lemma slot_ok_app s o cs v :
  slot_ok s v -> slot_ok (mkState (st_heap s ++ [o]) cs) v.
Proof.
  intros Hv l Hl. destruct (Hv l Hl) as (H1 & H2 & H3).
  split; [exact H1|]. split; [exact H2|].
  destruct H3 as [H3|H3]; [now left|right]. cbn [st_heap].
  rewrite cls_of_app_lt; [exact H3|].
  unfold cls_of in H3. destruct (st_heap s !! l) eqn:E; [|discriminate].
  eapply lookup_lt_Some; eauto.
Qed.

Lemma slot_ok_set s l k x cs v :
  slot_ok s v -> slot_ok (mkState (heap_set (st_heap s) l k x) cs) v.
Proof.
  intros Hv l0 Hl. destruct (Hv l0 Hl) as (H1 & H2 & H3).
  split; [exact H1|]. split; [exact H2|].
  destruct H3 as [H3|H3]; [now left|right]. cbn [st_heap].
  now rewrite heap_set_cls.
Qed.

Lemma Inv_app s o cs : Inv s -> Inv (mkState (st_heap s ++ [o]) cs).
Proof.
  intros (Hlen & Hcs & Hcls & Hns). unfold reg_inv. cbn [st_heap].
  split; [rewrite length_app; lia|]. split.
  { rewrite lookup_app_l; [exact Hcs|]. eapply lookup_lt_Some; eauto. }
  split.
  { intros l o0 Ho. rewrite cls_of_app_lt; [now apply Hcls|].
    apply lookup_lt_Some in Ho. lia. }
  intros ns Hallowed. destruct (Hns ns Hallowed) as [Hlk|(v & Hv & Hok)].
  - left. destruct Hlk as (ot & Hot & Hk). exists ot. split; [|exact Hk].
    rewrite lookup_app_l; [exact Hot|]. eapply lookup_lt_Some; eauto.
  - right. exists v. split; [now apply has_field_app|now apply slot_ok_app].
Qed.

Lemma Inv_set_target s k x cs :
  Inv s ->
  (isAllowedNamespace k = true -> slot_ok s x) ->
  Inv (mkState (heap_set (st_heap s) t k x) cs).
Proof.
  intros (Hlen & Hcs & Hcls & Hns) Hx. unfold reg_inv. cbn [st_heap].
  split; [rewrite heap_set_length; lia|]. split.
  { rewrite heap_set_lookup_other by exact Htc. exact Hcs. }
  split.
  { intros l o Ho. rewrite heap_set_cls. now apply Hcls. }
  intros ns Hallowed.
  destruct (string_dec k ns) as [->|Hne].
  - right. exists x. split; [apply has_field_set_same; lia|].
    apply slot_ok_set. auto.
  - destruct (Hns ns Hallowed) as [Hlk|(v & Hv & Hok)].
    + left. apply lacks_set_other; [exact Hlk|right; congruence].
    + right. exists v. split.
      * apply has_field_set_other; [exact Hv|right; congruence].
      * now apply slot_ok_set.
Qed.

Lemma Done_app s o cs : Done s -> Done (mkState (st_heap s ++ [o]) cs).
Proof.
  intros (w & cmd & Hw & Hcls & Hcmd & Hobjc). exists w, cmd. cbn [st_heap].
  split; [now apply has_field_app|]. split.
  { rewrite cls_of_app_lt; [exact Hcls|].
    unfold cls_of in Hcls. destruct (st_heap s !! w) eqn:E; [|discriminate].
    eapply lookup_lt_Some; eauto. }
  split; [exact Hcmd|].
  rewrite lookup_app_l; [exact Hobjc|]. eapply lookup_lt_Some; eauto.
Qed.

Lemma Done_set_target s k x cs :
  Done s -> k <> name -> Done (mkState (heap_set (st_heap s) t k x) cs).
Proof.
  intros (w & cmd & Hw & Hcls & Hcmd & Hobjc) Hk. exists w, cmd. cbn [st_heap].
  split; [apply has_field_set_other; [exact Hw|right; congruence]|].
  split; [now rewrite heap_set_cls|]. split; [exact Hcmd|].
  rewrite heap_set_lookup_other by lia. exact Hobjc.
Qed.

Lemma fn_stable s :
  Inv s ->
  isObject (st_heap s) fn = false
  /\ isES6AsyncFn (st_heap s) fn = isES6AsyncFn h0 fn.
Proof.
  intros (_ & _ & Hcls & _). destruct fn as [| | | | |l]; auto.
  unfold isObject in Hobj. apply negb_false_iff in Hobj.
  assert (Hsame : cls_of (st_heap s) (VRef l) = cls_of h0 (VRef l)).
  { unfold isFunction, cls_of in Hobj.
    destruct (h0 !! l) as [o|] eqn:Ho; [|discriminate].
    rewrite (Hcls l o Ho). unfold cls_of. now rewrite Ho. }
  unfold isObject, isFunction, isES6AsyncFn. rewrite Hsame.
  split; [|reflexivity]. unfold isFunction in Hobj. now rewrite Hobj.
Qed.

Lemma commands_get s : Inv s -> heap_get (st_heap s) (VRef c) name = Ret fn.
Proof.
  intros (_ & Hcs & _). unfold heap_get, obj_get. now rewrite Hcs, Hfn.
Qed.

Lemma Object_keys_inv v s ks s' :
  Object_keys v s = (Ret ks, s') -> s' = s.
Proof. destruct v; simpl; intros H; inversion H; reflexivity. Qed.

Lemma applyCommand_step k s s' :
  Inv s ->
  applyCommand parent (VRef t) (VRef c) k s = (Ret tt, s') ->
  Inv s' /\ (Done s -> Done s') /\ (k = name -> Done s').
Proof.
  intros HInv Hrun. pose proof HInv as (Hlen & Hcs & Hcls & Hns).
  unfold applyCommand in Hrun.
  destruct (isAllowedNamespace k) eqn:Hk.
  - (* a namespace *)
    assert (Hkn : k <> name) by (intros ->; congruence).
    apply bind_inv in Hrun as (cur & s1 & Hcur & Hrun).
    apply get_inv in Hcur as [-> Hcur].
    apply bind_inv in Hrun as (ns0 & s2 & Hns0 & Hrun).
    apply bind_inv in Hrun as (u & s3 & Hset & Hrun).
    apply set_inv in Hset as (l & [= <-] & ->).
    apply bind_inv in Hrun as (nsv & s4 & Hnsv & Hrun).
    apply get_inv in Hnsv as [-> _].
    apply bind_inv in Hrun as (nsNames & s5 & Hkeys & Hrun).
    apply Object_keys_inv in Hkeys as ->.
    assert (Hmid : Inv s2 /\ slot_ok s2 ns0 /\ (Done s -> Done s2)).
    { destruct (Hns k Hk) as [Hlk|(v & Hv & Hok)].
      - rewrite (lacks_get _ _ _ Hlk) in Hcur. inversion Hcur; subst cur.
        simpl in Hns0. inversion Hns0; subst.
        split; [now apply Inv_app|]. split; [|now apply Done_app].
        intros l [= <-]. split; [apply lookup_lt_Some in Hcs; lia|].
        split; [lia|]. right. cbn [st_heap]. now rewrite cls_of_new.
      - rewrite (has_field_get _ _ _ _ Hv) in Hcur. inversion Hcur; subst cur.
        destruct (truthy v).
        + inversion Hns0; subst. auto.
        + simpl in Hns0. inversion Hns0; subst.
          split; [now apply Inv_app|]. split; [|now apply Done_app].
          intros l [= <-]. split; [apply lookup_lt_Some in Hcs; lia|].
          split; [lia|]. right. cbn [st_heap]. now rewrite cls_of_new. }
    destruct Hmid as (HInv2 & Hok2 & HDone2).
    set (s3 := mkState (heap_set (st_heap s2) t k ns0) (st_calls s2)) in *.
    assert (HInv3 : Inv s3) by (apply Inv_set_target; auto).
    assert (Hslot3 : has_field (st_heap s3) t k ns0).
    { apply has_field_set_same. destruct HInv2 as (H & _). lia. }
    assert (Hok3 : slot_ok s3 ns0) by (now apply slot_ok_set).
    pose proof (namespace_keeps _ _ _ _ _ _ _ Hslot3 Hok3 Hrun) as Hkeeps.
    split; [eapply keeps_Inv; eauto|]. split; [|contradiction].
    intros HD. eapply keeps_Done; [exact Hkeeps|].
    apply Done_set_target; auto.
  - (* a direct command *)
    apply bind_inv in Hrun as (fk & s1 & Hfk & Hrun).
    apply get_inv in Hfk as [-> Hfk].
    rewrite bind_get_heap in Hrun.
    destruct (isObject (st_heap s) fk) eqn:Hobjk.
    + inversion Hrun; subst s'. split; [exact HInv|]. split; [auto|].
      intros ->. rewrite (commands_get s HInv) in Hfk. inversion Hfk; subst fk.
      destruct (fn_stable s HInv) as [Hno _]. congruence.
    + apply bind_inv in Hrun as (w & s2 & Hreg & Hrun).
      inversion Hrun; subst s'. clear Hrun.
      apply register_inv in Hreg as (l & cur & [= <-] & Hcur & Hfalsy & -> & ->).
      match goal with
      | |- context [st_heap s ++ [?a; ?b]] => set (cmdo := a); set (wo := b)
      end.
      set (sm := mkState (st_heap s ++ [cmdo; wo]) (st_calls s)).
      assert (HInvm : Inv sm).
      { unfold sm.
        replace (st_heap s ++ [cmdo; wo]) with ((st_heap s ++ [cmdo]) ++ [wo])
          by (now rewrite <- app_assoc).
        apply (Inv_app (mkState (st_heap s ++ [cmdo]) (st_calls s))).
        now apply Inv_app. }
      assert (HDonem : Done s -> Done sm).
      { intros HD. unfold sm.
        replace (st_heap s ++ [cmdo; wo]) with ((st_heap s ++ [cmdo]) ++ [wo])
          by (now rewrite <- app_assoc).
        apply (Done_app (mkState (st_heap s ++ [cmdo]) (st_calls s))).
        now apply Done_app. }
      split.
      { apply (Inv_set_target sm); [exact HInvm|congruence]. }
      split.
      { intros HD. destruct (string_dec k name) as [->|Hkn].
        - destruct HD as (w0 & cmd0 & Hw0 & _).
          rewrite (has_field_get _ _ _ _ Hw0) in Hcur.
          inversion Hcur; subst. discriminate.
        - apply (Done_set_target sm); auto. }
      unfold sm, cmdo, wo. clear HInvm HDonem sm cmdo wo.
      intros ->. rewrite (commands_get s HInv) in Hfk. inversion Hfk; subst fk.
      destruct (fn_stable s HInv) as [_ Hasync].
      exists (S (length (st_heap s))), (length (st_heap s)). cbn [st_heap].
      split; [apply has_field_set_same; rewrite length_app; simpl; lia|].
      split.
      { rewrite heap_set_cls. unfold cls_of.
        rewrite lookup_app_r by lia.
        replace (S (length (st_heap s)) - length (st_heap s)) with 1 by lia.
        reflexivity. }
      split; [exact Hlen|].
      rewrite heap_set_lookup_other by lia.
      rewrite lookup_app_r by lia. rewrite Nat.sub_diag. simpl.
      unfold command_object. now rewrite Hasync.
Qed.

Lemma applyCommands_loop names s s' :
  Inv s ->
  iter (applyCommand parent (VRef t) (VRef c)) names s = (Ret tt, s') ->
  Done s \/ In name names ->
  Done s'.
Proof.
  revert s. induction names as [|k r IH]; intros s HInv Hrun Hcase.
  - inversion Hrun; subst. destruct Hcase as [H|[]]. exact H.
  - simpl in Hrun. apply bind_inv in Hrun as ([] & s1 & Hstep & Hrest).
    destruct (applyCommand_step k s s1 HInv Hstep) as (HInv1 & Hkeep & Hnew).
    apply (IH s1 HInv1 Hrest).
    destruct Hcase as [H|[H|H]]; [left; auto|left; auto|now right].
Qed.

End Registration.

#[local] Set Default Proof Using "Type".

Lemma own_keys_In k p ps :
  lookup_prop k ps = Some p -> p_enum p = true -> In k (own_keys ps).
Proof.
  unfold own_keys. induction ps as [|[k' p'] r IH]; simpl; [discriminate|].
  destruct (String.eqb k k') eqn:E.
  - apply String.eqb_eq in E. subst k'. intros [= ->] Hp.
    rewrite Hp. now left.
  - intros Hk Hp. destruct (p_enum p'); [right|]; auto.
Qed.

(** C9 (amended). After [applyCommandsToTarget] has returned, every top-level
    name of the commands object that is not one of the six namespaces and
    whose value is not an object is registered on the target: the target
    holds under that name a wrapper of the value, built by a Command for the
    parent and that name which is not a chai assertion and whose
    [isES6Async] tells whether the value is an ES6 async function.  (Names
    whose value is an object are skipped.) *)
Theorem applyCommandsToTarget_registers :
  forall (parent : value) (t c : loc) (oc : obj) (name : string) (fn : value)
         (s0 s1 : state),
    t < length (st_heap s0) ->
    st_heap s0 !! c = Some oc ->
    t <> c ->
    (forall ns, isAllowedNamespace ns = true ->
       lacks (st_heap s0) t ns
       \/ exists v,
            has_field (st_heap s0) t ns v
            /\ forall l, v = VRef l ->
                         l <> c /\ l <> t /\ l < length (st_heap s0)) ->
    lookup_prop name (o_props oc) = Some (mkProp (Data fn) true) ->
    isAllowedNamespace name = false ->
    isObject (st_heap s0) fn = false ->
    applyCommandsToTarget parent (VRef t) (VRef c) s0 = (Ret tt, s1) ->
    exists w cmd,
      has_field (st_heap s1) t name (VRef w)
      /\ cls_of (st_heap s1) (VRef w) = Some (CWrapper cmd fn)
      /\ st_heap s1 !! cmd
         = Some (command_object parent name (isES6AsyncFn (st_heap s0) fn)).
Proof.
  intros parent t c oc name fn s0 s1 Ht Hc Htc Hns Hfn Hname Hobj Hrun.
  unfold applyCommandsToTarget in Hrun.
  apply bind_inv in Hrun as (names & s & Hkeys & Hrun).
  simpl in Hkeys. inversion Hkeys; subst s names. clear Hkeys.
  assert (HInv : reg_inv (st_heap s0) t c oc s0).
  { split; [lia|]. split; [exact Hc|]. split.
    - intros l o Ho. unfold cls_of. now rewrite Ho.
    - intros ns Hallowed. destruct (Hns ns Hallowed) as [H|(v & Hv & Hok)].
      + now left.
      + right. exists v. split; [exact Hv|].
        intros l Hl. destruct (Hok l Hl) as (H1 & H2 & H3). auto. }
  destruct (applyCommands_loop (st_heap s0) t c oc parent name fn
              Ht Hc Htc Hfn Hname Hobj _ s0 s1 HInv Hrun)
    as (w & cmd & Hw & Hcls & _ & Hcmd).
  - right. unfold keys. rewrite Hc. eapply own_keys_In; eauto.
  - exists w, cmd. auto.
Qed.


(** ** State properties that selector resolution keeps *)

Section Preservation.

Variable P : state -> Prop.

(** Which assignments [v.k = x] keep [P], and that allocation and the
    assignment [a[0] = x] keep it. *)
Variable okset : string -> value -> Prop.
Hypothesis P_alloc :
  forall s o, P s -> P (mkState (st_heap s ++ [o]) (st_calls s)).
Hypothesis P_set :
  forall s l k x, okset k x -> P s ->
                  P (mkState (heap_set (st_heap s) l k x) (st_calls s)).
Hypothesis P_set0 :
  forall s a x, P s -> P (mkState (heap_set0 (st_heap s) a x) (st_calls s)).

#[local] Set Default Proof Using "P_alloc P_set P_set0".

Lemma preserves_pure {A} (m : M A) : (forall s, snd (m s) = s) -> preserves P m.
Proof using Type. intros H s Hs. now rewrite H. Qed.

Lemma preserves_ret {A} (x : A) : preserves P (ret x).
Proof using Type. now apply preserves_pure. Qed.

Lemma preserves_throw {A} e : preserves P (@throw A e).
Proof using Type. now apply preserves_pure. Qed.

Lemma preserves_diverge {A} : preserves P (@diverge A).
Proof using Type. now apply preserves_pure. Qed.

Lemma preserves_bind {A B} (m : M A) (k : A -> M B) :
  preserves P m -> (forall x, preserves P (k x)) -> preserves P (bind m k).
Proof using Type.
  intros Hm Hk s Hs. unfold bind. specialize (Hm s Hs).
  destruct (m s) as [[x|e|] s1]; simpl in *; auto. now apply Hk.
Qed.

Lemma preserves_get v k : preserves P (get v k).
Proof using Type. now apply preserves_pure. Qed.

Lemma preserves_get_heap : preserves P get_heap.
Proof using Type. now apply preserves_pure. Qed.

Lemma preserves_index v i : preserves P (index v i).
Proof using Type. apply preserves_pure. intros s. now destruct v. Qed.

Lemma preserves_items v : preserves P (items v).
Proof using Type. now apply preserves_pure. Qed.

Lemma preserves_has_key v k : preserves P (has_key v k).
Proof using Type.
  apply preserves_pure. intros s. unfold has_key, bind, get_heap. simpl.
  destruct v; try reflexivity. now destruct (st_heap s !! l).
Qed.

Lemma preserves_alloc o : preserves P (alloc o).
Proof using P_alloc. intros s Hs. now apply P_alloc. Qed.

Lemma preserves_set v k x : okset k x -> preserves P (set v k x).
Proof using P_set.
  intros Hok s Hs. destruct v; try exact Hs. simpl. now apply P_set.
Qed.

Lemma preserves_args_set0 args x : preserves P (args_set0 args x).
Proof using P_set0.
  intros s Hs. destruct args as [| | | | |a]; try exact Hs.
  rewrite args_set0_run. now apply P_set0.
Qed.

Lemma preserves_iter {A} (f : A -> M unit) (l : list A) :
  (forall x, preserves P (f x)) -> preserves P (iter f l).
Proof using Type.
  intros Hf. induction l as [|x r IH]; simpl.
  - apply preserves_ret.
  - apply preserves_bind; auto.
Qed.

Lemma preserves_mapM {A B} (f : A -> M B) (l : list A) :
  (forall x, preserves P (f x)) -> preserves P (mapM f l).
Proof using Type.
  intros Hf. induction l as [|x r IH]; simpl.
  - apply preserves_ret.
  - apply preserves_bind; [apply Hf|]. intros y.
    apply preserves_bind; [apply IH|]. intros ys. apply preserves_ret.
Qed.

Ltac pres_step :=
  match goal with
  | |- preserves _ (bind _ _) => apply preserves_bind; [|intros ?]
  | |- preserves _ (ret _) => apply preserves_ret
  | |- preserves _ (throw _) => apply preserves_throw
  | |- preserves _ diverge => apply preserves_diverge
  | |- preserves _ (get _ _) => apply preserves_get
  | |- preserves _ get_heap => apply preserves_get_heap
  | |- preserves _ (index _ _) => apply preserves_index
  | |- preserves _ (items _) => apply preserves_items
  | |- preserves _ (has_key _ _) => apply preserves_has_key
  | |- preserves _ (alloc _) => apply preserves_alloc
  | |- preserves _ (args_set0 _ _) => apply preserves_args_set0
  | |- preserves _ (iter _ _) => apply preserves_iter; intros ?
  | |- preserves _ (mapM _ _) => apply preserves_mapM; intros ?
  | |- preserves _ (if ?b then _ else _) => destruct b
  | |- preserves _ (match ?x with _ => _ end) => destruct x
  end.

Lemma preserves_createFromSelector v :
  preserves P (Element_createFromSelector v).
Proof. unfold Element_createFromSelector. repeat pres_step. Qed.

Lemma preserves_hasElementSelector e : preserves P (hasElementSelector e).
Proof using Type. unfold hasElementSelector. repeat pres_step. Qed.

Lemma preserves_getRecursiveLookupElement e :
  preserves P (getRecursiveLookupElement e).
Proof. unfold getRecursiveLookupElement. repeat pres_step. Qed.

Lemma preserves_validate self name strategy type :
  preserves P (validate self name strategy type).
Proof using Type. unfold validate. repeat pres_step. Qed.

Lemma preserves_lookup_by type self name strategy :
  preserves P (lookup_by type self name strategy).
Proof using Type.
  destruct type; simpl; unfold getElement, getSection;
    repeat first [ apply preserves_validate | pres_step ].
Qed.

Lemma preserves_getSelectorFromArgs self args :
  preserves P (getSelectorFromArgs self args).
Proof. unfold getSelectorFromArgs. repeat pres_step. Qed.

(** Selector resolution assigns the default properties of an Element, and
    [true] to the flag of the scoped element API; a property that survives
    those assignments survives resolution. *)
Hypothesis ok_defaults : forall k x, In k Element_defaultProps -> okset k x.
Hypothesis ok_flag : okset "onlyLocateSectionsRecursively" (VBool true).

Lemma preserves_iter_In {A} (f : A -> M unit) (l : list A) :
  (forall x, In x l -> preserves P (f x)) -> preserves P (iter f l).
Proof using Type.
  induction l as [|x r IH]; simpl; intros Hf.
  - apply preserves_ret.
  - apply preserves_bind; [apply Hf; now left|]. intros _.
    apply IH. intros y Hy. apply Hf. now right.
Qed.

Lemma preserves_copyDefaults target source :
  preserves P (Element_copyDefaults target source).
Proof using P_set ok_defaults.
  unfold Element_copyDefaults. apply preserves_iter_In. intros k Hk.
  repeat pres_step. apply preserves_set. now apply ok_defaults.
Qed.

Lemma preserves_parseElementSelector self args :
  preserves P (parseElementSelector self args).
Proof using P_alloc P_set P_set0 ok_defaults ok_flag.
  assert (Hd : forall k x, In k Element_defaultProps ->
                           forall v, preserves P (set v k x)).
  { intros k x Hk v. apply preserves_set. now apply ok_defaults. }
  unfold parseElementSelector.
  repeat first
    [ apply preserves_getSelectorFromArgs
    | apply preserves_createFromSelector
    | apply preserves_hasElementSelector
    | apply preserves_getRecursiveLookupElement
    | apply preserves_copyDefaults
    | apply (preserves_lookup_by TYPE_SECTION)
    | apply (preserves_lookup_by TYPE_ELEMENT)
    | apply Hd; simpl; tauto
    | apply preserves_set; exact ok_flag
    | pres_step ].
Qed.

Lemma preserves_wrapper_prelude self this args argv :
  (forall x, okset "container" x) ->
  preserves P (wrapper_prelude self this args argv).
Proof using P_alloc P_set P_set0.
  intros Hc. unfold wrapper_prelude.
  repeat first [ apply preserves_createFromSelector
               | apply preserves_set; apply Hc
               | pres_step ].
Qed.

Lemma preserves_wrapper_client self this :
  preserves P (wrapper_client self this).
Proof using P_alloc. unfold wrapper_client. repeat pres_step. Qed.

(** The loader, for a property that survives every assignment. *)
Lemma preserves_addCommand target fn name parent chai async ov :
  preserves P (addCommand target fn name parent chai async ov).
Proof using P_alloc.
  unfold addCommand, new_Command, createWrapper. repeat pres_step.
Qed.

Lemma preserves_register target fn name parent chai async ov :
  (forall k x, okset k x) ->
  preserves P (register target fn name parent chai async ov).
Proof using P_alloc P_set.
  intros Hall. unfold register.
  repeat first [ apply preserves_addCommand
               | apply preserves_set; apply Hall
               | pres_step ].
Qed.

Lemma preserves_Object_keys v : preserves P (Object_keys v).
Proof using Type. unfold Object_keys. repeat pres_step. Qed.

Lemma preserves_applyCommand parent target commands name :
  (forall k x, okset k x) ->
  preserves P (applyCommand parent target commands name).
Proof using P_alloc P_set.
  intros Hall. unfold applyCommand.
  repeat first [ apply preserves_Object_keys
               | apply preserves_register; exact Hall
               | apply preserves_set; apply Hall
               | pres_step ].
Qed.

Lemma preserves_applyCommandsToTarget parent target commands :
  (forall k x, okset k x) ->
  preserves P (applyCommandsToTarget parent target commands).
Proof using P_alloc P_set.
  intros Hall. unfold applyCommandsToTarget.
  repeat first [ apply preserves_Object_keys
               | apply preserves_applyCommand; exact Hall
               | pres_step ].
Qed.

End Preservation.

(** A flag that is set stays set: allocation and assignments of other
    properties leave it, and resolution assigns it [true] only. *)
Lemma flag_set_parseElementSelector c self args :
  preserves (flag_set c) (parseElementSelector self args).
Proof.
  apply (preserves_parseElementSelector (flag_set c)
           (fun k x => k <> "onlyLocateSectionsRecursively" \/ x = VBool true)).
  - intros s o H. now apply has_field_app.
  - intros s l k x Hok H. unfold flag_set in *. simpl.
    destruct (Nat.eq_dec l c) as [->|Hl].
    + destruct (String.eqb_spec k "onlyLocateSectionsRecursively") as [->|Hk].
      * destruct Hok as [Hok| ->]; [congruence|].
        apply has_field_set_same. eapply has_field_lt; eassumption.
      * apply has_field_set_other; [assumption|]. right. congruence.
    + apply has_field_set_other; [assumption|]. left. congruence.
  - intros s a x H. now apply has_field_set0.
  - intros k x Hk. left. simpl in Hk.
    destruct Hk as [<-|[<-|[<-|[<-|[]]]]]; discriminate.
  - now right.
Qed.

Lemma rest_is_parseElementSelector a rest self args :
  preserves (rest_is a rest) (parseElementSelector self args).
Proof.
  apply (preserves_parseElementSelector (rest_is a rest) (fun _ _ => True));
    auto.
  - intros s o [x Hx]. exists x. cbn [st_heap].
    rewrite items_of_app; [assumption|]. eapply items_of_lt; eassumption.
  - intros s l k x _ [y Hy]. exists y. cbn [st_heap].
    now rewrite items_of_heap_set.
  - intros s a' x [y Hy]. unfold rest_is. cbn [st_heap].
    destruct (Nat.eq_dec a' a) as [->|Hne].
    + exists x. rewrite items_of_set0_same by (eapply items_of_lt; eassumption).
      now rewrite Hy.
    + exists y. rewrite items_of_set0_other by congruence. assumption.
Qed.

Lemma calls_parseElementSelector cs self args :
  preserves (fun s => st_calls s = cs) (parseElementSelector self args).
Proof.
  apply (preserves_parseElementSelector _ (fun _ _ => True)); auto.
Qed.


(** ** Further properties of selector resolution *)

Lemma executeCommand_plain :
  forall (self fn context cn : value) (a : loc) (s : state),
    heap_get (st_heap s) self "commandName" = Ret cn ->
    isPossibleElementSelector (st_heap s)
      (default VUndef
         (items_of (st_heap s) (parse_args (st_heap s) (VRef a)) !! 0))
      (to_str cn) = false ->
    parseElementSelector self (parse_args (st_heap s) (VRef a)) s = (Ret tt, s)
    /\ executeCommand self fn (VRef a) context s
       = call_fn fn context (items_of (st_heap s) (VRef a)) s.
Proof.
  intros self fn context cn a s Hcn Hno.
  assert (Hp : parseElementSelector self (parse_args (st_heap s) (VRef a)) s
               = (Ret tt, s)).
  { assert (Hv : exists l, parse_args (st_heap s) (VRef a) = VRef l).
    { unfold parse_args.
      destruct (isObject _ _); [|eauto].
      destruct (heap_get _ _ "args") as [inner| |]; eauto.
      destruct (isArray (st_heap s) inner) eqn:E; [|eauto].
      destruct inner; try discriminate. eauto. }
    destruct Hv as [l Hl]. rewrite Hl in *.
    unfold parseElementSelector, getSelectorFromArgs. js_step.
    rewrite Hcn. js_step. rewrite Hno. js_step. reflexivity. }
  split; [exact Hp|].
  rewrite executeCommand_unfold. unfold bind at 1. rewrite Hp.
  now js_step.
Qed.

(** X1. A call whose first argument cannot be an element selector (none, a
    number, an array, an object without a string [selector], or a plain string
    on a command that is no element command) goes to the wrapped function
    with its arguments untouched and the heap as it was. *)
Theorem executeCommand_untouched :
  forall (self fn context cn : value) (a : loc) (s : state),
    heap_get (st_heap s) self "commandName" = Ret cn ->
    isPossibleElementSelector (st_heap s)
      (default VUndef
         (items_of (st_heap s) (parse_args (st_heap s) (VRef a)) !! 0))
      (to_str cn) = false ->
    parseElementSelector self (parse_args (st_heap s) (VRef a)) s = (Ret tt, s)
    /\ executeCommand self fn (VRef a) context s
       = call_fn fn context (items_of (st_heap s) (VRef a)) s.
Proof.
  intros self fn context cn a s Hcn Hno.
  now apply (executeCommand_plain self fn context cn).
Qed.

Lemma literal_on_page_run :
  forall (c a : loc) (s : state) (cn lit : string) (rest : list value)
         (p : value),
    has_field (st_heap s) c "commandName" (VStr cn) ->
    has_field (st_heap s) c "parent" p ->
    isSection (st_heap s) p = false ->
    items_of (st_heap s) (VRef a) = VStr lit :: rest ->
    lit <> "" ->
    starts_with_at lit = false ->
    isElementCommand cn || isScopedElementCommand cn = true ->
    LocateStrategy_isValid (VStr lit)
      && isString (default VUndef (rest !! 0)) = false ->
    parseElementSelector (VRef c) (VRef a) s
    = (Ret tt,
       mkState (st_heap s ++ [new_element (VStr lit) VNull]) (st_calls s)).
Proof.
  intros c a s cn lit rest p Hcn Hpar Hsec Hitems Hlit Hat Hcmd Hpair.
  assert (Hposs : isPossibleElementSelector (st_heap s) (VStr lit) cn = true).
  { unfold isPossibleElementSelector. simpl.
    destruct (String.eqb lit "") eqn:E.
    - apply String.eqb_eq in E. contradiction.
    - simpl. rewrite Hat. exact Hcmd. }
  rewrite parseElementSelector_unfold. unfold bind at 1.
  rewrite (getSelectorFromArgs_plain c a s cn (VStr lit) rest Hcn Hitems Hposs Hpair).
  assert (Ht : truthy (VStr lit) = true).
  { simpl. destruct (String.eqb lit "") eqn:E; [|reflexivity].
    apply String.eqb_eq in E. contradiction. }
  rewrite Ht. cbn [negb].
  unfold bind at 1. rewrite createFromSelector_string.
  unfold hasElementSelector. js_step.
  rewrite (has_field_get _ (length (st_heap s)) "selector" (VStr lit))
    by field_solve.
  js_step. rewrite Hat. unfold literal_branch. js_step.
  rewrite (has_field_get _ c "parent" p) by field_solve. js_step.
  rewrite isSection_app_other by discriminate. now rewrite Hsec.
Qed.


(** X2. On a command whose parent is not a Section, a literal selector stays
    as it is: resolution builds a provisional Element and changes neither the
    arguments nor any other object. *)
Theorem literal_selector_on_page :
  forall (c a : loc) (s : state) (cn lit : string) (rest : list value)
         (p : value),
    has_field (st_heap s) c "commandName" (VStr cn) ->
    has_field (st_heap s) c "parent" p ->
    isSection (st_heap s) p = false ->
    items_of (st_heap s) (VRef a) = VStr lit :: rest ->
    lit <> "" ->
    starts_with_at lit = false ->
    isElementCommand cn || isScopedElementCommand cn = true ->
    LocateStrategy_isValid (VStr lit)
      && isString (default VUndef (rest !! 0)) = false ->
    parseElementSelector (VRef c) (VRef a) s
    = (Ret tt,
       mkState (st_heap s ++ [new_element (VStr lit) VNull]) (st_calls s)).
Proof.
  intros c a s cn lit rest p Hcn Hpar Hsec Hitems Hlit Hat Hcmd Hpair.
  now apply (literal_on_page_run c a s cn lit rest p).
Qed.

Lemma reference_name name suffix :
  no_colon name = true ->
  hd "" (split_colon (substring1 (reference name suffix))) = name.
Proof.
  intros Hname. unfold reference. simpl substring1.
  destruct suffix as [sfx|].
  - now rewrite split_colon_app.
  - now rewrite append_empty, split_colon_plain.
Qed.

Lemma reference_truthy name suffix :
  truthy (VStr (reference name suffix)) = true.
Proof. reflexivity. Qed.

Lemma reference_possible h name suffix cn :
  isPossibleElementSelector h (VStr (reference name suffix)) cn = true.
Proof. reflexivity. Qed.

(** X3. A reference to a name that the parent's [elements] map does not hold
    (nor inherits) throws the lookup error, which lists the names the map
    declares; the arguments and every other object stay as they were, and
    only a provisional Element has been built. *)
Theorem undeclared_reference_throws :
  forall (c a pl m : loc) (om : obj) (s : state) (name cn : string)
         (suffix : option string) (rest : list value) (chai pname : value),
    items_of (st_heap s) (VRef a) = VStr (reference name suffix) :: rest ->
    no_colon name = true ->
    LocateStrategy_isValid (VStr (reference name suffix))
      && isString (default VUndef (rest !! 0)) = false ->
    has_field (st_heap s) c "isChaiAssertion" chai ->
    has_field (st_heap s) c "commandName" (VStr cn) ->
    has_field (st_heap s) c "parent" (VRef pl) ->
    truthy chai && String.eqb cn "section" = false ->
    has_field (st_heap s) pl "elements" (VRef m) ->
    has_field (st_heap s) pl "name" pname ->
    st_heap s !! m = Some om ->
    lookup_prop name (o_props om) = None ->
    lookup_prop name (o_proto om) = None ->
    parseElementSelector (VRef c) (VRef a) s
    = (Throw (Err "Error"
                (validate_message "Element" name "" (to_str pname) "elements"
                   (own_keys (o_props om))) []),
       mkState (st_heap s ++ [new_element (VStr (reference name suffix)) VNull])
               (st_calls s)).
Proof.
  intros c a pl m om s name cn suffix rest chai pname
         Hitems Hname Hpair Hchai Hcn Hpar Hsec Hel Hpn Hm Hown Hproto.
  pose proof (has_field_lt _ _ _ _ Hel) as Hpl.
  pose proof (lookup_lt_Some _ _ _ Hm) as Hml.
  rewrite parseElementSelector_unfold. unfold bind at 1.
  rewrite (getSelectorFromArgs_plain c a s cn _ rest Hcn Hitems
             (reference_possible _ _ _ _) Hpair).
  rewrite reference_truthy. cbn [negb].
  unfold bind at 1. rewrite createFromSelector_string.
  set (ref := reference name suffix) in *.
  unfold hasElementSelector. js_step.
  rewrite (has_field_get _ (length (st_heap s)) "selector" (VStr ref))
    by field_solve.
  js_step. change (starts_with_at ref) with true. cbv iota.
  unfold reference_branch. js_step.
  rewrite (has_field_get _ (length (st_heap s)) "selector" (VStr ref))
    by field_solve.
  js_step.
  rewrite (has_field_get _ c "isChaiAssertion" chai) by field_solve. js_step.
  rewrite (has_field_get _ c "commandName" (VStr cn)) by field_solve. js_step.
  change (value_eqb (VStr cn) (VStr "section")) with (String.eqb cn "section").
  rewrite Hsec. change (isObject _ (VStr ref)) with false. cbv iota. js_step.
  change (to_str (VStr ref)) with ref. unfold ref at 1.
  rewrite (reference_name name suffix Hname).
  unfold getElement, validate. js_step.
  rewrite (has_field_get _ c "parent" (VRef pl)) by field_solve. js_step.
  change (type_field TYPE_ELEMENT) with "elements".
  rewrite (has_field_get _ pl "elements" (VRef m)) by field_solve. js_step.
  unfold has_key. js_step.
  rewrite lookup_app_l by assumption. rewrite Hm, Hown, Hproto. js_step.
  change (truthy VNull) with false. js_step.
  unfold keys. cbn [st_heap].
  rewrite lookup_app_l by assumption. rewrite Hm.
  rewrite (has_field_get _ pl "name" pname) by field_solve.
  reflexivity.
Qed.


Lemma bind_ext_on {A B} (m : M A) (k1 k2 : A -> M B) s :
  (forall x s1, m s = (Ret x, s1) -> k1 x s1 = k2 x s1) ->
  bind m k1 s = bind m k2 s.
Proof.
  intros H. unfold bind. destruct (m s) as [[x|e|] s1]; auto.
Qed.

(** X4. Nothing resets the flag of the scoped element API: once it is set on
    a Command, selector resolution for any command and any arguments leaves
    it set, and every later call of an element wrapper built on that Command
    goes, after resolution, through [targetApi] and the method of what it
    returns, whatever its arguments are. *)
Theorem flag_stays_set :
  forall (c : loc) (s : state),
    flag_set c s ->
    (forall self args, flag_set c (snd (parseElementSelector self args s)))
    /\ (forall originalFn targetApi commandName argv,
          call_element_wrapper c originalFn targetApi commandName argv s
          = (let* a := alloc (new_array argv) in
             do parseElementSelector (VRef c) (VRef a) then
             delegate targetApi commandName (VRef a) argv) s).
Proof.
  intros c s Hflag. split.
  - intros self args. now apply flag_set_parseElementSelector.
  - intros originalFn targetApi commandName argv.
    unfold call_element_wrapper. js_step.
    set (s0 := mkState (st_heap s ++ [new_array argv]) (st_calls s)).
    assert (H0 : flag_set c s0) by now apply has_field_app.
    apply bind_ext_on. intros [] s1 Hs1.
    pose proof (flag_set_parseElementSelector c (VRef c)
                  (VRef (length (st_heap s))) s0 H0) as H1.
    rewrite Hs1 in H1. simpl in H1. js_step.
    now rewrite (has_field_get _ _ _ _ H1).
Qed.

(** X5. Selector resolution only ever replaces the first item of an array
    that has one: the items after it stay as they were, whatever the command
    and whatever the array resolution works on. *)
Theorem resolution_keeps_rest :
  forall (self args : value) (a : loc) (s : state) (x : value)
         (rest : list value),
    items_of (st_heap s) (VRef a) = x :: rest ->
    exists x',
      items_of (st_heap (snd (parseElementSelector self args s))) (VRef a)
      = x' :: rest.
Proof.
  intros self args a s x rest Hitems.
  apply (rest_is_parseElementSelector a rest self args s). now exists x.
Qed.

(** X6. The lookup tests the name with [in], so a name that the declaration
    map only inherits from its prototype is found: without a strategy filter
    the lookup returns the inherited value and throws nothing, although the
    name is not one of the declared names that the error message lists. *)
Theorem inherited_name_found :
  forall (type : ltype) (self parent strategy : value) (m : loc) (om : obj)
         (name : string) (p : prop) (s : state),
    heap_get (st_heap s) self "parent" = Ret parent ->
    heap_get (st_heap s) parent (type_field type) = Ret (VRef m) ->
    st_heap s !! m = Some om ->
    lookup_prop name (o_props om) = None ->
    lookup_prop name (o_proto om) = Some p ->
    truthy strategy = false ->
    lookup_by type self name strategy s
    = (Ret (read_slot (st_heap s) m p), s)
    /\ ~ In name (keys (st_heap s) (VRef m)).
Proof.
  intros type self parent strategy m om name p s Hp Hm Hom Hown Hproto Hs.
  split.
  - assert (Hv : validate self name strategy type s = (Ret tt, s)).
    { unfold validate. js_step. rewrite Hp. js_step. rewrite Hm. js_step.
      unfold has_key. js_step. rewrite Hom, Hown, Hproto. js_step.
      rewrite Hs. js_step. reflexivity. }
    assert (Hg : heap_get (st_heap s) (VRef m) name
                 = Ret (read_slot (st_heap s) m p)).
    { simpl. rewrite Hom. unfold obj_get. now rewrite Hown, Hproto. }
    destruct type; simpl; unfold getElement, getSection; unfold bind at 1;
      rewrite Hv; js_step; rewrite Hp; js_step; simpl type_field in Hm;
      rewrite Hm; js_step; unfold get; now rewrite Hg.
  - unfold keys. rewrite Hom. unfold own_keys. intros Hin.
    apply in_map_iff in Hin. destruct Hin as ([k q] & Hk & Hin).
    simpl in Hk. subst k. apply filter_In in Hin. destruct Hin as [Hin _].
    clear - Hin Hown. induction (o_props om) as [|[k' q'] r IH];
      simpl in *; [contradiction|].
    destruct (String.eqb_spec name k') as [->|Hne]; [discriminate|].
    destruct Hin as [Heq|Hin]; [congruence|]. now apply IH.
Qed.


(** ** Further properties of the loader *)

Lemma addCommand_inv target fn name parent chai async ov s w s' :
  addCommand target fn name parent chai async ov s = (Ret w, s') ->
  w = VRef (S (length (st_heap s)))
  /\ s' = mkState
            (st_heap s ++
               [new_obj CCommand
                  [("parent", parent);
                   ("commandName", VStr name);
                   ("isChaiAssertion", chai);
                   ("isES6Async", or_false async);
                   ("isUserDefined", VBool (isUserDefinedElementCommand name))];
                mkObj (CWrapper (length (st_heap s)) fn) [] [] []])
            (st_calls s).
Proof.
  unfold addCommand. js_step.
  destruct (heap_get (st_heap s) target name) as [v| |]; try discriminate.
  destruct (truthy v && negb (truthy (or_false ov))); js_step;
    [discriminate|].
  unfold new_Command, createWrapper. js_step.
  rewrite length_app, <- app_assoc. simpl.
  replace (length (st_heap s) + 1) with (S (length (st_heap s))) by lia.
  intros [= <- <-]. split; reflexivity.
Qed.

(** X7. For a name that the target does not hold, or holds with a falsy
    value, [addCommand] builds a Command and a wrapper of the function and
    returns the wrapper, whether or not overwriting was asked for.  It calls
    nothing and changes no object: the target gets the command only by the
    caller's assignment.  The Command records the parent, the name, the two
    flags ([isES6Async] false when not given) and whether the name is a
    user-defined element command. *)
Theorem addCommand_fresh :
  forall (target fn parent chai async ov existing : value) (name : string)
         (s : state),
    heap_get (st_heap s) target name = Ret existing ->
    truthy existing = false ->
    exists (w cmd : loc) (s' : state),
      addCommand target fn name parent chai async ov s = (Ret (VRef w), s')
      /\ st_calls s' = st_calls s
      /\ (forall l o, st_heap s !! l = Some o -> st_heap s' !! l = Some o)
      /\ length (st_heap s) <= cmd
      /\ length (st_heap s) <= w
      /\ cls_of (st_heap s') (VRef w) = Some (CWrapper cmd fn)
      /\ st_heap s' !! cmd
         = Some (new_obj CCommand
                   [("parent", parent);
                    ("commandName", VStr name);
                    ("isChaiAssertion", chai);
                    ("isES6Async", or_false async);
                    ("isUserDefined",
                     VBool (negb (existsb (String.eqb name)
                                    getElementsCommandsStrict)))]).
Proof.
  intros target fn parent chai async ov existing name s Hget Hfalsy.
  exists (S (length (st_heap s))), (length (st_heap s)).
  eexists. split.
  { apply (addCommand_registers _ _ _ _ _ _ _ _ existing Hget).
    now rewrite Hfalsy. }
  cbn [st_heap st_calls]. split; [reflexivity|].
  split.
  { intros l o Ho. rewrite lookup_app_l by (eapply lookup_lt_Some; eassumption).
    exact Ho. }
  split; [lia|]. split; [lia|]. split.
  - unfold cls_of.
    change (st_heap s ++ [?x; ?y]) with (st_heap s ++ [x] ++ [y]).
    rewrite app_assoc, lookup_app_r by (rewrite length_app; simpl; lia).
    rewrite length_app. simpl.
    replace (S (length (st_heap s)) - (length (st_heap s) + 1)) with 0 by lia.
    reflexivity.
  - rewrite lookup_app_r by lia. rewrite Nat.sub_diag. reflexivity.
Qed.

(** X8. Registering a name makes it a duplicate: after the assignment
    [target[name] = addCommand(...)] has been made, [addCommand] for the same
    name on the same target without [overwrite] throws the duplicate error
    and changes nothing. *)
Theorem register_then_duplicate :
  forall (t : loc) (fn parent chai async ov w : value) (name : string)
         (s s1 : state),
    t < length (st_heap s) ->
    register (VRef t) fn name parent chai async ov s = (Ret w, s1) ->
    forall fn' parent' chai' async' ov',
      truthy (or_false ov') = false ->
      addCommand (VRef t) fn' name parent' chai' async' ov' s1
      = (Throw (Err "TypeError" (duplicate_message name)
                  [("displayed", VBool false); ("showTrace", VBool false)]),
         s1).
Proof.
  intros t fn parent chai async ov w name s s1 Ht Hreg
         fn' parent' chai' async' ov' Hov.
  unfold register in Hreg.
  apply bind_inv in Hreg. destruct Hreg as (w0 & s0 & Hadd & Hrest).
  apply addCommand_inv in Hadd. destruct Hadd as [-> ->].
  revert Hrest. js_step. intros [= <- <-].
  apply (addCommand_throws _ _ _ _ _ _ _ _ (VRef (S (length (st_heap s)))));
    [|reflexivity|exact Hov].
  cbn [st_heap]. apply heap_get_set_eq. rewrite length_app. lia.
Qed.

(** ** The assertion [urlMatches] *)

(** X9. [value] never gives a falsy value other than the empty string: an
    absent or falsy [result.value] becomes '', a missing argument counts as
    an empty result, and only [null] fails, with a TypeError.  No existing
    object changes and nothing is called. *)
Theorem urlMatches_value_default :
  forall (result : value) (s : state),
    (result = VNull ->
     exists msg, urlMatches_value result s = (Throw (Err "TypeError" msg []), s))
    /\ (result <> VNull ->
        exists v s',
          urlMatches_value result s = (Ret v, s')
          /\ (truthy v = true \/ v = VStr "")
          /\ (result = VUndef -> v = VStr "")
          /\ st_calls s' = st_calls s
          /\ (forall l o, st_heap s !! l = Some o -> st_heap s' !! l = Some o)).
Proof.
  intros result s. split.
  - intros ->. eexists. reflexivity.
  - intros Hnn. unfold urlMatches_value.
    destruct result as [| | | | |l]; try contradiction; js_step.
    + eexists _, _. split.
      { rewrite (lacks_get _ (length (st_heap s)) "value")
          by (now apply lacks_new).
        reflexivity. }
      cbn [st_heap st_calls]. repeat split; auto.
      intros l o Ho.
      rewrite lookup_app_l by (eapply lookup_lt_Some; eassumption). exact Ho.
    + eexists _, _. split; [reflexivity|]. repeat split; auto.
    + eexists _, _. split; [reflexivity|]. repeat split; auto.
    + eexists _, _. split; [reflexivity|]. repeat split; auto.
    + destruct (heap_get (st_heap s) (VRef l) "value") as [v| |] eqn:E;
        [|simpl in E; destruct (st_heap s !! l); discriminate..].
      eexists _, _. split; [reflexivity|]. repeat split; auto; try discriminate.
      destruct (truthy v) eqn:Ev; auto.
Qed.


(** ** The wrappers of the element API *)

Lemma has_field_reads h l k v : has_field h l k v -> reads h l k v.
Proof.
  intros (o & e & Ho & Hk). exists o. split; [assumption|].
  intros h'. unfold obj_get. now rewrite Hk.
Qed.

Lemma lacks_reads h l k : lacks h l k -> reads h l k VUndef.
Proof.
  intros (o & Ho & Hk & Hp). exists o. split; [assumption|].
  intros h'. unfold obj_get. now rewrite Hk, Hp.
Qed.

Lemma reads_get h l k v : reads h l k v -> heap_get h (VRef l) k = Ret v.
Proof. intros (o & Ho & Hk). simpl. now rewrite Ho, Hk. Qed.

Lemma reads_app h o l k v : reads h l k v -> reads (h ++ [o]) l k v.
Proof.
  intros (o' & Ho & Hk). exists o'. split; [|assumption].
  rewrite lookup_app_l by (eapply lookup_lt_Some; eassumption). assumption.
Qed.

Lemma reads_set_other h l k x l' k' v :
  reads h l' k' v -> l' <> l \/ k' <> k -> reads (heap_set h l k x) l' k' v.
Proof.
  intros (o & Ho & Hk) Hne. unfold heap_set.
  destruct (h !! l) as [ol|] eqn:Hl; [|exists o; auto].
  destruct (Nat.eq_dec l' l) as [->|Hl'].
  - destruct Hne as [Hne|Hne]; [congruence|].
    assert (ol = o) by congruence. subst ol.
    exists (with_props o (assign_prop k x (o_props o))). split.
    + apply list_lookup_insert_eq. eapply lookup_lt_Some; eassumption.
    + intros h'. rewrite <- (Hk h'). unfold obj_get. simpl.
      rewrite lookup_assign_ne by congruence. reflexivity.
  - exists o. split; [|assumption].
    rewrite list_lookup_insert_ne by congruence. assumption.
Qed.

Lemma wrapElementCommand_run parent lo target name f s :
  heap_get (st_heap s) (VRef lo) name = Ret f ->
  wrapElementCommand parent (VRef lo) target name s
  = (Ret (VRef (S (length (st_heap s)))),
     mkState ((st_heap s ++ [command_object parent name false])
                ++ [mkObj (CElementWrapper (length (st_heap s)) f target name)
                      [] [] []])
             (st_calls s)).
Proof.
  intros Hf. unfold wrapElementCommand, new_Command. js_step. rewrite Hf.
  js_step. rewrite length_app. simpl.
  replace (length (st_heap s) + 1) with (S (length (st_heap s))) by lia.
  reflexivity.
Qed.

(** The state one round of a wrapping loop leaves. *)
Lemma wrap_round parent lo ld target name f s :
  heap_get (st_heap s) (VRef lo) name = Ret f ->
  ld < length (st_heap s) ->
  exists s',
    (let* w := wrapElementCommand parent (VRef lo) target name in
     set (VRef ld) name w) s = (Ret tt, s')
    /\ st_calls s' = st_calls s
    /\ length (st_heap s) <= length (st_heap s')
    /\ wrapped (st_heap s') ld parent name f target
    /\ (forall l o, l <> ld -> st_heap s !! l = Some o ->
                    st_heap s' !! l = Some o)
    /\ (forall l v, cls_of (st_heap s) (VRef l) = Some v ->
                    cls_of (st_heap s') (VRef l) = Some v)
    /\ (forall l k v, l <> ld \/ k <> name -> has_field (st_heap s) l k v ->
                      has_field (st_heap s') l k v)
    /\ (forall l k v, l <> ld \/ k <> name -> reads (st_heap s) l k v ->
                      reads (st_heap s') l k v).
Proof.
  intros Hf Hld. eexists. split.
  { unfold bind at 1. rewrite (wrapElementCommand_run _ _ _ _ _ _ Hf).
    reflexivity. }
  cbn [st_heap st_calls]. set (n := length (st_heap s)).
  split; [reflexivity|]. split; [len_solve|]. split.
  { exists (S n), n. split; [field_solve|]. split; [cls_solve|].
    split; [unfold n; lia|].
    unfold heap_set.
    destruct (_ !! ld) as [old|]; [|now rewrite lookup_app_l, lookup_app_r,
                                      Nat.sub_diag by len_solve].
    rewrite list_lookup_insert_ne by (unfold n; lia).
    rewrite lookup_app_l, lookup_app_r by len_solve.
    now rewrite Nat.sub_diag. }
  split.
  { intros l o Hl Ho. unfold heap_set.
    assert (Hlt : l < length (st_heap s)) by (eapply lookup_lt_Some; eassumption).
    destruct (_ !! ld) as [old|];
      [rewrite list_lookup_insert_ne by congruence|];
      now rewrite !lookup_app_l by len_solve. }
  split.
  { intros l v Hc. rewrite heap_set_cls.
    assert (Hlt : l < length (st_heap s)).
    { unfold cls_of in Hc. destruct (st_heap s !! l) eqn:E; [|discriminate].
      eapply lookup_lt_Some; eassumption. }
    rewrite !cls_of_app_lt by len_solve. assumption. }
  split.
  { intros l k v Hne Hk. apply has_field_set_other; [|exact Hne].
    now apply has_field_app, has_field_app. }
  intros l k v Hne Hk. apply reads_set_other; [|exact Hne].
  now apply reads_app, reads_app.
Qed.


Lemma wrapped_kept (h h' : heap) ld parent name f target :
  wrapped h ld parent name f target ->
  (forall l o, ld < l -> h !! l = Some o -> h' !! l = Some o) ->
  (forall l v, cls_of h (VRef l) = Some v -> cls_of h' (VRef l) = Some v) ->
  (forall v, has_field h ld name v -> has_field h' ld name v) ->
  wrapped h' ld parent name f target.
Proof.
  intros (w & cmd & Hw & Hc & Hlt & Hcmd) Hsame Hcls Hfield.
  exists w, cmd. split; [now apply Hfield|]. split; [now apply Hcls|].
  split; [assumption|]. apply Hsame; assumption.
Qed.

(** A loop that wraps the functions [orig k] read on the object at [lo] and
    stores the wrappers under the same names on the object at [ld]. *)
Lemma wrap_loop parent lo ld target (J : state -> Prop)
    (step : string -> M unit) (orig : string -> value) :
  (forall k s, J s ->
     step k s = (let* w := wrapElementCommand parent (VRef lo) target k in
                 set (VRef ld) k w) s) ->
  (forall s s', J s ->
     (forall l o, l <> ld -> st_heap s !! l = Some o ->
                  st_heap s' !! l = Some o) -> J s') ->
  forall names s,
    List.NoDup names -> J s -> ld < length (st_heap s) ->
    (forall k, In k names -> reads (st_heap s) lo k (orig k)) ->
    exists s',
      iter step names s = (Ret tt, s')
      /\ st_calls s' = st_calls s
      /\ length (st_heap s) <= length (st_heap s')
      /\ (forall k, In k names ->
            wrapped (st_heap s') ld parent k (orig k) target)
      /\ (forall name f t, ~ In name names ->
            wrapped (st_heap s) ld parent name f t ->
            wrapped (st_heap s') ld parent name f t)
      /\ (forall l o, l <> ld -> st_heap s !! l = Some o ->
                      st_heap s' !! l = Some o)
      /\ (forall l v, cls_of (st_heap s) (VRef l) = Some v ->
                      cls_of (st_heap s') (VRef l) = Some v)
      /\ (forall l k v, l <> ld \/ ~ In k names ->
            has_field (st_heap s) l k v -> has_field (st_heap s') l k v).
Proof.
  intros Hstep HJ names. induction names as [|k r IH]; intros s Hnd Hj Hld Horig.
  - exists s. simpl. repeat split; auto. contradiction.
  - apply List.NoDup_cons_iff in Hnd. destruct Hnd as [Hk Hr].
    destruct (wrap_round parent lo ld target k (orig k) s
                (reads_get _ _ _ _ (Horig k (or_introl eq_refl))) Hld)
      as (s1 & Hrun & Hcalls1 & Hlen1 & Hw1 & Hsame1 & Hcls1 & Hf1 & Hr1).
    assert (Hj1 : J s1) by (eapply HJ; eassumption).
    destruct (IH s1 Hr Hj1 ltac:(lia)) as
      (s' & Hrun' & Hcalls' & Hlen' & Hw' & Hkeep' & Hsame' & Hcls' & Hf').
    { intros k' Hk'. apply Hr1; [|apply Horig; now right].
      right. intros ->. contradiction. }
    exists s'. split.
    { simpl. unfold bind at 1. rewrite (Hstep k s Hj), Hrun. exact Hrun'. }
    split; [congruence|]. split; [lia|]. split.
    { intros k' [<-|Hk']; [|now apply Hw'].
      now apply Hkeep'. }
    split.
    { intros name f t Hnot Hwr. apply Hkeep'; [intros Hin; apply Hnot; now right|].
      apply (wrapped_kept (st_heap s)); auto.
      { intros l o Hl. apply Hsame1. lia. }
      intros v. apply Hf1. right. intros ->. apply Hnot. now left. }
    split; [intros l o Hl Ho; apply Hsame'; auto|].
    split; [intros l v Hc; apply Hcls'; auto|].
    intros l k' v Hne Hfield. apply Hf'.
    { destruct Hne as [Hne|Hne]; [now left|right]. intros Hin. apply Hne.
      now right. }
    apply Hf1; [|assumption].
    destruct Hne as [Hne|Hne]; [now left|right]. intros ->. apply Hne. now left.
Qed.

(** X10. [wrapProtocolCommands] replaces each of the named commands of the
    API by a closure of [wrapElementCommand] around the function the API held
    under that name, with the API itself as target and a Command of its own.
    It calls nothing, leaves every other object and every other property of
    the API as they were, and always returns. *)
Theorem wrapProtocolCommands_wraps :
  forall (parent : value) (api : loc) (commands : list string) (s : state)
         (orig : string -> value),
    List.NoDup commands ->
    (forall k, In k commands -> reads (st_heap s) api k (orig k)) ->
    api < length (st_heap s) ->
    exists s',
      wrapProtocolCommands parent (VRef api) commands s = (Ret tt, s')
      /\ st_calls s' = st_calls s
      /\ (forall k, In k commands ->
            wrapped (st_heap s') api parent k (orig k) (VRef api))
      /\ (forall l o, l <> api -> st_heap s !! l = Some o ->
                      st_heap s' !! l = Some o)
      /\ (forall k v, ~ In k commands -> has_field (st_heap s) api k v ->
                      has_field (st_heap s') api k v).
Proof.
  intros parent api commands s orig Hnd Horig Hlt.
  destruct (wrap_loop parent api api (VRef api) (fun _ => True)
              (fun commandName =>
                 let* w := wrapElementCommand parent (VRef api) (VRef api)
                             commandName in
                 set (VRef api) commandName w)
              orig (fun _ _ _ => eq_refl) (fun _ _ _ _ => Logic.I)
              commands s Hnd Logic.I Hlt Horig)
    as (s' & Hrun & Hcalls & _ & Hw & _ & Hsame & _ & Hf).
  exists s'. split; [exact Hrun|]. split; [exact Hcalls|].
  split; [exact Hw|]. split; [exact Hsame|].
  intros k v Hk. apply Hf. now right.
Qed.






Lemma lacks_app h o l k : lacks h l k -> lacks (h ++ [o]) l k.
Proof.
  intros (o' & Ho & Hk). exists o'. split; [|assumption].
  rewrite lookup_app_l by (eapply lookup_lt_Some; eassumption). assumption.
Qed.

(** X12. On a command whose parent is not a Section and whose flag is not
    set, the closure of [wrapElementCommand] hands a literal selector to the
    original function as it came, with [targetApi] as [this]; before that
    call it has changed no object and called nothing. *)
Theorem element_wrapper_on_page :
  forall (c : loc) (originalFn targetApi p : value) (s : state)
         (cn lit : string) (rest : list value),
    has_field (st_heap s) c "commandName" (VStr cn) ->
    has_field (st_heap s) c "parent" p ->
    isSection (st_heap s) p = false ->
    lacks (st_heap s) c "onlyLocateSectionsRecursively" ->
    lit <> "" ->
    starts_with_at lit = false ->
    isElementCommand cn || isScopedElementCommand cn = true ->
    LocateStrategy_isValid (VStr lit)
      && isString (default VUndef (rest !! 0)) = false ->
    call_element_wrapper c originalFn targetApi cn (VStr lit :: rest) s
    = call_fn originalFn targetApi (VStr lit :: rest)
        (mkState ((st_heap s ++ [new_array (VStr lit :: rest)])
                    ++ [new_element (VStr lit) VNull])
                 (st_calls s)).
Proof.
  intros c originalFn targetApi p s cn lit rest
         Hcn Hpar Hsec Hflag Hlit Hat Hcmd Hpair.
  pose proof (has_field_lt _ _ _ _ Hcn) as Hc.
  unfold call_element_wrapper. js_step. unfold bind at 1.
  rewrite (literal_on_page_run c (length (st_heap s)) _ cn lit rest p);
    cbn [st_heap st_calls]; try assumption.
  - js_step.
    rewrite (lacks_get _ c "onlyLocateSectionsRecursively")
      by now apply lacks_app, lacks_app.
    js_step. cbn [truthy]. cbv iota.
    js_step. rewrite items_of_app by len_solve. now rewrite items_of_new.
  - field_solve.
  - field_solve.
  - rewrite isSection_app_other by discriminate. exact Hsec.
  - apply items_of_new.
Qed.


Lemma literal_on_section_run c a sp s cn lit rest chain :
  has_field (st_heap s) c "commandName" (VStr cn) ->
  has_field (st_heap s) c "parent" (VRef sp) ->
  isSection (st_heap s) (VRef sp) = true ->
  ancestry (st_heap s) sp chain ->
  items_of (st_heap s) (VRef a) = VStr lit :: rest ->
  lit <> "" ->
  starts_with_at lit = false ->
  isElementCommand cn || isScopedElementCommand cn = true ->
  LocateStrategy_isValid (VStr lit)
    && isString (default VUndef (rest !! 0)) = false ->
  parseElementSelector (VRef c) (VRef a) s
  = (Ret tt,
     mkState
       (heap_set0
          (let h3 :=
             (heap_set (st_heap s ++ [new_element (VStr lit) VNull])
                (length (st_heap s)) "parent" (VRef sp)
                ++ [new_array (chain ++ [VRef (length (st_heap s))])])
             ++ [new_element (VRef (S (length (st_heap s)))) (VStr "recursion")] in
           if isScopedElementCommand cn
           then heap_set h3 c "onlyLocateSectionsRecursively" (VBool true)
           else h3)
          a (VRef (S (S (length (st_heap s))))))
       (st_calls s)).
Proof.
  intros Hcn Hpar Hsec Hanc Hitems Hlit Hat Hcmd Hpair.
  pose proof (items_of_lt _ _ _ _ Hitems) as Ha.
  pose proof (ancestry_lt _ _ _ Hanc) as Hsp.
  pose proof (has_field_lt _ _ _ _ Hcn) as Hc.
  assert (Hposs : isPossibleElementSelector (st_heap s) (VStr lit) cn = true).
  { unfold isPossibleElementSelector. simpl.
    destruct (String.eqb lit "") eqn:E.
    - apply String.eqb_eq in E. contradiction.
    - simpl. rewrite Hat. exact Hcmd. }
  set (n := length (st_heap s)).
  rewrite parseElementSelector_unfold. unfold bind at 1.
  rewrite (getSelectorFromArgs_plain c a s cn (VStr lit) rest Hcn Hitems Hposs Hpair).
  assert (Ht : truthy (VStr lit) = true).
  { simpl. destruct (String.eqb lit "") eqn:E; [|reflexivity].
    apply String.eqb_eq in E. contradiction. }
  rewrite Ht. cbn [negb].
  unfold bind at 1. rewrite createFromSelector_string. fold n.
  unfold hasElementSelector. js_step.
  rewrite (has_field_get _ n "selector" (VStr lit)) by field_solve.
  js_step. rewrite Hat.
  rewrite (literal_branch_run c a sp n _ cn chain); cbn [st_heap st_calls].
  - rewrite length_app. simpl length. fold n.
    replace (n + 1) with (S n) by lia. reflexivity.
  - field_solve.
  - field_solve.
  - rewrite isSection_app; [exact Hsec|]. intros q [= <-]. exact Hsp.
  - now apply ancestry_app.
  - exact Hsp.
  - len_solve.
Qed.

Lemma array_pop_run l o s :
  st_heap s !! l = Some o ->
  o_cls o = CArray ->
  array_pop (VRef l) s
  = (Ret tt,
     mkState (<[l := with_items o (removelast (o_items o))]> (st_heap s))
             (st_calls s)).
Proof.
  intros Ho Hc. unfold array_pop. js_step. rewrite Ho.
  unfold isArray, cls_of. rewrite Ho. simpl. rewrite Hc. reflexivity.
Qed.

Lemma items_of_insert (h : heap) l o :
  l < length h -> items_of (<[l := o]> h) (VRef l) = o_items o.
Proof.
  intros Hl. unfold items_of. now rewrite list_lookup_insert_eq.
Qed.

Lemma has_field_insert_other (h : heap) l o l' k v :
  l' <> l -> has_field h l' k v -> has_field (<[l := o]> h) l' k v.
Proof.
  intros Hne (o' & e & Ho & Hk). exists o', e. split; [|assumption].
  now rewrite list_lookup_insert_ne by congruence.
Qed.


Lemma lookup_heap_set_other (h : heap) l k x l' :
  l <> l' -> heap_set h l k x !! l' = h !! l'.
Proof.
  intros Hne. unfold heap_set. destruct (h !! l); [|reflexivity].
  now rewrite list_lookup_insert_ne.
Qed.

Lemma lookup_heap_set0_other (h : heap) a x l' :
  a <> l' -> heap_set0 h a x !! l' = h !! l'.
Proof.
  intros Hne. unfold heap_set0. destruct (h !! a); [|reflexivity].
  now rewrite list_lookup_insert_ne.
Qed.

Lemma items_of_insert_other (h : heap) l o l' :
  l' <> l -> items_of (<[l := o]> h) (VRef l') = items_of h (VRef l').
Proof.
  intros Hne. unfold items_of. now rewrite list_lookup_insert_ne by congruence.
Qed.

Lemma cls_of_insert (h : heap) l o o' v :
  h !! l = Some o -> o_cls o' = o_cls o ->
  cls_of (<[l := o']> h) v = cls_of h v.
Proof.
  intros Ho Hc. destruct v as [| | | | |l']; try reflexivity. unfold cls_of.
  destruct (Nat.eq_dec l' l) as [->|Hne].
  - rewrite list_lookup_insert_eq by (eapply lookup_lt_Some; eassumption).
    rewrite Ho. simpl. now rewrite Hc.
  - now rewrite list_lookup_insert_ne by congruence.
Qed.

(** X13. The first call of a scoped element command on a Section with a
    literal selector: the closure of [wrapElementCommand] sets the flag,
    takes the literal off the recursion chain, hands the chain of the
    enclosing sections to [targetApi], and calls the method of what that
    returns with the original arguments.  Up to the call of [targetApi]
    nothing is called and no object that existed before changes, the Command
    apart. *)
Theorem scoped_literal_delegates :
  forall (c sp : loc) (originalFn targetApi : value) (s : state)
         (cn lit : string) (rest chain : list value),
    has_field (st_heap s) c "commandName" (VStr cn) ->
    has_field (st_heap s) c "parent" (VRef sp) ->
    isSection (st_heap s) (VRef sp) = true ->
    ancestry (st_heap s) sp chain ->
    lit <> "" ->
    starts_with_at lit = false ->
    isScopedElementCommand cn = true ->
    LocateStrategy_isValid (VStr lit)
      && isString (default VUndef (rest !! 0)) = false ->
    exists (s1 : state) (r arr : loc),
      call_element_wrapper c originalFn targetApi cn (VStr lit :: rest) s
      = (let* parentSectionElement := call_fn targetApi VUndef [VRef r] in
         let* method := get parentSectionElement cn in
         call_fn method parentSectionElement (VStr lit :: rest)) s1
      /\ st_calls s1 = st_calls s
      /\ flag_set c s1
      /\ cls_of (st_heap s1) (VRef r) = Some CElement
      /\ has_field (st_heap s1) r "locateStrategy" (VStr "recursion")
      /\ has_field (st_heap s1) r "selector" (VRef arr)
      /\ items_of (st_heap s1) (VRef arr) = chain
      /\ (forall l o, l <> c -> st_heap s !! l = Some o ->
                      st_heap s1 !! l = Some o).
Proof.
  intros c sp originalFn targetApi s cn lit rest chain
         Hcn Hpar Hsec Hanc Hlit Hat Hsc Hpair.
  pose proof (has_field_lt _ _ _ _ Hcn) as Hc.
  pose proof (ancestry_lt _ _ _ Hanc) as Hsp.
  set (n := length (st_heap s)).
  unfold call_element_wrapper. js_step. fold n. unfold bind at 1.
  rewrite (literal_on_section_run c n sp _ cn lit rest chain);
    cbn [st_heap st_calls]; try assumption.
  2: field_solve. 2: field_solve.
  2: { rewrite isSection_app; [exact Hsec|]. intros q [= <-]. exact Hsp. }
  2: now apply ancestry_app.
  2: apply items_of_new.
  2: { rewrite Hsc. apply orb_true_r. }
  rewrite Hsc. cbv zeta. rewrite length_app. simpl length. fold n.
  replace (n + 1) with (S n) by lia.
  set (h3 := (heap_set
                ((st_heap s ++ [new_array (VStr lit :: rest)])
                   ++ [new_element (VStr lit) VNull])
                (S n) "parent" (VRef sp)
                ++ [new_array (chain ++ [VRef (S n)])])
               ++ [new_element (VRef (S (S n))) (VStr "recursion")]).
  set (H := heap_set0
              (heap_set h3 c "onlyLocateSectionsRecursively" (VBool true))
              n (VRef (S (S (S n))))).
  assert (Hlen3 : length h3 = S (S (S (S n)))) by (unfold h3, n; len_solve).
  assert (HlenH : length H = S (S (S (S n)))).
  { unfold H. now rewrite heap_set0_length, heap_set_length. }
  assert (Harr : H !! S (S n) = Some (new_array (chain ++ [VRef (S n)]))).
  { unfold H. rewrite lookup_heap_set0_other by lia.
    rewrite lookup_heap_set_other by (unfold n; lia).
    unfold h3. rewrite lookup_app_l by len_solve.
    rewrite lookup_app_r by len_solve.
    rewrite heap_set_length, !length_app. simpl length. fold n.
    replace (S (S n) - (n + 1 + 1)) with 0 by lia. reflexivity. }
  assert (Hflag : has_field H c "onlyLocateSectionsRecursively" (VBool true)).
  { unfold H. apply has_field_set0, has_field_set_same. unfold n in *. lia. }
  assert (Hsel : has_field H (S (S (S n))) "selector" (VRef (S (S n)))).
  { unfold H. apply has_field_set0.
    apply has_field_set_other; [|right; discriminate].
    unfold h3. eapply has_field_new_at; [len_solve|reflexivity]. }
  assert (Hls : has_field H (S (S (S n))) "locateStrategy" (VStr "recursion")).
  { unfold H. apply has_field_set0.
    apply has_field_set_other; [|right; discriminate].
    unfold h3. eapply has_field_new_at; [len_solve|reflexivity]. }
  assert (Hit : items_of H (VRef n) = VRef (S (S (S n))) :: rest).
  { unfold H. rewrite items_of_set0_same by (rewrite heap_set_length; lia).
    rewrite items_of_heap_set. unfold h3.
    rewrite !items_of_app by len_solve. rewrite items_of_heap_set.
    rewrite items_of_app by len_solve. now rewrite items_of_new. }
  set (H' := <[S (S n) := with_items (new_array (chain ++ [VRef (S n)]))
                            (removelast (chain ++ [VRef (S n)]))]> H).
  exists (mkState H' (st_calls s)), (S (S (S n))), (S (S n)).
  split.
  { js_step. fold H. rewrite (has_field_get _ _ _ _ Hflag). js_step.
    cbn [truthy]. cbv iota. js_step. rewrite Hit.
    change (default VUndef ((VRef (S (S (S n))) :: rest) !! 0))
      with (VRef (S (S (S n)))).
    js_step. rewrite (has_field_get _ _ _ _ Hsel). cbv iota.
    unfold bind at 1.
    rewrite (array_pop_run (S (S n)) (new_array (chain ++ [VRef (S n)])))
      by (try exact Harr; reflexivity).
    cbn [st_heap st_calls]. fold H'. js_step.
    unfold H' at 1. rewrite items_of_insert_other by lia. rewrite Hit.
    reflexivity. }
  cbn [st_heap st_calls]. split; [reflexivity|].
  split; [unfold flag_set, H'; cbn [st_heap];
          apply has_field_insert_other; [unfold n in *; lia|exact Hflag]|].
  split.
  { unfold H'. rewrite (cls_of_insert _ _ _ _ _ Harr) by reflexivity.
    unfold H. rewrite heap_set0_cls, heap_set_cls. unfold h3.
    now rewrite cls_of_new_at by len_solve. }
  split; [apply has_field_insert_other; [lia|exact Hls]|].
  split; [apply has_field_insert_other; [lia|exact Hsel]|].
  split.
  { unfold H'. rewrite items_of_insert by lia. simpl.
    apply removelast_last. }
  intros l o Hl Ho.
  assert (Hlt : l < n) by (eapply lookup_lt_Some; eassumption).
  unfold H'. rewrite list_lookup_insert_ne by lia.
  unfold H. rewrite lookup_heap_set0_other by lia.
  rewrite lookup_heap_set_other by congruence.
  unfold h3. rewrite !lookup_app_l by len_solve.
  rewrite lookup_heap_set_other by lia.
  rewrite !lookup_app_l by (try rewrite length_app; simpl; lia). exact Ho.
Qed.


(** ** The closure of [createWrapper] *)

Lemma wrapper_invoke_unfold self commandFn this argv s :
  wrapper_invoke self commandFn this argv s
  = (let* a := alloc (new_array argv) in
     do wrapper_prelude self this (VRef a) argv then
     let* client := wrapper_client self this in
     let* result := executeCommand self commandFn (VRef a) client in
     ret (result, client)) s.
Proof.
  unfold wrapper_invoke, wrapper_prelude, wrapper_client.
  rewrite !bind_alloc. rewrite ?bind_bind.
  apply bind_ext_on. intros needs s1 _. rewrite ?bind_bind.
  apply bind_ext_on. intros [] s2 _. rewrite ?bind_bind.
  reflexivity.
Qed.

Lemma call_fn_inv f this args s r s' :
  call_fn f this args s = (Ret r, s') ->
  st_calls s' = st_calls s ++ [mkCall f this args].
Proof.
  unfold call_fn. destruct f as [| | | | |l]; try discriminate.
  destruct (isFunction (st_heap s) (VRef l)); [|discriminate].
  destruct (ext l this args (st_heap s)) as [o h']. now intros [= _ <-].
Qed.

Lemma wrapper_client_truthy self this s client s' :
  wrapper_client self this s = (Ret client, s') -> truthy client = true.
Proof.
  unfold wrapper_client. js_step.
  destruct (heap_get (st_heap s) this "client") as [c1| |]; try discriminate.
  destruct (truthy c1) eqn:E1; js_step; [now intros [= <- _]|].
  destruct (heap_get (st_heap s) self "parent") as [p| |]; try discriminate.
  js_step. destruct (truthy p) eqn:Ep; js_step.
  - destruct (heap_get (st_heap s) p "client") as [c2| |]; try discriminate.
    destruct (truthy c2) eqn:E2; js_step; [now intros [= <- _]|].
    now intros [= <- _].
  - rewrite Ep. js_step. now intros [= <- _].
Qed.


Lemma rest_is_alloc a rest s o :
  rest_is a rest s -> rest_is a rest (mkState (st_heap s ++ [o]) (st_calls s)).
Proof.
  intros [x Hx]. exists x. cbn [st_heap].
  rewrite items_of_app; [assumption|]. eapply items_of_lt; eassumption.
Qed.

Lemma rest_is_set a rest s l k x :
  rest_is a rest s ->
  rest_is a rest (mkState (heap_set (st_heap s) l k x) (st_calls s)).
Proof.
  intros [y Hy]. exists y. cbn [st_heap]. now rewrite items_of_heap_set.
Qed.

Lemma rest_is_set0 a rest s a' x :
  rest_is a rest s ->
  rest_is a rest (mkState (heap_set0 (st_heap s) a' x) (st_calls s)).
Proof.
  intros [y Hy]. unfold rest_is. cbn [st_heap].
  destruct (Nat.eq_dec a' a) as [->|Hne].
  - exists x. rewrite items_of_set0_same by (eapply items_of_lt; eassumption).
    now rewrite Hy.
  - exists y. rewrite items_of_set0_other by congruence. assumption.
Qed.

Lemma calls_wrapper_prelude cs self this args argv :
  preserves (fun st => st_calls st = cs) (wrapper_prelude self this args argv).
Proof. apply (preserves_wrapper_prelude _ (fun _ _ => True)); auto. Qed.

Lemma calls_wrapper_client cs self this :
  preserves (fun st => st_calls st = cs) (wrapper_client self this).
Proof. apply preserves_wrapper_client; auto. Qed.

Lemma rest_is_wrapper_prelude a rest self this args argv :
  preserves (rest_is a rest) (wrapper_prelude self this args argv).
Proof.
  apply (preserves_wrapper_prelude _ (fun _ _ => True)); auto.
  - apply rest_is_alloc.
  - intros st l k x _. apply rest_is_set.
  - apply rest_is_set0.
Qed.

Lemma rest_is_wrapper_client a rest self this :
  preserves (rest_is a rest) (wrapper_client self this).
Proof. apply preserves_wrapper_client. apply rest_is_alloc. Qed.

(** What the closure does before [executeCommand] makes no call, and
    replaces at most the first argument. *)
Lemma wrapper_before_call self this a argv s client s' :
  (do wrapper_prelude self this (VRef a) argv then wrapper_client self this) s
  = (Ret client, s') ->
  st_calls s' = st_calls s
  /\ (forall rest, rest_is a rest s -> rest_is a rest s').
Proof.
  intros H. apply bind_inv in H. destruct H as ([] & s1 & Hpre & Hcl).
  split.
  - pose proof (calls_wrapper_prelude (st_calls s) self this (VRef a) argv s
                  eq_refl) as H1.
    rewrite Hpre in H1.
    pose proof (calls_wrapper_client (st_calls s) self this s1 H1) as H2.
    now rewrite Hcl in H2.
  - intros rest Hr.
    pose proof (rest_is_wrapper_prelude a rest self this (VRef a) argv s Hr)
      as H1.
    rewrite Hpre in H1.
    pose proof (rest_is_wrapper_client a rest self this s1 H1) as H2.
    now rewrite Hcl in H2.
Qed.

(** X14. A call of the closure of [createWrapper] that gets as far as a
    result has called the wrapped function exactly once and nothing else, in
    a truthy context (the client of [this], else that of the parent, else a
    new object), and with as many arguments as the closure received: only
    the first one may have been replaced. *)
Theorem wrapper_calls_once :
  forall (self fn this : value) (argv : list value) (s s1 : state)
         (result client : value),
    wrapper_invoke self fn this argv s = (Ret (result, client), s1) ->
    truthy client = true
    /\ exists argv',
         st_calls s1 = st_calls s ++ [mkCall fn client argv']
         /\ length argv' = length argv
         /\ tl argv' = tl argv.
Proof.
  intros self fn this argv s s1 result client H.
  rewrite wrapper_invoke_unfold in H. rewrite bind_alloc in H.
  set (a := length (st_heap s)) in *.
  set (s0 := mkState (st_heap s ++ [new_array argv]) (st_calls s)) in *.
  rewrite <- bind_bind in H.
  apply bind_inv in H. destruct H as (cl & sc & Hbefore & H).
  apply bind_inv in H. destruct H as (res & sd & Hex & H).
  injection H as -> -> ->.
  destruct (wrapper_before_call _ _ _ _ _ _ _ Hbefore) as [Hcalls Hrest].
  split.
  { apply bind_inv in Hbefore. destruct Hbefore as (u & sb & _ & Hcl).
    eapply wrapper_client_truthy; eassumption. }
  rewrite executeCommand_unfold in Hex.
  apply bind_inv in Hex. destruct Hex as ([] & se & Hparse & Hex).
  rewrite bind_items in Hex. apply call_fn_inv in Hex.
  exists (items_of (st_heap se) (VRef a)).
  assert (Hcalls' : st_calls se = st_calls s).
  { pose proof (calls_parseElementSelector (st_calls sc) self
                  (parse_args (st_heap sc) (VRef a)) sc eq_refl) as Hp.
    rewrite Hparse in Hp. simpl in Hp. rewrite Hp, Hcalls. reflexivity. }
  split; [now rewrite Hex, Hcalls'|].
  assert (H0 : items_of (st_heap s0) (VRef a) = argv) by apply items_of_new.
  destruct argv as [|x rest].
  - apply bind_inv in Hbefore. destruct Hbefore as (u & sb & Hpre & Hcl).
    assert (sb = s0) as -> by (revert Hpre; unfold wrapper_prelude; js_step;
                               now intros [= _ <-]).
    pose proof (preserves_wrapper_client
                  (fun st => items_of (st_heap st) (VRef a) = []
                             /\ a < length (st_heap st))) as Hp.
    specialize (Hp ltac:(intros st o [Hi Hl]; cbn [st_heap]; split;
                         [now rewrite items_of_app|len_solve])
                   self this s0).
    rewrite Hcl in Hp. destruct Hp as [Hempty _].
    { split; [exact H0|]. unfold s0, a. cbn [st_heap]. len_solve. }
    cbn [snd] in Hempty.
    assert (Hpa : parse_args (st_heap sc) (VRef a) = VRef a).
    { unfold parse_args. now rewrite Hempty. }
    rewrite Hpa in Hparse.
    assert (se = sc) as ->.
    { revert Hparse. unfold parseElementSelector, getSelectorFromArgs.
      js_step. rewrite Hempty. cbn [lookup list_lookup default].
      destruct (heap_get (st_heap sc) self "commandName") as [cn| |];
        try discriminate.
      js_step. now intros [= <-]. }
    now rewrite Hempty.
  - destruct (Hrest rest) as [x' Hx'].
    { exists x. exact H0. }
    pose proof (rest_is_parseElementSelector a rest self
                  (parse_args (st_heap sc) (VRef a)) sc
                  (ex_intro _ x' Hx')) as Hp.
    rewrite Hparse in Hp. destruct Hp as [y Hy]. cbn [snd] in Hy.
    rewrite Hy. split; reflexivity.
Qed.


Lemma createFromSelector_descriptor d sl ls s :
  cls_of (st_heap s) (VRef d) = Some CObject ->
  has_field (st_heap s) d "selector" sl ->
  has_field (st_heap s) d "locateStrategy" ls ->
  Element_createFromSelector (VRef d) s
  = (Ret (VRef (length (st_heap s))),
     mkState (st_heap s ++ [new_element sl (null_of_undef ls)]) (st_calls s)).
Proof.
  intros Hc Hsl Hls. unfold Element_createFromSelector. js_step.
  unfold isObject, isFunction, isArray. rewrite Hc. simpl.
  js_step. rewrite (has_field_get _ _ _ _ Hsl). js_step.
  rewrite (has_field_get _ _ _ _ Hls). js_step. reflexivity.
Qed.

(** X15. Within a command ([this.__needsRecursion] set), the closure of a
    command that is not user-defined wraps a string first argument, a
    reference or a literal alike, into a 'recursion' Element whose chain is
    [this.__element] followed by a new Element for the string.  Resolution
    then leaves that argument alone, and the wrapped function is called with
    it in place of the string.  Before that call nothing is called and no
    existing object changes. *)
Theorem needs_recursion_chain :
  forall (self this : loc) (fn needs el ud cn : value) (s : state)
         (sel : string) (rest : list value),
    has_field (st_heap s) this "__needsRecursion" needs ->
    truthy needs = true ->
    has_field (st_heap s) this "__element" el ->
    has_field (st_heap s) self "isUserDefined" ud ->
    truthy ud = false ->
    has_field (st_heap s) self "commandName" cn ->
    exists (s1 : state) (e arr ie : loc),
      wrapper_invoke (VRef self) fn (VRef this) (VStr sel :: rest) s
      = (let* client := wrapper_client (VRef self) (VRef this) in
         let* result := call_fn fn client (VRef e :: rest) in
         ret (result, client)) s1
      /\ st_calls s1 = st_calls s
      /\ (forall l o, st_heap s !! l = Some o -> st_heap s1 !! l = Some o)
      /\ cls_of (st_heap s1) (VRef e) = Some CElement
      /\ has_field (st_heap s1) e "locateStrategy" (VStr "recursion")
      /\ has_field (st_heap s1) e "selector" (VRef arr)
      /\ items_of (st_heap s1) (VRef arr) = [el; VRef ie]
      /\ cls_of (st_heap s1) (VRef ie) = Some CElement
      /\ has_field (st_heap s1) ie "selector" (VStr sel).
Proof.
  intros self this fn needs el ud cn s sel rest Hn Hnt Hel Hud Hudf Hcn.
  pose proof (has_field_lt _ _ _ _ Hn) as Hthis.
  pose proof (has_field_lt _ _ _ _ Hud) as Hself.
  set (n := length (st_heap s)).
  set (h4 := (((st_heap s ++ [new_array (VStr sel :: rest)])
                 ++ [new_element (VStr sel) VNull])
                ++ [new_array [el; VRef (S n)]])
               ++ [new_obj CObject [("locateStrategy", VStr "recursion");
                                    ("selector", VRef (S (S n)))]]).
  set (h5 := h4 ++ [new_element (VRef (S (S n))) (VStr "recursion")]).
  set (s1 := mkState (heap_set0 h5 n (VRef (S (S (S (S n)))))) (st_calls s)).
  assert (Hlen4 : length h4 = S (S (S (S n)))) by (unfold h4, n; len_solve).
  assert (Hlen5 : length h5 = S (S (S (S (S n))))) by (unfold h5; len_solve).
  exists s1, (S (S (S (S n)))), (S (S n)), (S n).
  assert (Hpre : wrapper_prelude (VRef self) (VRef this) (VRef n)
                   (VStr sel :: rest)
                   (mkState (st_heap s ++ [new_array (VStr sel :: rest)])
                            (st_calls s))
                 = (Ret tt, s1)).
  { unfold wrapper_prelude. js_step.
    rewrite (has_field_get _ this "__needsRecursion" needs) by field_solve.
    js_step. rewrite Hnt. js_step. fold n. rewrite items_of_new.
    change (default VUndef (o_items (new_array (VStr sel :: rest)) !! 0))
      with (VStr sel).
    unfold bind at 1. rewrite createFromSelector_string. js_step.
    rewrite (has_field_get _ self "isUserDefined" ud) by field_solve.
    js_step.
    rewrite (has_field_get _ this "__element" el) by field_solve.
    rewrite Hudf. js_step.
    rewrite !length_app. simpl length. fold n.
    replace (n + 1) with (S n) by lia.
    replace (S n + 1) with (S (S n)) by lia.
    replace (S (S n) + 1) with (S (S (S n))) by lia.
    fold h4. unfold bind at 1.
    rewrite (createFromSelector_descriptor (S (S (S n))) (VRef (S (S n)))
               (VStr "recursion"));
      cbn [st_heap st_calls].
    - rewrite Hlen4. fold h5. now rewrite args_set0_run.
    - unfold h4. now rewrite cls_of_new_at by len_solve.
    - unfold h4. eapply has_field_new_at; [len_solve|reflexivity].
    - unfold h4. eapply has_field_new_at; [len_solve|reflexivity]. }
  assert (He_sel : has_field (st_heap s1) (S (S (S (S n)))) "selector"
                     (VRef (S (S n)))).
  { unfold s1. cbn [st_heap]. apply has_field_set0. unfold h5.
    eapply has_field_new_at; [len_solve|reflexivity]. }
  assert (He_cls : cls_of (st_heap s1) (VRef (S (S (S (S n))))) = Some CElement).
  { unfold s1. cbn [st_heap]. rewrite heap_set0_cls. unfold h5.
    now rewrite cls_of_new_at by len_solve. }
  assert (Hitems : items_of (st_heap s1) (VRef n)
                   = VRef (S (S (S (S n)))) :: rest).
  { unfold s1. cbn [st_heap]. rewrite items_of_set0_same by lia.
    unfold h5, h4. rewrite !items_of_app by len_solve.
    now rewrite items_of_new. }
  split.
  { rewrite wrapper_invoke_unfold, bind_alloc. fold n. unfold bind at 1.
    rewrite Hpre. apply bind_ext_on. intros client s2 Hcl.
    set (e := S (S (S (S n)))) in *.
    pose proof (preserves_wrapper_client
                  (fun st => has_field (st_heap st) self "commandName" cn
                             /\ items_of (st_heap st) (VRef n) = VRef e :: rest
                             /\ has_field (st_heap st) e "selector"
                                  (VRef (S (S n)))
                             /\ cls_of (st_heap st) (VRef e) = Some CElement
                             /\ lacks (st_heap st) e "args")) as Hp.
    specialize (Hp ltac:(intros st o (H1 & H2 & H3 & H4 & H5); cbn [st_heap];
                         pose proof (items_of_lt _ _ _ _ H2);
                         pose proof (has_field_lt _ _ _ _ H3);
                         repeat split;
                         [ now apply has_field_app
                         | now rewrite items_of_app
                         | now apply has_field_app
                         | now rewrite cls_of_app_lt
                         | now apply lacks_app ])
                   (VRef self) (VRef this) s1).
    rewrite Hcl in Hp. cbn [snd] in Hp.
    destruct Hp as (H1 & H2 & H3 & H4 & H5).
    { repeat split; try assumption.
      - unfold s1. cbn [st_heap]. apply has_field_set0. unfold h5, h4.
        now do 5 apply has_field_app.
      - unfold s1. cbn [st_heap].
        destruct (has_field_set0 h5 n (VRef e) e "selector" (VRef (S (S n))))
          as (o & en & Ho & _).
        { unfold h5. eapply has_field_new_at; [len_solve|reflexivity]. }
        exists (new_element (VRef (S (S n))) (VStr "recursion")).
        split; [|split; reflexivity].
        rewrite lookup_heap_set0_other by (unfold e; lia).
        unfold h5. rewrite lookup_app_r by lia.
        rewrite Hlen4. unfold e. now rewrite Nat.sub_diag. }
    assert (Hpa : parse_args (st_heap s2) (VRef n) = VRef n).
    { unfold parse_args. rewrite H2.
      change (default VUndef ((VRef e :: rest) !! 0)) with (VRef e).
      unfold isObject, isFunction. rewrite H4. cbn [negb].
      rewrite (lacks_get _ _ _ H5). reflexivity. }
    destruct (executeCommand_plain (VRef self) fn client cn n s2
                (has_field_get _ _ _ _ H1)) as [_ Hx].
    { rewrite Hpa, H2.
      change (default VUndef ((VRef e :: rest) !! 0)) with (VRef e).
      unfold isPossibleElementSelector, isArray, isObject, isFunction.
      rewrite H4. cbn [truthy negb].
      rewrite (has_field_get _ _ _ _ H3). cbn [isString].
      apply andb_false_r. }
    unfold bind. now rewrite Hx, H2. }
  split; [reflexivity|]. split.
  { intros l o Ho.
    assert (Hlt : l < n) by (eapply lookup_lt_Some; eassumption).
    unfold s1. cbn [st_heap]. rewrite lookup_heap_set0_other by lia.
    unfold h5, h4. rewrite !lookup_app_l by len_solve. exact Ho. }
  split; [exact He_cls|]. split.
  { unfold s1. cbn [st_heap]. apply has_field_set0. unfold h5.
    eapply has_field_new_at; [len_solve|reflexivity]. }
  split; [exact He_sel|]. split.
  { unfold s1. cbn [st_heap]. rewrite items_of_set0_other by lia.
    unfold h5, h4. rewrite !items_of_app by len_solve.
    now rewrite items_of_new_at by len_solve. }
  split.
  { unfold s1. cbn [st_heap]. rewrite heap_set0_cls. unfold h5, h4.
    rewrite !cls_of_app_lt by len_solve.
    now rewrite cls_of_new_at by len_solve. }
  unfold s1. cbn [st_heap]. apply has_field_set0. unfold h5, h4.
  do 3 apply has_field_app.
  eapply has_field_new_at; [len_solve|reflexivity].
Qed.


(** ** The properties a returned promise receives *)

Lemma assign_loop_copies r pl op ks k v en s :
  r <> pl ->
  st_heap s !! pl = Some op ->
  r < length (st_heap s) ->
  lookup_prop k (o_props op) = Some (mkProp (Data v) en) ->
  In k ks \/ has_field (st_heap s) r k v ->
  exists s',
    iter (fun k => let* v := get (VRef pl) k in set (VRef r) k v) ks s
    = (Ret tt, s')
    /\ has_field (st_heap s') r k v
    /\ only_props_at r s s'.
Proof.
  intros Hne Hop Hr Hk. revert s Hop Hr.
  induction ks as [|k' ks IH]; intros s Hop Hr Hin; simpl.
  - exists s. destruct Hin as [[]|Hf].
    split; [reflexivity|]. split; [exact Hf|apply only_props_at_refl].
  - js_step. simpl heap_get. rewrite Hop. js_step.
    set (s1 := mkState (heap_set (st_heap s) r k' (obj_get (st_heap s) pl op k'))
                       (st_calls s)).
    destruct (IH s1) as (s' & Hrun & Hf & Honly).
    + unfold s1. cbn [st_heap]. rewrite lookup_heap_set_other by congruence.
      exact Hop.
    + unfold s1. cbn [st_heap]. now rewrite heap_set_length.
    + destruct (string_dec k' k) as [->|Hk'].
      * right. unfold s1. cbn [st_heap]. unfold obj_get. rewrite Hk.
        now apply has_field_set_same.
      * destruct Hin as [[Heq|Hin]|Hf]; [contradiction|now left|].
        right. unfold s1. cbn [st_heap].
        apply has_field_set_other; [exact Hf|]. right. congruence.
    + exists s'. split; [exact Hrun|]. split; [exact Hf|].
      eapply only_props_at_trans; [apply only_props_at_set|exact Honly].
Qed.

Lemma define_all_other proto names ps k :
  k = "constructor" \/ lookup_prop k proto = None ->
  lookup_prop k (define_all proto names ps) = lookup_prop k ps.
Proof.
  intros Hk. revert ps. induction names as [|k' names IH]; intros ps; simpl;
    [reflexivity|].
  rewrite IH. destruct (String.eqb_spec k' "constructor") as [->|Hc];
    [reflexivity|].
  destruct (lookup_prop k' proto) as [d|] eqn:Hd; [|reflexivity].
  apply lookup_define_ne. intros ->. destruct Hk as [->|Hk]; congruence.
Qed.

(** X16. The promise a command returns to be chained on also receives the
    parent's own enumerable data properties ([Object.assign]): each of them
    that no property of the parent's prototype overrides ends up on the
    promise with the parent's value. *)
Theorem promise_gets_own_properties :
  forall (self r pl : loc) (fn this client v : value) (argv : list value)
         (s s1 : state) (k : string),
    wrapper_invoke (VRef self) fn this argv s = (Ret (VRef r, client), s1) ->
    truthy (read (st_heap s1) (VRef self) "isChaiAssertion") = false ->
    read (st_heap s1) (VRef self) "parent" = VRef pl ->
    isPromise (st_heap s1) (VRef r) = true ->
    cls_of (st_heap s1) (VRef pl) = Some CPage
    \/ truthy (read (st_heap s1) client "isES6AsyncTestcase") = true ->
    r <> pl ->
    lookup_prop k (own_props (st_heap s1) (VRef pl))
    = Some (mkProp (Data v) true) ->
    k = "constructor"
    \/ lookup_prop k (proto_props (st_heap s1) (VRef pl)) = None ->
    exists (s2 : state) (e : bool),
      call_wrapper (VRef self) fn this argv s = (Ret (VRef r), s2)
      /\ lookup_prop k (own_props (st_heap s2) (VRef r))
         = Some (mkProp (Data v) e).
Proof.
  intros self r pl fn this client v argv s s1 k
         Hinv Hchai Hparent Hprom Hpage Hne Hown Hproto.
  pose proof (wrapper_invoke_client _ _ _ _ _ _ _ _ Hinv) as Hclient.
  assert (Hcall : call_wrapper (VRef self) fn this argv s
                  = wrapper_return (VRef self) (VRef r) client s1).
  { unfold call_wrapper, bind. now rewrite Hinv. }
  rewrite Hcall, (wrapper_return_unfold _ _ _ _ Hclient).
  rewrite Hchai, Hprom, Hparent.
  assert (Hor : (match cls_of (st_heap s1) (VRef pl) with
                 | Some CPage => true
                 | _ => false
                 end)
                || truthy (read (st_heap s1) client "isES6AsyncTestcase")
                = true).
  { destruct Hpage as [-> | ->]; [reflexivity|apply orb_true_r]. }
  unfold isPageCtor. js_step. rewrite Hor.
  destruct (st_heap s1 !! r) as [o|] eqn:Ho.
  2:{ unfold isPromise, cls_of in Hprom. rewrite Ho in Hprom. discriminate. }
  destruct (st_heap s1 !! pl) as [op|] eqn:Hop.
  2:{ unfold own_props in Hown. rewrite Hop in Hown. discriminate. }
  unfold own_props in Hown. unfold proto_props in Hproto.
  rewrite Hop in Hown, Hproto.
  assert (Hr : r < length (st_heap s1)) by (eapply lookup_lt_Some; eauto).
  unfold augment, Object_assign. js_step. unfold own_props at 1. rewrite Hop.
  destruct (assign_loop_copies r pl op (own_keys (o_props op)) k v true s1
              Hne Hop Hr Hown)
    as (s2 & Hrun & Hf & _ & _ & Hsame & _).
  { left. now apply (own_keys_In k (mkProp (Data v) true)). }
  unfold bind at 1. rewrite Hrun. js_step.
  destruct Hf as (o2 & e & Ho2 & Hk2).
  assert (Hpl2 : st_heap s2 !! pl = Some op).
  { rewrite Hsame by congruence. exact Hop. }
  unfold proto_props. rewrite Hpl2.
  unfold bind at 1. rewrite (define_loop r _ _ s2 o2 Ho2). js_step.
  eexists _, e. split; [reflexivity|]. cbn [st_heap]. unfold own_props.
  rewrite list_lookup_insert_eq by (eapply lookup_lt_Some; eauto).
  simpl. rewrite define_all_other by exact Hproto. exact Hk2.
Qed.


(** ** What loading commands never does *)

Lemma calls_applyCommandsToTarget cs parent target commands :
  preserves (fun st => st_calls st = cs)
    (applyCommandsToTarget parent target commands).
Proof.
  apply (preserves_applyCommandsToTarget _ (fun _ _ => True)); auto.
Qed.

(** X17. Loading commands runs none of them: [applyCommandsToTarget] calls no
    function, whatever it is given and whether it returns or throws, and no
    object disappears or changes its class. *)
Theorem loading_calls_nothing :
  forall (parent target commands : value) (s : state),
    let s' := snd (applyCommandsToTarget parent target commands s) in
    st_calls s' = st_calls s
    /\ forall l c, cls_of (st_heap s) (VRef l) = Some c ->
                   cls_of (st_heap s') (VRef l) = Some c.
Proof.
  intros parent target commands s s'. split.
  - now apply calls_applyCommandsToTarget.
  - intros l c Hc.
    apply (preserves_applyCommandsToTarget
             (fun st => cls_of (st_heap st) (VRef l) = Some c)
             (fun _ _ => True)); auto.
    + intros st o H. cbn [st_heap]. rewrite cls_of_app_lt; [exact H|].
      unfold cls_of in H. destruct (st_heap st !! l) eqn:E; [|discriminate].
      eapply lookup_lt_Some; eassumption.
    + intros st l' k x _ H. cbn [st_heap]. now rewrite heap_set_cls.
Qed.

(** X18. [addWrappedCommandsAsync] calls the loader once, without [this] and
    with a new empty object as its only argument, and calls nothing else;
    when it returns, it returns what the loader returned. *)
Theorem addWrappedCommandsAsync_loader :
  forall (parent commandLoader r : value) (s s' : state),
    addWrappedCommandsAsync parent commandLoader s = (Ret r, s') ->
    let commands := length (st_heap s) in
    st_calls s' = st_calls s ++ [mkCall commandLoader VUndef [VRef commands]]
    /\ exists l h1,
         commandLoader = VRef l
         /\ ext l VUndef [VRef commands] (st_heap s ++ [new_obj CObject []])
            = (Ret r, h1).
Proof.
  intros parent commandLoader r s s' H commands.
  unfold addWrappedCommandsAsync in H. rewrite bind_alloc in H.
  apply bind_inv in H. destruct H as (w & s1 & Hcall & H).
  apply bind_inv in H. destruct H as ([] & s2 & Happly & H).
  injection H as -> ->.
  pose proof (call_fn_inv _ _ _ _ _ _ Hcall) as Hcalls.
  cbn [st_calls] in Hcalls. fold commands in Hcalls.
  split.
  - pose proof (calls_applyCommandsToTarget (st_calls s1) parent parent r
                  s1 eq_refl) as Hp.
    rewrite Happly in Hp. cbn [snd] in Hp. now rewrite Hp.
  - revert Hcall. unfold call_fn.
    destruct commandLoader as [| | | | |l]; try discriminate.
    cbn [st_heap st_calls].
    destruct (isFunction _ (VRef l)); [|discriminate].
    fold commands.
    destruct (ext l VUndef [VRef commands] (st_heap s ++ [new_obj CObject []]))
      as [o h1] eqn:E.
    intros [= -> _]. exists l, h1. split; [reflexivity|exact E].
Qed.


(** ** The commands of a namespace *)

Section Namespaces.

Variables (h0 : heap) (t c nsl : loc) (oc on : obj) (parent : value)
          (ns k : string) (fn : value).
Hypothesis Ht : t < length h0.
Hypothesis Htc : t <> c.
Hypothesis Htn : t <> nsl.
Hypothesis Hns : isAllowedNamespace ns = true.
Hypothesis Hnsv :
  lookup_prop ns (o_props oc) = Some (mkProp (Data (VRef nsl)) true).
Hypothesis Hk : lookup_prop k (o_props on) = Some (mkProp (Data fn) true).

#[local] Set Default Proof Using "Ht Htc Htn Hns Hnsv Hk".

Local Abbreviation slot_ok := (ns_slot_ok h0 t c nsl).
Local Abbreviation Inv := (ns_inv h0 t c nsl oc on).
Local Abbreviation Done := (ns_registered h0 t parent ns k fn).

Lemma ns_slot_ok_app s o cs v :
  slot_ok s v -> slot_ok (mkState (st_heap s ++ [o]) cs) v.
Proof.
  intros Hv l Hl. destruct (Hv l Hl) as (H1 & H2 & H3 & H4).
  repeat (split; [assumption|]).
  destruct H4 as [H4|H4]; [now left|right]. cbn [st_heap].
  rewrite cls_of_app_lt; [exact H4|].
  unfold cls_of in H4. destruct (st_heap s !! l) eqn:E; [|discriminate].
  eapply lookup_lt_Some; eauto.
Qed.

Lemma ns_slot_ok_set s l key x cs v :
  slot_ok s v -> slot_ok (mkState (heap_set (st_heap s) l key x) cs) v.
Proof.
  intros Hv l0 Hl. destruct (Hv l0 Hl) as (H1 & H2 & H3 & H4).
  repeat (split; [assumption|]).
  destruct H4 as [H4|H4]; [now left|right]. cbn [st_heap].
  now rewrite heap_set_cls.
Qed.

Lemma ns_inv_app s o cs : Inv s -> Inv (mkState (st_heap s ++ [o]) cs).
Proof.
  intros (Hlen & Hcs & Hon & Hslots). unfold ns_inv. cbn [st_heap].
  split; [rewrite length_app; lia|].
  split; [rewrite lookup_app_l; [exact Hcs|]; eapply lookup_lt_Some; eauto|].
  split; [rewrite lookup_app_l; [exact Hon|]; eapply lookup_lt_Some; eauto|].
  intros ns' Ha. destruct (Hslots ns' Ha) as [Hl|(v & Hv & Hok)].
  - left. now apply lacks_app.
  - right. exists v. split; [now apply has_field_app|now apply ns_slot_ok_app].
Qed.

(** An assignment to an object that is none of the target, the commands
    object and the namespace's commands. *)
Lemma ns_inv_set_other s l key x cs :
  Inv s -> l <> t -> l <> c -> l <> nsl ->
  Inv (mkState (heap_set (st_heap s) l key x) cs).
Proof.
  intros (Hlen & Hcs & Hon & Hslots) H1 H2 H3. unfold ns_inv. cbn [st_heap].
  split; [rewrite heap_set_length; lia|].
  split; [now rewrite lookup_heap_set_other|].
  split; [now rewrite lookup_heap_set_other|].
  intros ns' Ha. destruct (Hslots ns' Ha) as [Hl|(v & Hv & Hok)].
  - left. apply lacks_set_other; [exact Hl|left; congruence].
  - right. exists v. split.
    + apply has_field_set_other; [exact Hv|left; congruence].
    + now apply ns_slot_ok_set.
Qed.

Lemma ns_inv_set_target s key x cs :
  Inv s ->
  (isAllowedNamespace key = true -> slot_ok s x) ->
  Inv (mkState (heap_set (st_heap s) t key x) cs).
Proof.
  intros (Hlen & Hcs & Hon & Hslots) Hx. unfold ns_inv. cbn [st_heap].
  split; [rewrite heap_set_length; lia|].
  split; [now rewrite lookup_heap_set_other|].
  split; [now rewrite lookup_heap_set_other|].
  intros ns' Ha. destruct (string_dec key ns') as [->|Hne].
  - right. exists x. split; [apply has_field_set_same; lia|].
    apply ns_slot_ok_set. auto.
  - destruct (Hslots ns' Ha) as [Hl|(v & Hv & Hok)].
    + left. apply lacks_set_other; [exact Hl|right; congruence].
    + right. exists v. split.
      * apply has_field_set_other; [exact Hv|right; congruence].
      * now apply ns_slot_ok_set.
Qed.

Lemma ns_done_app s o cs : Done s -> Done (mkState (st_heap s ++ [o]) cs).
Proof.
  intros (sl & w & cmd & H1 & H2 & H3 & H4 & H5 & H6).
  exists sl, w, cmd. cbn [st_heap].
  split; [now apply has_field_app|]. split; [assumption|].
  split; [now apply has_field_app|]. split.
  { rewrite cls_of_app_lt; [exact H4|].
    unfold cls_of in H4. destruct (st_heap s !! w) eqn:E; [|discriminate].
    eapply lookup_lt_Some; eauto. }
  split; [assumption|].
  rewrite lookup_app_l; [exact H6|]. eapply lookup_lt_Some; eauto.
Qed.

(** An assignment that overwrites neither the namespace on the target nor
    the command in the namespace, on an object that is no new Command. *)
Lemma ns_done_set s l key x cs :
  Done s ->
  (l = t -> key <> ns) ->
  (has_field (st_heap s) t ns (VRef l) -> key <> k) ->
  l < length h0 \/ cls_of (st_heap s) (VRef l) <> Some CCommand ->
  Done (mkState (heap_set (st_heap s) l key x) cs).
Proof.
  intros (sl & w & cmd & H1 & H2 & H3 & H4 & H5 & H6) Ht' Hsl Hcmd.
  exists sl, w, cmd. cbn [st_heap].
  split.
  { apply has_field_set_other; [exact H1|].
    destruct (Nat.eq_dec t l) as [<-|Hne]; [right|now left].
    intros ->. now apply Ht'. }
  split; [assumption|]. split.
  { apply has_field_set_other; [exact H3|].
    destruct (Nat.eq_dec sl l) as [<-|Hne]; [right|now left].
    intros ->. now apply Hsl. }
  split; [now rewrite heap_set_cls|]. split; [assumption|].
  rewrite lookup_heap_set_other; [exact H6|].
  intros ->. destruct Hcmd as [Hcmd|Hcmd]; [lia|].
  apply Hcmd. unfold cls_of. now rewrite H6.
Qed.

Lemma has_field_inj h l key v v' :
  has_field h l key v -> has_field h l key v' -> v = v'.
Proof.
  intros (o & e & Ho & Hv) (o' & e' & Ho' & Hv'). congruence.
Qed.

Lemma Object_keys_same v s ks s' : Object_keys v s = (Ret ks, s') -> s' = s.
Proof. destruct v; simpl; intros H; inversion H; reflexivity. Qed.

Lemma ns_register_step l f key chai s w s' :
  register (VRef l) f key parent chai VUndef VUndef s = (Ret w, s') ->
  l <> c -> l <> t -> l <> nsl ->
  l < length h0 \/ cls_of (st_heap s) (VRef l) = Some CObject ->
  Inv s ->
  Inv s'
  /\ (Done s -> Done s')
  /\ (has_field (st_heap s) t ns (VRef l) -> key = k -> f = fn ->
      chai = VBool (String.eqb ns "expect") -> Done s').
Proof.
  intros Hreg Hlc Hlt Hln Hold HInv.
  apply register_inv in Hreg as (l' & cur & [= <-] & Hcur & Hfalsy & -> & ->).
  match goal with
  | |- context [st_heap s ++ [?a; ?b]] => set (cmdo := a); set (wo := b)
  end.
  replace (st_heap s ++ [cmdo; wo]) with ((st_heap s ++ [cmdo]) ++ [wo])
    by (now rewrite <- app_assoc).
  set (sm := mkState ((st_heap s ++ [cmdo]) ++ [wo]) (st_calls s)).
  assert (Hl : l < length (st_heap s)).
  { destruct HInv as (Hlen & _). destruct Hold as [Hold|Hold]; [lia|].
    unfold cls_of in Hold. destruct (st_heap s !! l) eqn:E; [|discriminate].
    eapply lookup_lt_Some; eauto. }
  assert (HInvm : Inv sm).
  { apply (ns_inv_app (mkState (st_heap s ++ [cmdo]) (st_calls s))).
    now apply ns_inv_app. }
  assert (HDonem : Done s -> Done sm).
  { intros HD.
    apply (ns_done_app (mkState (st_heap s ++ [cmdo]) (st_calls s))).
    now apply ns_done_app. }
  assert (Hclsm : forall v, cls_of (st_heap s) (VRef l) = Some v ->
                            cls_of (st_heap sm) (VRef l) = Some v).
  { intros v Hv. unfold sm. cbn [st_heap].
    rewrite !cls_of_app_lt by len_solve. exact Hv. }
  split; [now apply (ns_inv_set_other sm)|]. split.
  - intros HD. apply (ns_done_set sm); [now apply HDonem|congruence| |].
    + intros Hslot ->. destruct HD as (sl & w0 & cmd & H1 & _ & H3 & _).
      assert (Hsl : has_field (st_heap sm) t ns (VRef sl))
        by (unfold sm; cbn [st_heap]; now apply has_field_app, has_field_app).
      pose proof (has_field_inj _ _ _ _ _ Hslot Hsl) as [= ->].
      rewrite (has_field_get _ _ _ _ H3) in Hcur. inversion Hcur; subst.
      discriminate.
    + destruct Hold as [Hold|Hold]; [now left|right].
      rewrite (Hclsm _ Hold). discriminate.
  - intros Hslot -> -> ->.
    exists l, (S (length (st_heap s))), (length (st_heap s)). cbn [st_heap].
    split.
    { apply has_field_set_other; [|left; congruence].
      now apply has_field_app, has_field_app. }
    split; [assumption|].
    split; [apply has_field_set_same; len_solve|].
    split.
    { rewrite heap_set_cls. now rewrite cls_of_new_at by len_solve. }
    split; [destruct HInv as (Hlen & _); exact Hlen|].
    rewrite lookup_heap_set_other by lia.
    rewrite lookup_app_l, lookup_app_r by len_solve.
    now rewrite Nat.sub_diag.
Qed.

Lemma ns_inner_loop ns' nsv nsNames v s s' :
  has_field (st_heap s) t ns' v ->
  slot_ok s v ->
  Inv s ->
  iter (fun nsCommandName =>
          let* slot := get (VRef t) ns' in
          let* f := get nsv nsCommandName in
          do register slot f nsCommandName parent
               (VBool (String.eqb ns' "expect")) VUndef VUndef then
          ret tt)
       nsNames s = (Ret tt, s') ->
  Inv s'
  /\ (Done s -> Done s')
  /\ (ns' = ns -> nsv = VRef nsl -> In k nsNames -> Done s').
Proof.
  revert s. induction nsNames as [|nsName r IH]; intros s Hv Hok HInv Hrun.
  - inversion Hrun; subst. split; [assumption|]. split; [auto|].
    intros _ _ [].
  - simpl in Hrun.
    apply bind_inv in Hrun as ([] & s1 & Hstep & Hrest).
    apply bind_inv in Hstep as (slot & sa & Hslot & Hstep).
    apply get_inv in Hslot as [-> Hslot].
    rewrite (has_field_get _ _ _ _ Hv) in Hslot. inversion Hslot; subst slot.
    apply bind_inv in Hstep as (f & sb & Hf & Hstep).
    apply get_inv in Hf as [-> Hf].
    apply bind_inv in Hstep as (w & sc & Hreg & Hstep).
    inversion Hstep; subst sc.
    pose proof Hreg as Hreg'.
    apply register_inv in Hreg' as (l & cur & -> & _ & _ & _ & Hs1).
    destruct (Hok l eq_refl) as (Hlc & Hlt & Hln & Hold).
    destruct (ns_register_step _ _ _ _ _ _ _ Hreg Hlc Hlt Hln Hold HInv)
      as (HInv1 & HD1 & HN1).
    assert (Hv1 : has_field (st_heap s1) t ns' (VRef l)).
    { rewrite Hs1. cbn [st_heap].
      apply has_field_set_other; [|left; congruence].
      change (st_heap s ++ [?a; ?b]) with (st_heap s ++ [a] ++ [b]).
      rewrite app_assoc. now apply has_field_app, has_field_app. }
    assert (Hok1 : slot_ok s1 (VRef l)).
    { rewrite Hs1.
      match goal with
      | |- context [st_heap s ++ [?a; ?b]] =>
          replace (st_heap s ++ [a; b]) with ((st_heap s ++ [a]) ++ [b])
            by (now rewrite <- app_assoc);
          apply (ns_slot_ok_set
                   (mkState ((st_heap s ++ [a]) ++ [b]) (st_calls s)));
          apply (ns_slot_ok_app (mkState (st_heap s ++ [a]) (st_calls s)))
      end.
      now apply ns_slot_ok_app. }
    destruct (IH s1 Hv1 Hok1 HInv1 Hrest) as (HInv' & HD' & HN').
    split; [assumption|]. split; [auto|].
    intros -> -> [<-|Hin]; [|now apply HN'].
    apply HD', HN1; auto.
    destruct HInv as (_ & _ & Hon & _).
    simpl in Hf. rewrite Hon in Hf. unfold obj_get in Hf. rewrite Hk in Hf.
    now inversion Hf.
Qed.

Lemma ns_applyCommand_step key s s' :
  Inv s ->
  applyCommand parent (VRef t) (VRef c) key s = (Ret tt, s') ->
  Inv s' /\ (Done s -> Done s') /\ (key = ns -> Done s').
Proof.
  intros HInv Hrun. pose proof HInv as (Hlen & Hcs & Hon & Hslots).
  unfold applyCommand in Hrun.
  destruct (isAllowedNamespace key) eqn:Hkey.
  - apply bind_inv in Hrun as (cur & s1 & Hcur & Hrun).
    apply get_inv in Hcur as [-> Hcur].
    apply bind_inv in Hrun as (ns0 & s2 & Hns0 & Hrun).
    apply bind_inv in Hrun as (u & s3 & Hset & Hrun).
    apply set_inv in Hset as (l & [= <-] & ->).
    apply bind_inv in Hrun as (nsv & s4 & Hnsv' & Hrun).
    apply get_inv in Hnsv' as [-> Hnsv'].
    apply bind_inv in Hrun as (nsNames & s5 & Hkeys & Hrun).
    pose proof Hkeys as Hkeys'. apply Object_keys_same in Hkeys' as ->.
    assert (Hmid : Inv s2 /\ slot_ok s2 ns0 /\ (Done s -> Done s2)
                   /\ (forall v, has_field (st_heap s) t key v ->
                                 truthy v = true -> ns0 = v)
                   /\ (forall v, has_field (st_heap s) t key v ->
                                 has_field (st_heap s2) t key v)).
    { destruct (Hslots key Hkey) as [Hlk|(v & Hv & Hok)].
      - rewrite (lacks_get _ _ _ Hlk) in Hcur. inversion Hcur; subst cur.
        simpl in Hns0. inversion Hns0; subst.
        split; [now apply ns_inv_app|].
        split; [|split; [now apply ns_done_app|]].
        + intros l [= <-].
          pose proof (lookup_lt_Some _ _ _ Hcs).
          pose proof (lookup_lt_Some _ _ _ Hon).
          repeat (split; [lia|]). right. cbn [st_heap]. now rewrite cls_of_new.
        + split; intros v Hv; [|now apply has_field_app].
          destruct Hlk as (o & Ho & Hn & _).
          destruct Hv as (o' & e & Ho' & Hv). congruence.
      - rewrite (has_field_get _ _ _ _ Hv) in Hcur. inversion Hcur; subst cur.
        destruct (truthy v) eqn:Etv.
        + inversion Hns0; subst. split; [assumption|]. split; [assumption|].
          split; [auto|]. split; [|auto]. intros v' Hv' _.
          now apply (has_field_inj _ _ _ _ _ Hv).
        + simpl in Hns0. inversion Hns0; subst.
          split; [now apply ns_inv_app|].
          split; [|split; [now apply ns_done_app|]].
          * intros l [= <-].
            pose proof (lookup_lt_Some _ _ _ Hcs).
            pose proof (lookup_lt_Some _ _ _ Hon).
            repeat (split; [lia|]). right. cbn [st_heap].
            now rewrite cls_of_new.
          * split; intros v' Hv'; [|now apply has_field_app].
            intros Ht'.
            rewrite (has_field_inj _ _ _ _ _ Hv Hv') in Etv. congruence. }
    destruct Hmid as (HInv2 & Hok2 & HDone2 & Hsame & Hfield2).
    set (s3 := mkState (heap_set (st_heap s2) t key ns0) (st_calls s2)) in *.
    assert (HInv3 : Inv s3) by (apply ns_inv_set_target; auto).
    assert (Hslot3 : has_field (st_heap s3) t key ns0).
    { apply has_field_set_same. destruct HInv2 as (H & _). lia. }
    assert (Hok3 : slot_ok s3 ns0) by (now apply ns_slot_ok_set).
    destruct (ns_inner_loop key nsv nsNames ns0 s3 s' Hslot3 Hok3 HInv3 Hrun)
      as (HInv' & HD' & HN').
    split; [assumption|].
    assert (HDone3 : Done s -> Done s3).
    { intros HD. pose proof (HDone2 HD) as HD2.
      destruct (string_dec key ns) as [->|Hne].
      - (* the namespace is there already: the same object is kept *)
        destruct HD as (sl0 & _ & _ & H1' & _).
        assert (ns0 = VRef sl0) as -> by (now apply Hsame).
        destruct HD2 as (sl & w & cmd & H1 & H2 & H3 & H4 & H5 & H6).
        pose proof (has_field_inj _ _ _ _ _ H1 (Hfield2 _ H1')) as [= ->].
        exists sl0, w, cmd. unfold s3. cbn [st_heap].
        split; [apply has_field_set_same; destruct HInv2 as (H & _); lia|].
        split; [assumption|].
        split; [apply has_field_set_other; [exact H3|left; congruence]|].
        split; [now rewrite heap_set_cls|]. split; [assumption|].
        rewrite lookup_heap_set_other by lia. exact H6.
      - apply (ns_done_set s2); auto; try congruence.
        intros Hs. exfalso. destruct HD2 as (sl & _ & _ & H1 & H2 & _).
        pose proof (has_field_inj _ _ _ _ _ H1 Hs) as [= ->]. contradiction. }
    split; [auto|].
    intros ->. 
    assert (nsv = VRef nsl) as ->.
    { destruct HInv2 as (_ & Hcs2 & _).
      unfold s3 in Hnsv'. cbn [st_heap] in Hnsv'. simpl in Hnsv'.
      rewrite lookup_heap_set_other in Hnsv' by congruence.
      rewrite Hcs2 in Hnsv'. unfold obj_get in Hnsv'. rewrite Hnsv in Hnsv'.
      now inversion Hnsv'. }
    apply HN'; auto.
    revert Hkeys. unfold Object_keys. js_step. intros [= <-].
    unfold keys. destruct HInv3 as (_ & _ & Hon3 & _).
    unfold s3 in Hon3. cbn [st_heap] in Hon3. rewrite Hon3.
    now apply (own_keys_In k (mkProp (Data fn) true)).
  - assert (Hkn : key <> ns) by (intros ->; congruence).
    apply bind_inv in Hrun as (fk & s1 & Hfk & Hrun).
    apply get_inv in Hfk as [-> Hfk].
    rewrite bind_get_heap in Hrun.
    destruct (isObject (st_heap s) fk) eqn:Hobjk.
    + inversion Hrun; subst s'. split; [exact HInv|]. split; [auto|].
      contradiction.
    + apply bind_inv in Hrun as (w & s2 & Hreg & Hrun).
      inversion Hrun; subst s'. clear Hrun.
      apply register_inv in Hreg as (l & cur & [= <-] & Hcur & Hfalsy & -> & ->).
      match goal with
      | |- context [st_heap s ++ [?a; ?b]] => set (cmdo := a); set (wo := b)
      end.
      replace (st_heap s ++ [cmdo; wo]) with ((st_heap s ++ [cmdo]) ++ [wo])
        by (now rewrite <- app_assoc).
      set (sm := mkState ((st_heap s ++ [cmdo]) ++ [wo]) (st_calls s)).
      assert (HInvm : Inv sm).
      { apply (ns_inv_app (mkState (st_heap s ++ [cmdo]) (st_calls s))).
        now apply ns_inv_app. }
      assert (HDonem : Done s -> Done sm).
      { intros HD.
        apply (ns_done_app (mkState (st_heap s ++ [cmdo]) (st_calls s))).
        now apply ns_done_app. }
      split; [apply (ns_inv_set_target sm); [exact HInvm|congruence]|].
      split; [|contradiction].
      intros HD. apply (ns_done_set sm); auto.
      intros Hs. exfalso. destruct (HDonem HD) as (sl & _ & _ & H1 & H2 & _).
      pose proof (has_field_inj _ _ _ _ _ H1 Hs) as [= ->]. contradiction.
Qed.

Lemma ns_applyCommands_loop names s s' :
  Inv s ->
  iter (applyCommand parent (VRef t) (VRef c)) names s = (Ret tt, s') ->
  Done s \/ In ns names ->
  Done s'.
Proof.
  revert s. induction names as [|key r IH]; intros s HInv Hrun Hcase.
  - inversion Hrun; subst. destruct Hcase as [H|[]]. exact H.
  - simpl in Hrun. apply bind_inv in Hrun as ([] & s1 & Hstep & Hrest).
    destruct (ns_applyCommand_step key s s1 HInv Hstep) as (HInv1 & Hkeep & Hnew).
    apply (IH s1 HInv1 Hrest).
    destruct Hcase as [H|[H|H]]; [left; auto|left; auto|now right].
Qed.

End Namespaces.

#[local] Set Default Proof Using "Type".


(** X19. After [applyCommandsToTarget] has returned, every command of a
    namespace of the list is registered under the namespace: the target
    holds under the namespace's name an object other than itself, and that
    object holds under the command's name a wrapper of the command's
    function, built by a Command for the parent and that name which is a chai
    assertion exactly for the namespace [expect] and is never async. *)
Theorem applyCommandsToTarget_namespace :
  forall (parent : value) (t c nsl : loc) (oc on : obj) (ns k : string)
         (fn : value) (s0 s1 : state),
    t < length (st_heap s0) ->
    st_heap s0 !! c = Some oc ->
    st_heap s0 !! nsl = Some on ->
    t <> c ->
    t <> nsl ->
    (forall ns', isAllowedNamespace ns' = true ->
       lacks (st_heap s0) t ns'
       \/ exists v,
            has_field (st_heap s0) t ns' v
            /\ forall l, v = VRef l ->
                         l <> c /\ l <> t /\ l <> nsl
                         /\ l < length (st_heap s0)) ->
    isAllowedNamespace ns = true ->
    lookup_prop ns (o_props oc) = Some (mkProp (Data (VRef nsl)) true) ->
    lookup_prop k (o_props on) = Some (mkProp (Data fn) true) ->
    applyCommandsToTarget parent (VRef t) (VRef c) s0 = (Ret tt, s1) ->
    exists sl w cmd,
      has_field (st_heap s1) t ns (VRef sl)
      /\ sl <> t
      /\ has_field (st_heap s1) sl k (VRef w)
      /\ cls_of (st_heap s1) (VRef w) = Some (CWrapper cmd fn)
      /\ st_heap s1 !! cmd
         = Some (new_obj CCommand
                   [("parent", parent);
                    ("commandName", VStr k);
                    ("isChaiAssertion", VBool (String.eqb ns "expect"));
                    ("isES6Async", VBool false);
                    ("isUserDefined",
                     VBool (isUserDefinedElementCommand k))]).
Proof.
  intros parent t c nsl oc on ns k fn s0 s1
         Ht Hc Hon Htc Htn Hslots Hns Hnsv Hk Hrun.
  unfold applyCommandsToTarget in Hrun.
  apply bind_inv in Hrun as (names & s & Hkeys & Hrun).
  assert (Hs : s = s0 /\ names = own_keys (o_props oc)).
  { revert Hkeys. unfold Object_keys. js_step. unfold keys. rewrite Hc.
    now intros [= <- <-]. }
  destruct Hs as [-> ->].
  assert (HInv : ns_inv (st_heap s0) t c nsl oc on s0).
  { split; [lia|]. split; [exact Hc|]. split; [exact Hon|].
    intros ns' Ha. destruct (Hslots ns' Ha) as [Hl|(v & Hv & Hok)];
      [now left|right].
    exists v. split; [exact Hv|]. intros l Hl.
    destruct (Hok l Hl) as (H1 & H2 & H3 & H4). auto. }
  destruct (ns_applyCommands_loop (st_heap s0) t c nsl oc on parent ns k fn
              Ht Htc Htn Hns Hnsv Hk _ _ _ HInv Hrun)
    as (sl & w & cmd & H1 & H2 & H3 & H4 & _ & H6).
  { right. now apply (own_keys_In ns (mkProp (Data (VRef nsl)) true)). }
  exists sl, w, cmd. auto.
Qed.


(** ** References to sections, and references with a strategy *)

Lemma reference_branch_found c a d e s selector ref name pseudo chai cn
    strategy els sl ls par chain :
  has_field (st_heap s) e "selector" (VStr ref) ->
  has_field (st_heap s) e "locateStrategy" els ->
  lacks (st_heap s) e "parent" ->
  lacks (st_heap s) e "pseudoSelector" ->
  has_field (st_heap s) c "isChaiAssertion" chai ->
  has_field (st_heap s) c "commandName" cn ->
  (if isObject (st_heap s) selector then
     let* ls0 := get selector "locateStrategy" in
     ret (if truthy ls0 then ls0 else VNull)
   else ret VNull) s = (Ret strategy, s) ->
  (if truthy chai && value_eqb cn (VStr "section")
   then getSection (VRef c) name strategy
   else getElement (VRef c) name strategy) s = (Ret (VRef d), s) ->
  has_field (st_heap s) d "selector" sl ->
  has_field (st_heap s) d "locateStrategy" ls ->
  has_field (st_heap s) d "parent" par ->
  hd "" (split_colon (substring1 ref)) = name ->
  pseudo_of (split_colon (substring1 ref)) = pseudo ->
  d <> e ->
  (isSection (st_heap s) par = true ->
   exists sp, par = VRef sp /\ sp < e /\ ancestry (st_heap s) sp chain) ->
  reference_branch (VRef c) (VRef a) selector (VRef e) s
  = (Ret tt,
     mkState (resolved_with (st_heap s) a d e els sl ls par pseudo chain)
             (st_calls s)).
Proof.
  intros Hesel Hels Hepar Heps Hchai Hcn Hstrat Hlook Hdsel Hdls Hdpar
         Hname Hpseudo Hde Hchain.
  pose proof (has_field_lt _ _ _ _ Hesel) as He.
  pose proof (has_field_lt _ _ _ _ Hdsel) as Hd.
  unfold reference_branch. js_step.
  rewrite (has_field_get _ _ _ _ Hesel). js_step.
  change (to_str (VStr ref)) with ref. rewrite Hname, Hpseudo.
  rewrite (has_field_get _ _ _ _ Hchai). js_step.
  rewrite (has_field_get _ _ _ _ Hcn). js_step.
  unfold bind at 1. rewrite Hstrat.
  unfold bind at 1. rewrite Hlook.
  js_step.
  unfold Element_copyDefaults, Element_defaultProps. cbn [iter]. js_step.
  rewrite (has_field_get _ e "selector" (VStr ref)) by field_solve.
  cbn [nullish]. js_step.
  rewrite (has_field_get _ e "locateStrategy" els) by field_solve.
  unfold resolved_with.
  destruct (nullish els) eqn:Hnull; js_step.
  - rewrite (has_field_get _ d "locateStrategy" ls) by field_solve. js_step.
    rewrite (lacks_get _ e "parent") by lacks_solve.
    cbn [nullish]. js_step.
    rewrite (has_field_get _ d "parent" par) by field_solve. js_step.
    rewrite (lacks_get _ e "pseudoSelector") by lacks_solve.
    cbn [nullish]. js_step.
    rewrite (has_field_get _ d "pseudoSelector" pseudo) by field_solve. js_step.
    rewrite (has_field_get _ d "locateStrategy" ls) by field_solve. js_step.
    rewrite (has_field_get _ d "selector" sl) by field_solve. js_step.
    unfold getRecursiveLookupElement. js_step.
    rewrite (has_field_get _ e "parent" par) by field_solve. js_step.
    rewrite !isSection_heap_set.
    destruct (isSection (st_heap s) par) eqn:Hsec.
    + destruct (Hchain eq_refl) as (sp & -> & Hsp & Hanc).
      rewrite (ancestry_chain _ sp chain).
      2:{ repeat (apply ancestry_heap_set; [|first [left; discriminate|right; lia]]).
          exact Hanc. }
      2:{ rewrite !heap_set_length. lia. }
      js_step. rewrite !length_app, !heap_set_length. simpl length.
      rewrite args_set0_run. cbn [st_heap st_calls].
      replace (length (st_heap s) + 1) with (S (length (st_heap s))) by lia.
      reflexivity.
    + js_step. cbn [truthy]. rewrite args_set0_run. reflexivity.
  - rewrite (lacks_get _ e "parent") by lacks_solve.
    cbn [nullish]. js_step.
    rewrite (has_field_get _ d "parent" par) by field_solve. js_step.
    rewrite (lacks_get _ e "pseudoSelector") by lacks_solve.
    cbn [nullish]. js_step.
    rewrite (has_field_get _ d "pseudoSelector" pseudo) by field_solve. js_step.
    rewrite (has_field_get _ d "locateStrategy" ls) by field_solve. js_step.
    rewrite (has_field_get _ d "selector" sl) by field_solve. js_step.
    unfold getRecursiveLookupElement. js_step.
    rewrite (has_field_get _ e "parent" par) by field_solve. js_step.
    rewrite !isSection_heap_set.
    destruct (isSection (st_heap s) par) eqn:Hsec.
    + destruct (Hchain eq_refl) as (sp & -> & Hsp & Hanc).
      rewrite (ancestry_chain _ sp chain).
      2:{ repeat (apply ancestry_heap_set; [|first [left; discriminate|right; lia]]).
          exact Hanc. }
      2:{ rewrite !heap_set_length. lia. }
      js_step. rewrite !length_app, !heap_set_length. simpl length.
      rewrite args_set0_run. cbn [st_heap st_calls].
      replace (length (st_heap s) + 1) with (S (length (st_heap s))) by lia.
      reflexivity.
    + js_step. cbn [truthy]. rewrite args_set0_run. reflexivity.
Qed.

Lemma getSection_declared c pl m d name strategy s :
  has_field (st_heap s) c "parent" (VRef pl) ->
  has_field (st_heap s) pl "section" (VRef m) ->
  has_field (st_heap s) m name (VRef d) ->
  truthy strategy = false ->
  getSection (VRef c) name strategy s = (Ret (VRef d), s).
Proof.
  intros Hc Hpl Hm Hs. unfold getSection, validate. js_step.
  rewrite (has_field_get _ _ _ _ Hc). js_step.
  change (type_field TYPE_SECTION) with "section".
  rewrite (has_field_get _ _ _ _ Hpl). js_step.
  unfold bind at 1. rewrite (has_key_field _ _ _ _ Hm). rewrite Hs.
  js_step.
  rewrite (has_field_get _ _ _ _ Hc). js_step.
  rewrite (has_field_get _ _ _ _ Hpl). js_step.
  unfold get. now rewrite (has_field_get _ _ _ _ Hm).
Qed.


(** X20. The chai assertion [section] resolves a reference among the
    sections: for a section declared in the [section] map of the command's
    parent, [@name] or [@name:suffix] builds a new Element whose selector and
    locate strategy are the section's and whose [pseudoSelector] is the
    suffix, or null without one, and the section's own [pseudoSelector] is
    overwritten with it.  That Element replaces [args[0]] when the section's
    parent is not a Section; when it is, [args[0]] becomes a 'recursion'
    Element whose chain is the ancestor sections followed by it. *)
Theorem section_reference_resolves :
  forall (c a pl m d : loc) (s : state) (name : string)
         (suffix : option string) (rest chain : list value)
         (chai sl ls par : value),
    items_of (st_heap s) (VRef a) = VStr (reference name suffix) :: rest ->
    no_colon name = true ->
    (forall sfx, suffix = Some sfx -> no_colon sfx = true /\ sfx <> "") ->
    LocateStrategy_isValid (VStr (reference name suffix))
      && isString (default VUndef (rest !! 0)) = false ->
    has_field (st_heap s) c "isChaiAssertion" chai ->
    truthy chai = true ->
    has_field (st_heap s) c "commandName" (VStr "section") ->
    has_field (st_heap s) c "parent" (VRef pl) ->
    has_field (st_heap s) pl "section" (VRef m) ->
    has_field (st_heap s) m name (VRef d) ->
    has_field (st_heap s) d "selector" sl ->
    has_field (st_heap s) d "locateStrategy" ls ->
    has_field (st_heap s) d "parent" par ->
    (isSection (st_heap s) par = true ->
     exists sp, par = VRef sp /\ ancestry (st_heap s) sp chain) ->
    exists (s' : state) (e : loc),
      parseElementSelector (VRef c) (VRef a) s = (Ret tt, s')
      /\ length (st_heap s) <= e
      /\ cls_of (st_heap s') (VRef e) = Some CElement
      /\ has_field (st_heap s') e "selector" sl
      /\ has_field (st_heap s') e "locateStrategy" ls
      /\ has_field (st_heap s') e "pseudoSelector" (pseudo_value suffix)
      /\ has_field (st_heap s') d "pseudoSelector" (pseudo_value suffix)
      /\ (isSection (st_heap s) par = false ->
          items_of (st_heap s') (VRef a) = VRef e :: rest)
      /\ (isSection (st_heap s) par = true ->
          exists r arr,
            items_of (st_heap s') (VRef a) = VRef r :: rest
            /\ has_field (st_heap s') r "locateStrategy" (VStr "recursion")
            /\ has_field (st_heap s') r "selector" (VRef arr)
            /\ items_of (st_heap s') (VRef arr) = chain ++ [VRef e]).
Proof.
  intros c a pl m d s name suffix rest chain chai sl ls par
         Hitems Hname Hsfx Hpair Hchai Hchait Hcn Hcpar Hpl Hm
         Hdsel Hdls Hdpar Hchain.
  pose proof (items_of_lt _ _ _ _ Hitems) as Ha.
  pose proof (has_field_lt _ _ _ _ Hdsel) as Hd.
  destruct (reference_sections name suffix Hname Hsfx) as [Hhd Hps].
  set (ref := reference name suffix) in *.
  set (e0 := new_element (VStr ref) VNull).
  assert (Hsec1 : isSection (st_heap s ++ [e0]) par = isSection (st_heap s) par)
    by (apply isSection_app_other; discriminate).
  assert (Hrun :
    parseElementSelector (VRef c) (VRef a) s
    = (Ret tt,
       mkState (resolved_with (st_heap s ++ [e0]) a d (length (st_heap s))
                  VNull sl ls par (pseudo_value suffix) chain)
               (st_calls s))).
  { rewrite parseElementSelector_unfold. unfold bind at 1.
    rewrite (getSelectorFromArgs_plain c a s "section" (VStr ref) rest
               Hcn Hitems);
      [|reflexivity|exact Hpair].
    change (truthy (VStr ref)) with true. cbn [negb].
    unfold bind at 1. rewrite createFromSelector_string. fold e0.
    unfold hasElementSelector. js_step.
    rewrite (has_field_get _ (length (st_heap s)) "selector" (VStr ref))
      by field_solve.
    js_step. change (starts_with_at ref) with true. cbv iota.
    rewrite (reference_branch_found c a d (length (st_heap s)) _ (VStr ref)
               ref name (pseudo_value suffix) chai (VStr "section") VNull
               VNull sl ls par chain);
      cbn [st_heap st_calls]; try field_solve; try reflexivity;
      try assumption.
    - now apply lacks_new.
    - now apply lacks_new.
    - rewrite Hchait. cbn [andb value_eqb String.eqb Ascii.eqb Bool.eqb].
      apply (getSection_declared c pl m d name VNull); cbn [st_heap];
        try field_solve. reflexivity.
    - lia.
    - rewrite Hsec1. intros Hs. destruct (Hchain Hs) as (sp & -> & Hanc).
      exists sp. split; [reflexivity|]. split.
      + eapply ancestry_lt; eauto.
      + now apply ancestry_app. }
  eexists. exists (length (st_heap s)). split; [exact Hrun|].
  cbn [st_heap st_calls]. unfold resolved_with. cbn [nullish]. rewrite Hsec1.
  split; [lia|].
  destruct (isSection (st_heap s) par) eqn:Hsec;
    (split; [cls_solve|]);
    (split; [field_solve|]);
    (split; [field_solve|]);
    (split; [field_solve|]);
    (split; [field_solve|]).
  - split; [discriminate|]. intros _.
    exists (S (length (st_heap s ++ [e0]))), (length (st_heap s ++ [e0])).
    split.
    { rewrite items_of_set0_same by len_solve. f_equal.
      rewrite !items_of_app by len_solve. rewrite !items_of_heap_set.
      rewrite items_of_app by len_solve. now rewrite Hitems. }
    split; [field_solve|]. split; [field_solve|]. items_solve.
  - split; [|discriminate]. intros _.
    rewrite items_of_set0_same by len_solve. f_equal.
    rewrite !items_of_heap_set.
    rewrite items_of_app by len_solve. now rewrite Hitems.
Qed.







(** X23. When selector resolution throws, the closure of
    [wrapElementCommand] throws the same error, and neither the original
    function nor [targetApi] has been called. *)
Theorem element_wrapper_throws_before_call :
  forall (c : loc) (originalFn targetApi : value) (commandName : string)
         (argv : list value) (s s' : state) (e : exn),
    parseElementSelector (VRef c) (VRef (length (st_heap s)))
      (mkState (st_heap s ++ [new_array argv]) (st_calls s))
    = (Throw e, s') ->
    call_element_wrapper c originalFn targetApi commandName argv s
    = (Throw e, s')
    /\ st_calls s' = st_calls s.
Proof.
  intros c originalFn targetApi commandName argv s s' e Hparse. split.
  - unfold call_element_wrapper. js_step. unfold bind at 1. now rewrite Hparse.
  - pose proof (calls_parseElementSelector (st_calls s) (VRef c)
                  (VRef (length (st_heap s)))
                  (mkState (st_heap s ++ [new_array argv]) (st_calls s))
                  eq_refl) as Hp.
    now rewrite Hparse in Hp.
Qed.



End Semantics.


(** * The statements on the sample page object *)

Abbreviation sample_parse :=
  (parseElementSelector sample_getter sample_isElementCommand
     sample_isScopedElementCommand sample_isValid) (only parsing).

Abbreviation sample_invoke :=
  (wrapper_invoke sample_ext sample_getter sample_isElementCommand
     sample_isScopedElementCommand sample_isValid) (only parsing).

Abbreviation sample_call :=
  (call_wrapper sample_ext sample_getter sample_isElementCommand
     sample_isScopedElementCommand sample_isValid) (only parsing).

Abbreviation sample_element_call :=
  (call_element_wrapper sample_ext sample_getter sample_isElementCommand
     sample_isScopedElementCommand sample_isValid) (only parsing).

Abbreviation sample_execute :=
  (executeCommand sample_ext sample_getter sample_isElementCommand
     sample_isScopedElementCommand sample_isValid) (only parsing).

Abbreviation sample_apply :=
  (applyCommandsToTarget sample_getter sample_strict) (only parsing).

Lemma sample_field (l : loc) (k : string) (v : value) (o : obj) (e : bool) :
  sample_heap !! l = Some o ->
  lookup_prop k (o_props o) = Some (mkProp (Data v) e) ->
  has_field sample_heap l k v.
Proof. intros Ho Hk. exists o, e. split; assumption. Defined.

(** C10, on the call [footer.click('css selector', '.title')]. *)
Lemma getSelectorFromArgs_strategy_pair_witness :
  getSelectorFromArgs sample_getter sample_isElementCommand
    sample_isScopedElementCommand sample_isValid (VRef 9) (VRef 23) sample
  = (Ret (VRef 29),
     mkState (sample_heap ++
                [new_obj CObject [("selector", VStr ".title");
                                  ("locateStrategy", VStr "css selector")]])
             []).
Proof.
  exact (getSelectorFromArgs_strategy_pair sample_getter
           sample_isElementCommand sample_isScopedElementCommand sample_isValid
           (VRef 9) 23 sample "css selector" ".title" [] (VStr "click")
           eq_refl eq_refl eq_refl eq_refl).
Defined.


(** With the overwrite option the same registration goes through. *)
Lemma addCommand_overwrite_sample :
  exists s2,
    register sample_getter sample_strict (VRef 15) (VRef 14) "find" (VRef 0)
      (VBool false) (VBool false) (VBool true) sample = (Ret (VRef 30), s2)
    /\ has_field (st_heap s2) 15 "find" (VRef 30)
    /\ cls_of (st_heap s2) (VRef 30) = Some (CWrapper 29 (VRef 14)).
Proof.
  eexists. split; [reflexivity|]. split; [|reflexivity].
  do 2 eexists. split; reflexivity.
Qed.



(** The message of that error, and the outcomes of two more lookups: a
    declared name whose strategy differs from the filter, and a declared name
    without filter. *)
Lemma lookup_message_sample :
  lookup_message sample_getter TYPE_ELEMENT sample_heap 1 sample_elements
    "cancel" (VStr "xpath") (VStr "home")
  = "Element " ^^ dquote ^^ "cancel[locateStrategy='xpath']" ^^ dquote
    ^^ " was not found in " ^^ dquote ^^ "home" ^^ dquote
    ^^ ". Available elements: submit[locateStrategy='null']".
Proof. reflexivity. Qed.

Lemma lookup_mismatch_sample :
  fst (getElement sample_getter (VRef 8) "submit" (VStr "xpath") sample)
  = Throw (Err "Error"
             ("Element " ^^ dquote ^^ "submit[locateStrategy='xpath']" ^^ dquote
              ^^ " was not found in " ^^ dquote ^^ "home" ^^ dquote
              ^^ ". Available elements: submit[locateStrategy='null']") [])
  /\ getElement sample_getter (VRef 8) "submit" VNull sample
     = (Ret (VRef 2), sample)
  /\ fst (getSection sample_getter (VRef 8) "header" VNull sample)
     = Throw (Err "Error"
                ("Section " ^^ dquote ^^ "header" ^^ dquote
                 ^^ " was not found in " ^^ dquote ^^ "home" ^^ dquote
                 ^^ ". Available sections: footer") []).
Proof. repeat split. Qed.


(** C1, on [page.click('@submit')] where the command returns a promise: the
    wrapper returns that promise, which now has the page's [api] and
    [navigate]. *)
Lemma createWrapper_return_witness :
  exists s2,
    sample_call (VRef 8) (VRef 10) (VRef 0) [VStr "@submit"] sample
    = (Ret (VRef 12), s2)
    /\ cls_of (st_heap s2) (VRef 12) = Some (CPromise (VNum 7))
    /\ lookup_prop "api" (own_props (st_heap s2) (VRef 12))
       = Some (mkProp (Getter 0) false)
    /\ lookup_prop "navigate" (own_props (st_heap s2) (VRef 12))
       = Some (mkProp (Data (VRef 10)) false).
Proof.
  destruct (createWrapper_return sample_ext sample_getter
              sample_isElementCommand sample_isScopedElementCommand
              sample_isValid 8 (VRef 10) (VRef 0) [VStr "@submit"] sample
              (snd (sample_invoke (VRef 8) (VRef 10) (VRef 0)
                      [VStr "@submit"] sample))
              (VRef 12) (VRef 11) eq_refl eq_refl)
    as (_ & Hpromise & _).
  destruct (Hpromise eq_refl eq_refl (or_introl eq_refl))
    as (s2 & Hcall & _ & _ & Hcls & Hprops).
  exists s2. split; [exact Hcall|]. split; [exact Hcls|]. split.
  - apply Hprops; [discriminate|reflexivity].
  - apply Hprops; [discriminate|reflexivity].
Defined.

(** Two more returns of the wrapper: a section command that returns a
    promise outside an async testcase gives back the section, and a page
    command that returns no promise gives back the page. *)
Lemma createWrapper_return_sample :
  fst (sample_call (VRef 9) (VRef 10) (VRef 4) [VStr "@link"] sample)
  = Ret (VRef 4)
  /\ fst (sample_call (VRef 8) (VRef 14) (VRef 0) [VStr "@submit"] sample)
     = Ret (VRef 0).
Proof. split; reflexivity. Qed.

(** C2: the property as the specification states it fails on the chai
    [section] assertion, which looks the name up among the sections: for the
    declared element [submit] it throws and leaves the argument as it was.  It also fails for an element declared in
    a section: resolving [@link] on a command of [footer] leaves in [args[0]]
    an Element whose locate strategy is 'recursion' and whose selector is an
    array, while the declared [link] has strategy null and selector
    'a.link'. *)
Lemma reference_not_declared_values_counterexample :
  let s' := snd (sample_parse (VRef 9) (VRef 20) sample) in
  has_field sample_heap 1 "submit" (VRef 2)
  /\ (exists msg,
        fst (sample_parse (VRef 27) (VRef 24) sample)
        = Throw (Err "Error" msg []))
  /\ items_of (st_heap (snd (sample_parse (VRef 27) (VRef 24) sample)))
       (VRef 24) = [VStr "@submit"]
  /\ items_of (st_heap s') (VRef 20) = [VRef 31]
  /\ read sample_getter (st_heap s') (VRef 31) "locateStrategy"
     = VStr "recursion"
  /\ read sample_getter sample_heap (VRef 6) "locateStrategy" = VNull
  /\ read sample_getter (st_heap s') (VRef 31) "selector" = VRef 30
  /\ read sample_getter sample_heap (VRef 6) "selector" = VStr "a.link".
Proof.
  split; [eapply sample_field; reflexivity|].
  split; [eexists; reflexivity|]. repeat split.
Qed.

(** C2 (amended), on [page.click('@submit:text')]. *)
Lemma reference_resolves_to_declaration_witness :
  exists (s' : state) (e : loc),
    sample_parse (VRef 8) (VRef 19) sample = (Ret tt, s')
    /\ items_of (st_heap s') (VRef 19) = [VRef e]
    /\ has_field (st_heap s') e "selector" (VStr "#go")
    /\ has_field (st_heap s') e "locateStrategy" VNull
    /\ has_field (st_heap s') e "pseudoSelector" (VStr "text").
Proof.
  destruct (reference_resolves_to_declaration sample_getter
              sample_isElementCommand sample_isScopedElementCommand
              sample_isValid 8 19 0 1 2 sample "submit" "click" (Some "text")
              [] [] (VBool false) (VStr "#go") VNull (VRef 0))
    as (s' & e & Hrun & _ & _ & Hsel & Hls & Hps & _ & Hpage & _).
  - reflexivity.
  - reflexivity.
  - intros sfx [= <-]. split; [reflexivity|discriminate].
  - reflexivity.
  - eapply sample_field; reflexivity.
  - eapply sample_field; reflexivity.
  - eapply sample_field; reflexivity.
  - reflexivity.
  - eapply sample_field; reflexivity.
  - eapply sample_field; reflexivity.
  - eapply sample_field; reflexivity.
  - eapply sample_field; reflexivity.
  - eapply sample_field; reflexivity.
  - intros H. discriminate H.
  - exists s', e. repeat split; auto.
Defined.

(** C3: the property as the specification states it fails.  Resolving
    [@submit:text] writes the property [pseudoSelector] of the declared
    element [submit] itself. *)
Lemma declaration_written_counterexample :
  let s' := snd (sample_parse (VRef 8) (VRef 19) sample) in
  st_heap s' !! 2 <> sample_heap !! 2
  /\ read sample_getter sample_heap (VRef 2) "pseudoSelector" = VUndef
  /\ read sample_getter (st_heap s') (VRef 2) "pseudoSelector" = VStr "text".
Proof. split; [discriminate|]. split; reflexivity. Qed.

(** C3 (amended), on the same call: the declared [submit] keeps its class,
    items, prototype and every property but [pseudoSelector]. *)
Lemma parseElementSelector_frame_witness :
  exists o',
    st_heap (snd (sample_parse (VRef 8) (VRef 19) sample)) !! 2 = Some o'
    /\ o_cls o' = CElement
    /\ lookup_prop "selector" (o_props o')
       = Some (mkProp (Data (VStr "#go")) true)
    /\ lookup_prop "locateStrategy" (o_props o')
       = Some (mkProp (Data VNull) true)
    /\ lookup_prop "parent" (o_props o')
       = Some (mkProp (Data (VRef 0)) true).
Proof.
  destruct (parseElementSelector_frame sample_getter sample_isElementCommand
              sample_isScopedElementCommand sample_isValid
              (VRef 8) (VRef 19) sample 2 sample_submit eq_refl)
    as (o' & Ho' & Hcls & _ & _ & Hprops).
  - discriminate.
  - discriminate.
  - exists o'. split; [exact Ho'|]. split; [exact Hcls|].
    repeat split; rewrite Hprops; try reflexivity; discriminate.
Defined.


(** C4: the flag is kept on the Command that the closure of
    [wrapElementCommand] shares between its calls, and is never reset.  On the
    wrapper of [find] for the section [footer]: a first call with the literal
    '.title' sets the flag; a second call with the reference [@link] then
    still goes through the scoped accessor (object 14) and the [find] of what
    it returns, although the same call on a wrapper that has not been used
    before calls the original function directly. *)
Theorem wrapElementCommand_flag_leaks :
  let first := sample_element_call 13 (VRef 10) (VRef 14) "find"
                 [VStr ".title"] sample in
  let second := sample_element_call 13 (VRef 10) (VRef 14) "find"
                  [VStr "@link"] (snd first) in
  let alone := sample_element_call 13 (VRef 10) (VRef 14) "find"
                 [VStr "@link"] sample in
  read sample_getter sample_heap (VRef 13) "onlyLocateSectionsRecursively"
  = VUndef
  /\ read sample_getter (st_heap (snd first)) (VRef 13)
       "onlyLocateSectionsRecursively" = VBool true
  /\ map c_fn (st_calls (snd first)) = [VRef 14; VRef 10]
  /\ map c_fn (st_calls (snd second))
     = [VRef 14; VRef 10; VRef 14; VRef 10]
  /\ map c_this (st_calls (snd second))
     = [VUndef; VRef 15; VUndef; VRef 15]
  /\ map c_fn (st_calls (snd alone)) = [VRef 10]
  /\ map c_this (st_calls (snd alone)) = [VRef 14].
Proof. repeat split. Qed.

(** C5: the property as the specification states it fails for a command that
    is not an element command: [footer.logMessage('hello')] keeps its
    argument.  It also fails for the empty string, which is no selector:
    [footer.click('')] keeps its argument too. *)
Lemma literal_left_unresolved_counterexample :
  sample_isElementCommand "logMessage" = false
  /\ sample_isScopedElementCommand "logMessage" = false
  /\ isSection sample_heap (VRef 4) = true
  /\ read sample_getter sample_heap (VRef 16) "parent" = VRef 4
  /\ sample_parse (VRef 16) (VRef 22) sample = (Ret tt, sample)
  /\ items_of sample_heap (VRef 22) = [VStr "hello"]
  /\ read sample_getter sample_heap (VRef 9) "parent" = VRef 4
  /\ read sample_getter sample_heap (VRef 9) "commandName" = VStr "click"
  /\ sample_isElementCommand "click" = true
  /\ sample_parse (VRef 9) (VRef 28) sample = (Ret tt, sample)
  /\ items_of sample_heap (VRef 28) = [VStr EmptyString].
Proof. repeat split. Qed.

Lemma sample_ancestry : ancestry sample_heap 4 [VRef 4].
Proof.
  apply (ancestry_top sample_heap 4 (VRef 0)).
  - eapply sample_field; reflexivity.
  - reflexivity.
  - intros q [= <-]. vm_compute. lia.
Defined.

(** C5 (amended), on [footer.click('.title')]. *)
Lemma literal_selector_on_section_witness :
  exists (s' : state) (e arr r : loc),
    sample_parse (VRef 9) (VRef 21) sample = (Ret tt, s')
    /\ items_of (st_heap s') (VRef 21) = [VRef r]
    /\ has_field (st_heap s') r "locateStrategy" (VStr "recursion")
    /\ has_field (st_heap s') r "selector" (VRef arr)
    /\ items_of (st_heap s') (VRef arr) = [VRef 4; VRef e]
    /\ has_field (st_heap s') e "selector" (VStr ".title").
Proof.
  destruct (literal_selector_on_section sample_getter sample_isElementCommand
              sample_isScopedElementCommand sample_isValid 9 21 4 sample
              "click" ".title" [] [VRef 4])
    as (s' & e & arr & r & pre & Hrun & Hitems & _ & Hls & Hsel & Harr & _ & _
        & Hesel & _).
  - eapply sample_field; reflexivity.
  - eapply sample_field; reflexivity.
  - reflexivity.
  - exact sample_ancestry.
  - reflexivity.
  - discriminate.
  - reflexivity.
  - reflexivity.
  - reflexivity.
  - exists s', e, arr, r. repeat split; auto.
Defined.

(** C8, on a call that forwards its arguments as [{args: ['@submit']}]: the
    reference is resolved inside the inner array, and the function receives
    the outer arguments as they were. *)
Lemma executeCommand_structured_sample :
  let r := sample_execute (VRef 8) (VRef 10) (VRef 26) (VRef 11) sample in
  fst r = Ret (VRef 12)
  /\ st_calls (snd r) = [mkCall (VRef 10) (VRef 11) [VRef 25; VNum 3]]
  /\ items_of (st_heap (snd r)) (VRef 24) = [VRef 29]
  /\ read sample_getter (st_heap (snd r)) (VRef 29) "selector" = VStr "#go".
Proof. repeat split. Qed.

(** When resolution throws, the function is not called. *)
Lemma executeCommand_throws_sample :
  let r := sample_execute (VRef 9) (VRef 10) (VRef 24) (VRef 11) sample in
  (exists msg, fst r = Throw (Err "Error" msg []))
  /\ st_calls (snd r) = [].
Proof. split; [eexists|]; reflexivity. Qed.

(** C9: the property as the specification states it fails for a top-level
    name whose value is an object.  The loader's [helpers] is not a namespace
    of the list, and is not registered. *)
Lemma object_valued_name_counterexample :
  let r := sample_apply (VRef 0) (VRef 18) (VRef 17) sample in
  fst r = Ret tt
  /\ In "helpers" (keys sample_heap (VRef 17))
  /\ isAllowedNamespace "helpers" = false
  /\ read sample_getter (st_heap (snd r)) (VRef 18) "helpers" = VUndef.
Proof. split; [reflexivity|]. split; [right; left; reflexivity|]. split; reflexivity. Qed.

Lemma sample_no_namespace (ns : string) :
  isAllowedNamespace ns = true -> lacks sample_heap 18 ns.
Proof.
  intros H. eexists. split; [reflexivity|]. split; [|reflexivity].
  unfold isAllowedNamespace, ALLOWED_NAMESPACES in H. simpl in H.
  repeat (apply orb_prop in H; destruct H as [H|H]);
    try discriminate; apply String.eqb_eq in H; subst ns; reflexivity.
Defined.

(** C9 (amended), on the same loader result: [open] is registered. *)
Lemma applyCommandsToTarget_registers_witness :
  exists w cmd,
    has_field (st_heap (snd (sample_apply (VRef 0) (VRef 18) (VRef 17) sample)))
      18 "open" (VRef w)
    /\ cls_of (st_heap (snd (sample_apply (VRef 0) (VRef 18) (VRef 17) sample)))
         (VRef w) = Some (CWrapper cmd (VRef 10))
    /\ st_heap (snd (sample_apply (VRef 0) (VRef 18) (VRef 17) sample)) !! cmd
       = Some (command_object sample_strict (VRef 0) "open" false).
Proof.
  apply (applyCommandsToTarget_registers sample_getter sample_strict (VRef 0)
           18 17 sample_commands "open" (VRef 10) sample
           (snd (sample_apply (VRef 0) (VRef 18) (VRef 17) sample))).
  - vm_compute. lia.
  - reflexivity.
  - discriminate.
  - intros ns Hns. left. now apply sample_no_namespace.
  - reflexivity.
  - reflexivity.
  - reflexivity.
  - reflexivity.
Defined.


(** * The further statements on the sample page object *)

Lemma sample2_field (l : loc) (k : string) (v : value) (o : obj) (e : bool) :
  sample2_heap !! l = Some o ->
  lookup_prop k (o_props o) = Some (mkProp (Data v) e) ->
  has_field sample2_heap l k v.
Proof. intros Ho Hk. exists o, e. split; assumption. Defined.

(** X1, on [footer.logMessage('hello')]: the function gets the string. *)
Lemma executeCommand_untouched_witness :
  sample_execute (VRef 16) (VRef 10) (VRef 22) (VRef 11) sample
  = (Ret (VRef 12), mkState sample_heap [mkCall (VRef 10) (VRef 11) [VStr "hello"]]).
Proof.
  rewrite (proj2 (executeCommand_untouched sample_ext sample_getter
                    sample_isElementCommand sample_isScopedElementCommand
                    sample_isValid (VRef 16) (VRef 10) (VRef 11)
                    (VStr "logMessage") 22 sample eq_refl eq_refl)).
  reflexivity.
Defined.

(** X2, on [page.click('.title')]. *)
Lemma literal_selector_on_page_witness :
  sample_parse (VRef 8) (VRef 21) sample
  = (Ret tt,
     mkState (sample_heap ++ [new_element (VStr ".title") VNull]) []).
Proof.
  apply (literal_selector_on_page sample_getter sample_isElementCommand
           sample_isScopedElementCommand sample_isValid 8 21 sample "click"
           ".title" [] (VRef 0)).
  - eapply sample_field; reflexivity.
  - eapply sample_field; reflexivity.
  - reflexivity.
  - reflexivity.
  - discriminate.
  - reflexivity.
  - reflexivity.
  - reflexivity.
Defined.

(** X3, on [page.click('@cancel')]: [cancel] is not declared. *)
Lemma undeclared_reference_throws_witness :
  parseElementSelector sample_getter sample_isElementCommand
    sample_isScopedElementCommand sample_isValid (VRef 8) (VRef 29) sample2
  = (Throw (Err "Error"
              (validate_message "Element" "cancel" "" "home" "elements"
                 ["submit"]) []),
     mkState (sample2_heap ++ [new_element (VStr "@cancel") VNull]) []).
Proof.
  apply (undeclared_reference_throws sample_getter sample_isElementCommand
           sample_isScopedElementCommand sample_isValid 8 29 0 1
           sample_elements sample2 "cancel" "click" None [] (VBool false)
           (VStr "home")).
  - reflexivity.
  - reflexivity.
  - reflexivity.
  - eapply sample2_field; reflexivity.
  - eapply sample2_field; reflexivity.
  - eapply sample2_field; reflexivity.
  - reflexivity.
  - eapply sample2_field; reflexivity.
  - eapply sample2_field; reflexivity.
  - reflexivity.
  - reflexivity.
  - reflexivity.
Defined.

(** X4, on the Command whose flag is set: resolving [@link] leaves it set,
    and the call goes to the scoped accessor. *)
Lemma flag_stays_set_witness :
  flag_set 32
    (snd (parseElementSelector sample_getter sample_isElementCommand
            sample_isScopedElementCommand sample_isValid (VRef 32) (VRef 20)
            sample2))
  /\ map c_fn
       (st_calls
          (snd (call_element_wrapper sample_ext sample_getter
                  sample_isElementCommand sample_isScopedElementCommand
                  sample_isValid 32 (VRef 10) (VRef 14) "find" [VStr "@link"]
                  sample2)))
     = [VRef 14; VRef 10].
Proof.
  destruct (flag_stays_set sample_ext sample_getter sample_isElementCommand
              sample_isScopedElementCommand sample_isValid 32 sample2)
    as [Hkeep Hcall].
  - eapply sample2_field; reflexivity.
  - split; [apply Hkeep|]. rewrite Hcall. reflexivity.
Defined.

(** X5, on [footer.click('css selector', '.title')]: the second argument
    stays. *)
Lemma resolution_keeps_rest_witness :
  exists x',
    items_of (st_heap (snd (sample_parse (VRef 9) (VRef 23) sample))) (VRef 23)
    = [x'; VStr ".title"].
Proof.
  apply (resolution_keeps_rest sample_getter sample_isElementCommand
           sample_isScopedElementCommand sample_isValid (VRef 9) (VRef 23) 23
           sample (VStr "css selector") [VStr ".title"]).
  reflexivity.
Defined.

(** X6, on the page whose [elements] map inherits [toString]. *)
Lemma inherited_name_found_witness :
  getElement sample_getter (VRef 35) "toString" VNull sample2
  = (Ret (VRef 10), sample2)
  /\ ~ In "toString" (keys sample2_heap (VRef 33)).
Proof.
  apply (inherited_name_found sample_getter TYPE_ELEMENT (VRef 35) (VRef 34)
           VNull 33
           (mkObj CObject (data_props [("submit", VRef 2)]) []
              [("toString", mkProp (Data (VRef 10)) false)])
           "toString" (mkProp (Data (VRef 10)) false) sample2);
    reflexivity.
Defined.

(** X7, on a target that has no [open]. *)
Lemma addCommand_fresh_witness :
  exists (w cmd : loc) (s' : state),
    addCommand sample_getter sample_strict (VRef 18) (VRef 10) "open" (VRef 0)
      (VBool false) VUndef VUndef sample = (Ret (VRef w), s')
    /\ st_heap s' !! 18 = sample_heap !! 18
    /\ cls_of (st_heap s') (VRef w) = Some (CWrapper cmd (VRef 10)).
Proof.
  destruct (addCommand_fresh sample_getter sample_strict (VRef 18) (VRef 10)
              (VRef 0) (VBool false) VUndef VUndef VUndef "open" sample
              eq_refl eq_refl)
    as (w & cmd & s' & Hrun & _ & Hsame & _ & _ & Hcls & _).
  exists w, cmd, s'. split; [exact Hrun|]. split; [|exact Hcls].
  now apply Hsame.
Defined.

(** X8, on registering [open] and adding it again. *)
Lemma register_then_duplicate_witness :
  let registered :=
    register sample_getter sample_strict (VRef 18) (VRef 10) "open" (VRef 0)
      (VBool false) VUndef VUndef sample in
  addCommand sample_getter sample_strict (VRef 18) (VRef 14) "open" (VRef 0)
    (VBool false) VUndef VUndef (snd registered)
  = (Throw (Err "TypeError" (duplicate_message "open")
              [("displayed", VBool false); ("showTrace", VBool false)]),
     snd registered).
Proof.
  intros registered.
  apply (register_then_duplicate sample_getter sample_strict 18 (VRef 10)
           (VRef 0) (VBool false) VUndef VUndef (VRef 30) "open" sample
           (snd registered)).
  - vm_compute. lia.
  - reflexivity.
  - reflexivity.
Defined.

(** X10, on wrapping [find] on the object that holds it. *)
Lemma wrapProtocolCommands_wraps_witness :
  exists s',
    wrapProtocolCommands sample_getter sample_strict (VRef 0) (VRef 15)
      ["find"] sample = (Ret tt, s')
    /\ wrapped sample_strict (st_heap s') 15 (VRef 0) "find" (VRef 10) (VRef 15).
Proof.
  destruct (wrapProtocolCommands_wraps sample_getter sample_strict (VRef 0) 15
              ["find"] sample (fun _ => VRef 10))
    as (s' & Hrun & _ & Hw & _).
  - repeat constructor. intros [].
  - intros k [<-|[]]. eexists. split; [reflexivity|]. reflexivity.
  - vm_compute. lia.
  - exists s'. split; [exact Hrun|]. apply Hw. now left.
Defined.



(** X12, on the element wrapper of [click] for the page. *)
Lemma element_wrapper_on_page_witness :
  sample_element_call 8 (VRef 10) (VRef 14) "click" [VStr ".title"] sample
  = (Ret (VRef 12),
     mkState ((sample_heap ++ [new_array [VStr ".title"]])
                ++ [new_element (VStr ".title") VNull])
             [mkCall (VRef 10) (VRef 14) [VStr ".title"]]).
Proof.
  rewrite (element_wrapper_on_page sample_ext sample_getter
             sample_isElementCommand sample_isScopedElementCommand
             sample_isValid 8 (VRef 10) (VRef 14) (VRef 0) sample "click"
             ".title" []).
  - reflexivity.
  - eapply sample_field; reflexivity.
  - eapply sample_field; reflexivity.
  - reflexivity.
  - eexists. split; [reflexivity|]. split; reflexivity.
  - discriminate.
  - reflexivity.
  - reflexivity.
  - reflexivity.
Defined.

(** X13, on the first call [find('.title')] of the wrapper for [footer]. *)
Lemma scoped_literal_delegates_witness :
  exists (s1 : state) (r arr : loc),
    sample_element_call 13 (VRef 10) (VRef 14) "find" [VStr ".title"] sample
    = bind (call_fn sample_ext (VRef 14) VUndef [VRef r])
        (fun parentSectionElement =>
           bind (get sample_getter parentSectionElement "find")
             (fun method =>
                call_fn sample_ext method parentSectionElement
                  [VStr ".title"])) s1
    /\ flag_set 13 s1
    /\ has_field (st_heap s1) r "selector" (VRef arr)
    /\ items_of (st_heap s1) (VRef arr) = [VRef 4].
Proof.
  destruct (scoped_literal_delegates sample_ext sample_getter
              sample_isElementCommand sample_isScopedElementCommand
              sample_isValid 13 4 (VRef 10) (VRef 14) sample "find" ".title"
              [] [VRef 4])
    as (s1 & r & arr & Hrun & _ & Hflag & _ & _ & Hsel & Harr & _).
  - eapply sample_field; reflexivity.
  - eapply sample_field; reflexivity.
  - reflexivity.
  - exact sample_ancestry.
  - discriminate.
  - reflexivity.
  - reflexivity.
  - reflexivity.
  - exists s1, r, arr. repeat split; assumption.
Defined.

(** X14, on [page.click('@submit')]. *)
Lemma wrapper_calls_once_witness :
  exists argv',
    st_calls (snd (sample_invoke (VRef 8) (VRef 10) (VRef 0)
                     [VStr "@submit"] sample))
    = [mkCall (VRef 10) (VRef 11) argv']
    /\ length argv' = 1.
Proof.
  destruct (wrapper_calls_once sample_ext sample_getter
              sample_isElementCommand sample_isScopedElementCommand
              sample_isValid (VRef 8) (VRef 10) (VRef 0) [VStr "@submit"]
              sample
              (snd (sample_invoke (VRef 8) (VRef 10) (VRef 0)
                      [VStr "@submit"] sample))
              (VRef 12) (VRef 11) eq_refl)
    as (_ & argv' & Hcalls & Hlen & _).
  exists argv'. split; [exact Hcalls|exact Hlen].
Defined.

(** X15, on [click('a.link')] called within a command on the element
    [link]. *)
Lemma needs_recursion_chain_witness :
  exists (s1 : state) (e arr ie : loc),
    wrapper_invoke sample_ext sample_getter sample_isElementCommand
      sample_isScopedElementCommand sample_isValid (VRef 8) (VRef 10)
      (VRef 38) [VStr "a.link"] sample2
    = bind (wrapper_client sample_getter (VRef 8) (VRef 38))
        (fun client =>
           bind (call_fn sample_ext (VRef 10) client [VRef e])
             (fun result => ret (result, client))) s1
    /\ has_field (st_heap s1) e "selector" (VRef arr)
    /\ items_of (st_heap s1) (VRef arr) = [VRef 6; VRef ie]
    /\ has_field (st_heap s1) ie "selector" (VStr "a.link").
Proof.
  destruct (needs_recursion_chain sample_ext sample_getter
              sample_isElementCommand sample_isScopedElementCommand
              sample_isValid 8 38 (VRef 10) (VBool true) (VRef 6)
              (VBool false) (VStr "click") sample2 "a.link" [])
    as (s1 & e & arr & ie & Hrun & _ & _ & _ & _ & Hsel & Harr & _ & Hie).
  - eapply sample2_field; reflexivity.
  - reflexivity.
  - eapply sample2_field; reflexivity.
  - eapply sample2_field; reflexivity.
  - reflexivity.
  - eapply sample2_field; reflexivity.
  - exists s1, e, arr, ie. repeat split; assumption.
Defined.

(** X16, on [page.click('@submit')]: the promise receives the page's
    [name]. *)
Lemma promise_gets_own_properties_witness :
  exists (s2 : state) (e : bool),
    sample_call (VRef 8) (VRef 10) (VRef 0) [VStr "@submit"] sample
    = (Ret (VRef 12), s2)
    /\ lookup_prop "name" (own_props (st_heap s2) (VRef 12))
       = Some (mkProp (Data (VStr "home")) e).
Proof.
  apply (promise_gets_own_properties sample_ext sample_getter
           sample_isElementCommand sample_isScopedElementCommand
           sample_isValid 8 12 0 (VRef 10) (VRef 0) (VRef 11) (VStr "home")
           [VStr "@submit"] sample
           (snd (sample_invoke (VRef 8) (VRef 10) (VRef 0)
                   [VStr "@submit"] sample))
           "name").
  - reflexivity.
  - reflexivity.
  - reflexivity.
  - reflexivity.
  - left. reflexivity.
  - discriminate.
  - reflexivity.
  - right. reflexivity.
Defined.

(** X18, on a loader (object 14) that returns the object holding [find]. *)
Lemma addWrappedCommandsAsync_loader_witness :
  let r := addWrappedCommandsAsync sample_ext sample_getter sample_strict
             (VRef 18) (VRef 14) sample in
  fst r = Ret (VRef 15)
  /\ st_calls (snd r) = [mkCall (VRef 14) VUndef [VRef 29]].
Proof.
  intros r. split; [reflexivity|].
  apply (addWrappedCommandsAsync_loader sample_ext sample_getter sample_strict
           (VRef 18) (VRef 14) (VRef 15) sample (snd r) eq_refl).
Defined.

Lemma sample2_no_namespace (ns : string) :
  isAllowedNamespace ns = true -> lacks sample2_heap 18 ns.
Proof.
  intros H. eexists. split; [reflexivity|]. split; [|reflexivity].
  unfold isAllowedNamespace, ALLOWED_NAMESPACES in H. simpl in H.
  repeat (apply orb_prop in H; destruct H as [H|H]);
    try discriminate; apply String.eqb_eq in H; subst ns; reflexivity.
Defined.

(** X19, on a loader result with the namespace [assert] holding [ok]. *)
Lemma applyCommandsToTarget_namespace_witness :
  let s1 := snd (applyCommandsToTarget sample_getter sample_strict (VRef 0)
                   (VRef 18) (VRef 39) sample2) in
  exists sl w cmd,
    has_field (st_heap s1) 18 "assert" (VRef sl)
    /\ has_field (st_heap s1) sl "ok" (VRef w)
    /\ cls_of (st_heap s1) (VRef w) = Some (CWrapper cmd (VRef 10)).
Proof.
  intros s1.
  destruct (applyCommandsToTarget_namespace sample_getter sample_strict
              (VRef 0) 18 39 40
              (new_obj CObject [("assert", VRef 40); ("open", VRef 10)])
              (new_obj CObject [("ok", VRef 10)])
              "assert" "ok" (VRef 10) sample2 s1)
    as (sl & w & cmd & H1 & _ & H3 & H4 & _).
  - vm_compute. lia.
  - reflexivity.
  - reflexivity.
  - discriminate.
  - discriminate.
  - intros ns Hns. left. now apply sample2_no_namespace.
  - reflexivity.
  - reflexivity.
  - reflexivity.
  - reflexivity.
  - exists sl, w, cmd. repeat split; assumption.
Defined.

(** X20, on [page.expect.section('@footer')]. *)
Lemma section_reference_resolves_witness :
  exists (s' : state) (e : loc),
    parseElementSelector sample_getter sample_isElementCommand
      sample_isScopedElementCommand sample_isValid (VRef 27) (VRef 31) sample2
    = (Ret tt, s')
    /\ items_of (st_heap s') (VRef 31) = [VRef e]
    /\ has_field (st_heap s') e "selector" (VStr "#footer")
    /\ has_field (st_heap s') e "locateStrategy" (VStr "css selector").
Proof.
  destruct (section_reference_resolves sample_getter sample_isElementCommand
              sample_isScopedElementCommand sample_isValid 27 31 0 3 4 sample2
              "footer" None [] [] (VBool true) (VStr "#footer")
              (VStr "css selector") (VRef 0))
    as (s' & e & Hrun & _ & _ & Hsel & Hls & _ & _ & Hpage & _).
  - reflexivity.
  - reflexivity.
  - intros sfx [=].
  - reflexivity.
  - eapply sample2_field; reflexivity.
  - reflexivity.
  - eapply sample2_field; reflexivity.
  - eapply sample2_field; reflexivity.
  - eapply sample2_field; reflexivity.
  - eapply sample2_field; reflexivity.
  - eapply sample2_field; reflexivity.
  - eapply sample2_field; reflexivity.
  - eapply sample2_field; reflexivity.
  - intros H. discriminate H.
  - exists s', e. repeat split; auto.
Defined.




(** X23, on the element wrapper of [click] called with [@cancel]. *)
Lemma element_wrapper_throws_before_call_witness :
  sample_element_call 8 (VRef 10) (VRef 14) "click" [VStr "@cancel"] sample
  = (Throw (Err "Error"
              (validate_message "Element" "cancel" "" "home" "elements"
                 ["submit"]) []),
     mkState ((sample_heap ++ [new_array [VStr "@cancel"]])
                ++ [new_element (VStr "@cancel") VNull]) []).
Proof.
  apply (element_wrapper_throws_before_call sample_ext sample_getter
           sample_isElementCommand sample_isScopedElementCommand
           sample_isValid 8 (VRef 10) (VRef 14) "click" [VStr "@cancel"]
           sample).
  reflexivity.
Defined.


